(** * Book-swap dashboard: the data-preparation pipeline

    A shallow embedding of the pure data-preparation code of the three
    chart components

    - [GenreBarChart]      (normalizeGenreKey, aggregateGenres),
    - [RatingYearHeatmap]  (pickKey, toNumber, decadeOf, ratingBinOf, prepared),
    - [ParallelCoords]     (pickKey, isFiniteNumber, variance, preferredGroups,
                            prepared),

    and of the values their drawing code computes from the prepared data
    (scale domains, ticks, bucket labels, axis labels, path points),
    followed by the properties proved about it.

    Conventions of the embedding.

    - A JavaScript number is an IEEE-754 binary64 value, represented by
      [spec_float] with the correctly rounded operations of
      [Floats.SpecFloat] at precision 53 and maximal exponent 1024.
    - Array lengths, loop counters and the integer configuration values
      (topN, minDims, maxDims, maxLines) are [nat]; they are exact as
      JavaScript numbers below 2^53.
    - A string is a [string] of 8-bit characters; case conversion and
      white space are the ASCII ones.
    - An object and a [Map] are lists of key/value pairs in insertion
      order ([omap]); a row is the list of its own properties in
      [Object.keys] order.
    - [Array.prototype.sort] is stable; it is a stable insertion sort here. *)

From Stdlib Require Import Bool Arith ZArith Lia List String Ascii.
From Stdlib Require Import Permutation Sorted.
From Stdlib Require Import Floats.SpecFloat.
From Stdlib Require Import DecimalString.
Import ListNotations.

Set Implicit Arguments.

(* ================================================================== *)
(** * Numbers                                                          *)
(* ================================================================== *)

Module Num.

Local Open Scope Z_scope.

Definition prec : Z := 53.
Definition emax : Z := 1024.

Definition number : Type := spec_float.

Definition pzero : number := S754_zero false.
Definition nzero : number := S754_zero true.
Definition NaN : number := S754_nan.
Definition Infinity : number := S754_infinity false.

(** The number denoted by an integer literal (exact below 2^53). *)
Definition of_Z (z : Z) : number := binary_normalize prec emax z 0 false.
Definition of_nat (n : nat) : number := of_Z (Z.of_nat n).

Definition add : number -> number -> number := SFadd prec emax.
Definition sub : number -> number -> number := SFsub prec emax.
Definition mul : number -> number -> number := SFmul prec emax.
Definition div : number -> number -> number := SFdiv prec emax.

(** [a < b], [a > b], [a <= b], [a >= b]: false as soon as one side is NaN. *)
Definition lt (a b : number) : bool := SFltb a b.
Definition gt (a b : number) : bool := SFltb b a.
Definition le (a b : number) : bool := SFleb a b.
Definition ge (a b : number) : bool := SFleb b a.

(** The decimal literal [n / 10^k], for [n] below 2^53 and [k] at most
    22: both integers are numbers, and the division is correctly
    rounded, so this is the binary64 value nearest to the literal. *)
Definition decimal (n : Z) (k : nat) : number :=
    div (of_Z n) (of_Z (10 ^ Z.of_nat k)).

Definition half : number := decimal 5 1.
Definition ten : number := of_Z 10.

(** [Number.isFinite] on a value that is a number. *)
Definition isFinite (x : number) : bool :=
    match x with
    | S754_zero _ | S754_finite _ _ _ => true
    | S754_infinity _ | S754_nan => false
    end.

Definition isNaN (x : number) : bool :=
    match x with S754_nan => true | _ => false end.

(** The integer [(-1)^s * m]. *)
Definition signed (s : bool) (m : positive) : Z :=
    if s then Zneg m else Zpos m.

(** [Math.floor]: the largest integral number not above [x]; zeros,
      infinities and NaN are returned unchanged.  A finite number with a
      non-negative exponent is integral already. *)
Definition Math_floor (x : number) : number :=
    match x with
    | S754_finite s m e =>
        if 0 <=? e then x
        else of_Z (signed s m / 2 ^ (- e))
    | _ => x
    end.

(** [Math.round]: the integral number nearest to [x], ties towards
      +Infinity, that is [floor (x + 1/2)] computed exactly; a result of
      zero keeps the sign of [x]. *)
Definition Math_round (x : number) : number :=
    match x with
    | S754_finite s m e =>
        if 0 <=? e then x
        else binary_normalize prec emax
               ((2 * signed s m + 2 ^ (- e)) / 2 ^ (- e + 1)) 0 s
    | _ => x
    end.

(** [Set] and [Map] compare keys with SameValueZero and store -0 as +0;
      [String] prints both zeros as "0". *)
Definition norm0 (x : number) : number :=
    match x with S754_zero _ => pzero | _ => x end.

Definition eq_dec (x y : number) : {x = y} + {x <> y}.
Proof.
  decide equality;
  first [ apply Bool.bool_dec | apply Z.eq_dec | apply Pos.eq_dec ].
Defined.

Definition eqb (x y : number) : bool := if eq_dec x y then true else false.

End Num.

Import Num.

(* ================================================================== *)
(** * Strings                                                          *)
(* ================================================================== *)

Module Str.

Definition is_upper (c : ascii) : bool :=
    let n := nat_of_ascii c in (65 <=? n) && (n <=? 90).

Definition lower_char (c : ascii) : ascii :=
    if is_upper c then ascii_of_nat (nat_of_ascii c + 32) else c.

(** [s.toLowerCase()], on a text of ASCII characters. *)
Fixpoint toLowerCase (s : string) : string :=
    match s with
    | EmptyString => EmptyString
    | String c s' => String (lower_char c) (toLowerCase s')
    end.

(** Some character of [s] is an upper-case letter. *)
Fixpoint has_upper (s : string) : bool :=
    match s with
    | EmptyString => false
    | String c s' => is_upper c || has_upper s'
    end.

(** White space and line terminators among the ASCII characters: TAB,
    LF, VT, FF, CR, SP. *)
Definition is_space (c : ascii) : bool :=
    let n := nat_of_ascii c in ((9 <=? n) && (n <=? 13)) || (n =? 32).

Fixpoint trimStart (s : string) : string :=
    match s with
    | EmptyString => EmptyString
    | String c s' => if is_space c then trimStart s' else s
    end.

Fixpoint trimEnd (s : string) : string :=
    match s with
    | EmptyString => EmptyString
    | String c s' =>
        match trimEnd s' with
        | EmptyString => if is_space c then EmptyString else String c EmptyString
        | t => String c t
        end
    end.

(** [s.trim()] *)
Definition trim (s : string) : string := trimEnd (trimStart s).

(** [s.split(sep)] for a one-character separator: never empty, and the
      empty string splits into one empty piece. *)
Fixpoint split (sep : ascii) (s : string) : list string :=
    match s with
    | EmptyString => [EmptyString]
    | String c s' =>
        if Ascii.eqb c sep then EmptyString :: split sep s'
        else match split sep s' with
             | piece :: rest => String c piece :: rest
             | [] => [String c EmptyString]
             end
    end.

(** Truthiness of a string: non-empty. *)
Definition nonempty (s : string) : bool :=
    match s with EmptyString => false | _ => true end.

End Str.

Import Str.

(* ================================================================== *)
(** * Insertion-ordered maps: [Map] and plain objects                  *)
(* ================================================================== *)

Section OMap.

Variables K V : Type.
Variable K_dec : forall x y : K, {x = y} + {x <> y}.

Definition omap : Type := list (K * V).

(** [m.get(k)], [o[k]]: [None] stands for an absent key. *)
Fixpoint oget (m : omap) (k : K) : option V :=
    match m with
    | [] => None
    | (k', v) :: m' => if K_dec k k' then Some v else oget m' k
    end.

(** [m.set(k, v)], [o[k] = v]: an existing key keeps its position, a
      new key goes last. *)
Fixpoint oset (m : omap) (k : K) (v : V) : omap :=
    match m with
    | [] => [(k, v)]
    | (k', v') :: m' =>
        if K_dec k k' then (k', v) :: m' else (k', v') :: oset m' k v
    end.

(** [new Map(entries)] *)
Definition omap_of (entries : list (K * V)) : omap :=
    fold_left (fun m kv => oset m (fst kv) (snd kv)) entries [].

Definition okeys (m : omap) : list K := map fst m.

End OMap.

(** The counting idiom [counts.set(k, (counts.get(k) ?? 0) + 1)]. *)
Section Tally.

Variable K : Type.
Variable K_dec : forall x y : K, {x = y} + {x <> y}.

Definition count_at (counts : omap K nat) (k : K) : nat :=
  match oget K_dec counts k with Some c => c | None => 0 end.

Definition bump (counts : omap K nat) (k : K) : omap K nat :=
  oset K_dec counts k (count_at counts k + 1).

End Tally.

(** [Array.from(new Set(l))], and the idiom
    [for (x of l) if (!out.includes(x)) out.push(x)]: the elements of
    [l] in order of first occurrence. *)
Section Dedupe.

Variable A : Type.
Variable A_dec : forall x y : A, {x = y} + {x <> y}.

Definition includes (l : list A) (x : A) : bool :=
    if in_dec A_dec x l then true else false.

Definition push_new (out : list A) (x : A) : list A :=
    if includes out x then out else out ++ [x].

Definition push_all_new (out l : list A) : list A :=
    fold_left push_new l out.

Definition dedupe (l : list A) : list A := push_all_new [] l.

End Dedupe.

(* ================================================================== *)
(** * Sorting                                                          *)
(* ================================================================== *)

Section Sort.

Variable A : Type.

(** The comparator's result after [ToNumber]; a NaN result counts as 0. *)
Variable cmp : A -> A -> Z.

(** [x] goes behind [y] only when the comparator says it is greater. *)
Fixpoint sort_insert (x : A) (l : list A) : list A :=
    match l with
    | [] => [x]
    | y :: l' => if (0 <? cmp x y)%Z then y :: sort_insert x l' else x :: l
    end.

(** [l.sort(cmp)] *)
Definition js_sort (l : list A) : list A := fold_right sort_insert [] l.

End Sort.

(** d3-array's comparators.  [None] is their NaN result. *)
Definition d3_ascending (a b : number) : option Z :=
  if lt a b then Some (-1)%Z
  else if gt a b then Some 1%Z
  else if ge a b then Some 0%Z
  else None.

Definition d3_descending (a b : number) : option Z :=
  if lt b a then Some (-1)%Z
  else if gt b a then Some 1%Z
  else if ge b a then Some 0%Z
  else None.

(** What [sort] makes of a comparator result. *)
Definition cmp_result (r : option Z) : Z :=
  match r with Some z => z | None => 0%Z end.

(* ================================================================== *)
(** * Cell values and rows                                             *)
(* ================================================================== *)

(** The values a loaded cell can hold: d3's [csv] yields strings, and
    with [autoType] also null, booleans, numbers (NaN included) and
    dates; a missing property reads as undefined.  A date is
    represented by its time value. *)
Inductive value : Type :=
| VUndefined
| VNull
| VBool (b : bool)
| VNum (n : number)
| VStr (s : string)
| VDate (t : number).

(** A row object: its own properties in [Object.keys] order.  An
    object has no two properties of one name: were a name listed twice,
    the first entry is the property. *)
Definition row : Type := omap string value.

(** [Object.keys(r)] *)
Definition keys (r : row) : list string := dedupe string_dec (okeys r).

(** [r?.[k]] *)
Definition prop (r : row) (k : string) : value :=
  match oget string_dec r k with
  | Some v => v
  | None => VUndefined
  end.

(** Truthiness, as tested by [!v] and [if (v)]. *)
Definition truthy (v : value) : bool :=
  match v with
  | VUndefined | VNull => false
  | VBool b => b
  | VNum n => negb (isNaN n) && negb (Num.eqb (norm0 n) pzero)
  | VStr s => nonempty s
  | VDate _ => true
  end.

(** [v ?? d] *)
Definition nullish_or (v d : value) : value :=
  match v with
  | VUndefined | VNull => d
  | _ => v
  end.

(** ** [Number(v)] *)

Module ToNumber.

Local Open Scope Z_scope.

Definition digit_in (base : Z) (c : ascii) : option Z :=
  let n := Z.of_nat (nat_of_ascii c) in
  let d :=
    if (48 <=? n) && (n <=? 57) then n - 48
    else if (97 <=? n) && (n <=? 102) then n - 87
    else if (65 <=? n) && (n <=? 70) then n - 55
    else base in
  if d <? base then Some d else None.

(** The longest prefix of digits of [s]: its value on top of [acc], its
    length on top of [len], and the rest of [s]. *)
Fixpoint take_digits (base : Z) (s : string) (acc : Z) (len : nat)
  : Z * nat * string :=
  match s with
  | EmptyString => (acc, len, s)
  | String c s' =>
      match digit_in base c with
      | Some d => take_digits base s' (acc * base + d) (S len)
      | None => (acc, len, s)
      end
  end.

(** The number nearest to [m * 10^e], with the sign [neg]. *)
Definition of_decimal (neg : bool) (m e : Z) : number :=
  match m with
  | Zpos p =>
      if 0 <=? e then binary_round prec emax neg (p * Z.to_pos (10 ^ e)) 0
      else
        let '(q, e', l) :=
          SFdiv_core_binary prec emax (Zpos p) 0 (10 ^ (- e)) 0 in
        binary_round_aux prec emax neg q e' l
  | _ => S754_zero neg
  end.

(** StrUnsignedDecimalLiteral without [Infinity]: digits, an optional
    fraction, an optional exponent, with a digit before or after the
    point. *)
Definition unsigned_decimal (neg : bool) (s : string) : number :=
  let '(i, ni, r1) := take_digits 10 s 0 0 in
  let '(m, nf, r2) :=
    match r1 with
    | String "."%char r => take_digits 10 r i 0
    | _ => (i, 0%nat, r1)
    end in
  match (ni + nf)%nat with
  | O => NaN
  | _ =>
      match r2 with
      | EmptyString => of_decimal neg m (- Z.of_nat nf)
      | String c r3 =>
          if Ascii.eqb c "e" || Ascii.eqb c "E" then
            let '(sg, r4) :=
              match r3 with
              | String "+"%char r => (1, r)
              | String "-"%char r => (-1, r)
              | _ => (1, r3)
              end in
            match take_digits 10 r4 0 0 with
            | (_, O, _) => NaN
            | (x, _, EmptyString) => of_decimal neg m (sg * x - Z.of_nat nf)
            | _ => NaN
            end
          else NaN
      end
  end.

Definition signed_decimal (neg : bool) (s : string) : number :=
  if String.eqb s "Infinity" then S754_infinity neg
  else unsigned_decimal neg s.

(** A literal with a radix prefix: digits only, at least one. *)
Definition radix_literal (base : Z) (s : string) : number :=
  match take_digits base s 0 0 with
  | (_, O, _) => NaN
  | (x, _, EmptyString) => of_Z x
  | _ => NaN
  end.

(** StringToNumber: white space is trimmed, the empty string is +0, and
    text that is no numeric literal is NaN. *)
Definition of_string (s : string) : number :=
  match trim s with
  | EmptyString => pzero
  | String "0"%char (String c r) as t =>
      if Ascii.eqb c "x" || Ascii.eqb c "X" then radix_literal 16 r
      else if Ascii.eqb c "o" || Ascii.eqb c "O" then radix_literal 8 r
      else if Ascii.eqb c "b" || Ascii.eqb c "B" then radix_literal 2 r
      else signed_decimal false t
  | String "+"%char r => signed_decimal false r
  | String "-"%char r => signed_decimal true r
  | t => signed_decimal false t
  end.

End ToNumber.

(** [Number(v)] *)
Definition Number (v : value) : number :=
  match v with
  | VUndefined => NaN
  | VNull => pzero
  | VBool true => of_Z 1
  | VBool false => pzero
  | VNum n => n
  | VStr s => ToNumber.of_string s
  | VDate t => t
  end.

(* ================================================================== *)
(** * Helpers shared by the components                                 *)
(* ================================================================== *)

(** The loop of [pickKey] over the candidates. *)
Fixpoint pickKey_loop (lowerToActual : omap string string)
  (candidates : list string) : option string :=
  match candidates with
  | [] => None
  | c :: rest =>
      match oget string_dec lowerToActual c with
      | Some actual =>
          if nonempty actual then Some actual
          else pickKey_loop lowerToActual rest
      | None => pickKey_loop lowerToActual rest
      end
  end.

(** [pickKey(row, candidates)] of RatingYearHeatmap.jsx and
    ParallelCoords.jsx (the same text in both).  [None] as a row is a
    falsy row, [None] as a result is null. *)
Definition pickKey (r : option row) (candidates : list string)
  : option string :=
  match r with
  | None => None
  | Some r =>
      let lowerToActual :=
        omap_of string_dec (map (fun k => (toLowerCase k, k)) (keys r)) in
      pickKey_loop lowerToActual candidates
  end.

(** [toNumber(v)] of RatingYearHeatmap.jsx; [None] is null. *)
Definition toNumber (v : value) : option number :=
  let n := match v with VNum n => n | _ => Number v end in
  if isFinite n then Some n else None.

(** [isFiniteNumber(v)] of ParallelCoords.jsx *)
Definition isFiniteNumber (v : value) : bool :=
  match v with
  | VNum n => isFinite n
  | _ => false
  end.

(** d3-array's [mean(values, valueof)]: the mean of the accessed values
    that are neither null nor undefined nor, once converted to a number,
    NaN; [None] (undefined) when there is none. *)
Definition d3_mean (A : Type) (valueof : A -> value) (values : list A)
  : option number :=
  let '(count, sum) :=
    fold_left
      (fun '(count, sum) d =>
         match valueof d with
         | VUndefined | VNull => (count, sum)
         | v => if ge (Number v) (Number v)
                then (S count, add sum (Number v))
                else (count, sum)
         end)
      values (0, pzero) in
  match count with
  | 0 => None
  | _ => Some (div sum (of_nat count))
  end.

(** [d3.descending] on two counts. *)
Definition descending_count (a b : nat) : Z :=
  if b <? a then (-1)%Z else if a <? b then 1%Z else 0%Z.

(** [l.filter(Boolean)] on a list of objects or null. *)
Fixpoint filter_Boolean (A : Type) (l : list (option A)) : list A :=
  match l with
  | [] => []
  | Some x :: l' => x :: filter_Boolean l'
  | None :: l' => filter_Boolean l'
  end.

Local Open Scope string_scope.
Local Open Scope list_scope.
Local Open Scope nat_scope.

(** The string conversions the engine provides and the code only calls:
    the decimal rendering of a number and the rendering of a date. *)
Class Engine : Type := {
  NumberToString : number -> string;
  DateToString : number -> string
}.

Section Conversions.

Context {engine : Engine}.

(** [String(v)] *)
Definition ToString (v : value) : string :=
  match v with
  | VUndefined => "undefined"
  | VNull => "null"
  | VBool true => "true"
  | VBool false => "false"
  | VNum n => NumberToString n
  | VStr s => s
  | VDate t => DateToString t
  end.

(** [titleKey ? String(r?.[titleKey] ?? '') : ''] *)
Definition title_of (titleKey : option string) (r : row) : string :=
  match titleKey with
  | Some k =>
      if nonempty k then ToString (nullish_or (prop r k) (VStr "")) else ""
  | None => ""
  end.

End Conversions.

(* ================================================================== *)
(** * GenreBarChart                                                    *)
(* ================================================================== *)

Module GenreBarChart.

Section Code.

Context {engine : Engine}.

Record entry : Type := { genre : string; count : nat }.

(** [normalizeGenreKey(row)] *)
Definition normalizeGenreKey (r : option row) : option string :=
  match r with
  | None => None
  | Some r =>
      find (fun k =>
              let lower := toLowerCase k in
              String.eqb lower "genres" || String.eqb lower "genre")
           (keys r)
  end.

(** The pieces a cell contributes: split on commas, trimmed, empty
    pieces dropped. *)
Definition parts_of (raw : value) : list string :=
  filter nonempty (map trim (split "," (ToString raw))).

(** The counting loop over the rows. *)
Definition count_rows (genreKey : string) (rows : list row)
  : omap string nat :=
  fold_left
    (fun counts r =>
       let raw := prop r genreKey in
       if negb (truthy raw) then counts
       else fold_left (bump string_dec) (parts_of raw) counts)
    rows [].

Definition by_count_desc (a b : entry) : Z :=
  descending_count (count a) (count b).

(** [aggregateGenres(rows, topN)] *)
Definition aggregateGenres (rows : list row) (topN : nat) : list entry :=
  match rows with
  | [] => []
  | row0 :: _ =>
      match normalizeGenreKey (Some row0) with
      | None => []
      | Some genreKey =>
          if negb (nonempty genreKey) then []
          else
            let counts := count_rows genreKey rows in
            let out :=
              map (fun gc => {| genre := fst gc; count := snd gc |}) counts in
            let out := js_sort by_count_desc out in
            firstn topN out
      end
  end.

End Code.

End GenreBarChart.

(* ================================================================== *)
(** * RatingYearHeatmap                                                *)
(* ================================================================== *)

Module RatingYearHeatmap.

(** [decadeOf(year)] *)
Definition decadeOf (year : number) : number :=
  mul (Math_floor (div year ten)) ten.

(** [ratingBinOf(rating)] *)
Definition ratingBinOf (rating : number) : number :=
  let b := mul (Math_floor (div rating half)) half in
  div (Math_round (mul b ten)) ten.

Record item : Type := { decade : number; ratingBin : number; title : string }.

Record cell : Type :=
  { cell_decade : number; cell_ratingBin : number; count : nat }.

Record result : Type :=
  { data : list cell;
    decades : list number;
    ratingBins : list number;
    maxCount : nat }.

Definition no_data : result :=
  {| data := []; decades := []; ratingBins := []; maxCount := 0 |}.

Definition yearCandidates : list string :=
  [ "publication_year"; "published_year"; "original_publication_year";
    "year"; "publicationyear"; "publicationYear" ].

Definition ratingCandidates : list string :=
  [ "average_rating"; "avg_rating"; "rating"; "rating_average" ].

Definition titleCandidates : list string := [ "title"; "book_title"; "name" ].

(** [typeof bound === 'number' && Number.isFinite(bound) && test(bound)] *)
Definition bound_excludes (bound : value) (test : number -> bool) : bool :=
  match bound with
  | VNum b => isFinite b && test b
  | _ => false
  end.

(** The key of the counting [Map].  The source builds the string
    [`${decade}|${ratingBin}`]; the rendering of a number tells any two
    numbers apart except the two zeros, and contains no bar, so the key
    is the pair of the two numbers with -0 read as +0. *)
Definition key_of (dec bin : number) : number * number :=
  (norm0 dec, norm0 bin).

Definition key_dec (x y : number * number) : {x = y} + {x <> y}.
Proof. decide equality; apply Num.eq_dec. Defined.

(** [Array.from(new Set(l))] on numbers. *)
Definition distinct (l : list number) : list number :=
  dedupe Num.eq_dec (map norm0 l).

Definition ascending (a b : number) : Z := cmp_result (d3_ascending a b).

(** The counting loop over the items. *)
Definition count_items (items : list item) : omap (number * number) nat :=
  fold_left
    (fun counts d => bump key_dec counts (key_of (decade d) (ratingBin d)))
    items [].

(** The inner loop of the grid: the cells of one decade, threading
    [data] and [maxCount]. *)
Definition fill_row (counts : omap (number * number) nat) (dec : number)
  (bins : list number) (st : list cell * nat) : list cell * nat :=
  fold_left
    (fun '(data, maxCount) bin =>
       let key := key_of dec bin in
       let count := count_at key_dec counts key in
       (data ++ [{| cell_decade := dec; cell_ratingBin := bin;
                    count := count |}],
        if maxCount <? count then count else maxCount))
    bins st.

(** The two nested loops that fill the grid. *)
Definition fill_grid (decs bins : list number)
  (counts : omap (number * number) nat) : list cell * nat :=
  fold_left (fun st dec => fill_row counts dec bins st) decs ([], 0).

Section Code.

Context {engine : Engine}.

(** The body of [rows.map(...)]: the item a row yields, or null. *)
Definition item_of (minYear maxYear : value)
  (titleKey : option string) (yearKey ratingKey : string) (r : row)
  : option item :=
  match toNumber (prop r yearKey), toNumber (prop r ratingKey) with
  | Some year, Some rating =>
      if bound_excludes minYear (fun b => lt year b) then None
      else if bound_excludes maxYear (fun b => gt year b) then None
      else Some {| decade := decadeOf year;
                   ratingBin := ratingBinOf rating;
                   title := title_of titleKey r |}
  | _, _ => None
  end.

(** The items [prepared] works on: the rows that pass the filters,
    bucketed; none when a column is not resolved. *)
Definition items_of (minYear maxYear : value) (rows : list row)
  : list item :=
  match rows with
  | [] => []
  | row0 :: _ =>
      let titleKey := pickKey (Some row0) titleCandidates in
      match pickKey (Some row0) yearCandidates,
            pickKey (Some row0) ratingCandidates with
      | Some yearKey, Some ratingKey =>
          if negb (nonempty yearKey) || negb (nonempty ratingKey) then []
          else
            filter_Boolean
              (map (item_of minYear maxYear titleKey yearKey ratingKey) rows)
      | _, _ => []
      end
  end.

(** [prepared], for the props [minYear] and [maxYear] (1900 and null by
    default). *)
Definition prepared (minYear maxYear : value) (rows : list row) : result :=
  match rows with
  | [] => no_data
  | row0 :: _ =>
      let titleKey := pickKey (Some row0) titleCandidates in
      match pickKey (Some row0) yearCandidates,
            pickKey (Some row0) ratingCandidates with
      | Some yearKey, Some ratingKey =>
          if negb (nonempty yearKey) || negb (nonempty ratingKey) then no_data
          else
            let items :=
              filter_Boolean
                (map (item_of minYear maxYear titleKey yearKey ratingKey)
                   rows) in
            let decades := js_sort ascending (distinct (map decade items)) in
            let ratingBins :=
              js_sort ascending (distinct (map ratingBin items)) in
            let counts := count_items items in
            let '(data, maxCount) := fill_grid decades ratingBins counts in
            {| data := data; decades := decades; ratingBins := ratingBins;
               maxCount := maxCount |}
      | _, _ => no_data
      end
  end.

End Code.

End RatingYearHeatmap.

(* ================================================================== *)
(** * ParallelCoords                                                   *)
(* ================================================================== *)

Module ParallelCoords.

(** [variance(values)] *)
Definition variance (values : list value) : number :=
  if List.length values <? 2 then pzero
  else
    let mean :=
      match d3_mean (fun d => d) values with Some m => m | None => pzero end in
    match
      d3_mean
        (fun d => VNum (mul (sub (Number d) mean) (sub (Number d) mean)))
        values
    with
    | Some v => v
    | None => pzero
    end.

(** [preferredGroups()] *)
Definition preferredGroups : list (list string) :=
  [ [ "publication_year"; "publicationyear"; "published_year";
      "original_publication_year"; "year"; "publicationYear" ];
    [ "average_rating"; "rating_average"; "avg_rating"; "rating" ];
    [ "page_count"; "pagecount"; "pages"; "pageCount" ];
    [ "ratings_count"; "rating_count"; "num_ratings"; "ratingsCount" ];
    [ "swap_count"; "swapcount"; "exchange_count"; "exchangecount"; "swaps";
      "exchangeCount"; "swapCount" ];
    [ "popularity_score"; "popularityscore"; "popularity"; "score" ] ].

Definition titleCandidates : list string := [ "title"; "book_title"; "name" ].

Definition excluded (k : string) : bool :=
  String.eqb k "id" || String.eqb k "isbn".

(** The per-column statistics; [var] is the field [var] of the source. *)
Record stat : Type :=
  { key : string;
    values : list value;
    validCount : nat;
    missingRatio : number;
    var : number }.

Definition numericCandidates (rows : list row) (row0 : row) : list string :=
  filter (fun k => existsb (fun r => isFiniteNumber (prop r k)) rows)
    (filter (fun k => negb (excluded (toLowerCase k))) (keys row0)).

Definition stat_of (rows : list row) (k : string) : stat :=
  let values := filter isFiniteNumber (map (fun r => prop r k) rows) in
  let validCount := List.length values in
  {| key := k;
     values := values;
     validCount := validCount;
     missingRatio :=
       sub (of_Z 1) (div (of_nat validCount) (of_nat (List.length rows)));
     var := variance values |}.

(** The surviving numeric candidates. *)
Definition stats (rows : list row) (row0 : row) : list stat :=
  filter (fun d => le (missingRatio d) (decimal 4 1))
    (filter (fun d => 0 <? validCount d)
       (map (stat_of rows) (numericCandidates rows row0))).

(** The inner loop over the aliases of a group: the first alias that
    finds a (truthy) key. *)
Fixpoint pick_alias (keySet : list string) (group : list string)
  : option string :=
  match group with
  | [] => None
  | alias :: rest =>
      match
        find (fun k => String.eqb (toLowerCase k) (toLowerCase alias)) keySet
      with
      | Some actual =>
          if nonempty actual then Some actual else pick_alias keySet rest
      | None => pick_alias keySet rest
      end
  end.

Definition preferred (keySet : list string) : list string :=
  fold_left
    (fun preferred group =>
       match pick_alias keySet group with
       | Some actual => preferred ++ [actual]
       | None => preferred
       end)
    preferredGroups [].

Definition by_var_desc (a b : stat) : Z :=
  cmp_result (d3_descending (var a) (var b)).

Definition byVar (st : list stat) : list string :=
  map key (js_sort by_var_desc st).

Definition combined (st : list stat) : list string :=
  let keySet := dedupe string_dec (map key st) in
  push_all_new string_dec
    (push_all_new string_dec [] (preferred keySet)) (byVar st).

(** The selection of [dims] out of [combined]. *)
Definition select (maxDims minDims : nat) (combined : list string)
  : list string :=
  let maxPick := Nat.max 1 (Nat.min maxDims (List.length combined)) in
  let dims := firstn maxPick combined in
  let dims := if maxDims <? List.length dims then firstn maxDims dims else dims in
  if List.length dims <? minDims
  then firstn (Nat.min minDims (List.length combined)) combined
  else dims.

(** What a property of a projected record holds: the row it was made
    from, a cell or a string, or the count of missing cells.  The
    record is an ordinary object, whose properties are set by name
    (there is no column of the name [__proto__]). *)
Inductive field : Type :=
| FRow (r : row)
| FVal (v : value)
| FCount (n : nat).

Definition record : Type := omap string field.

Record result : Type :=
  { dims : list string; data : list record; titleKey : option string }.

Definition no_data : result := {| dims := []; data := []; titleKey := None |}.

(** [r.__missing <= Math.floor(dims.length / 2)] *)
Definition few_missing (dims : list string) (rec : record) : bool :=
  match oget string_dec rec "__missing" with
  | Some (FCount missing) => missing <=? List.length dims / 2
  | _ => false
  end.

(** The body of the loop over the dimensions, threading the record and
    the count of missing cells. *)
Definition record_step (r : row) (st : record * nat) (d : string)
  : record * nat :=
  let '(rec, missing) := st in
  let v := prop r d in
  (oset string_dec rec d (FVal (if isFiniteNumber v then v else VNull)),
   if negb (isFiniteNumber v) then S missing else missing).

Section Code.

Context {engine : Engine}.

(** The body of [rows.map(...)]: the record built for a row. *)
Definition record_of (titleKey : option string) (dims : list string)
  (r : row) : record :=
  let rec : record :=
    [ ("raw", FRow r); ("title", FVal (VStr (title_of titleKey r))) ] in
  let '(rec, missing) := fold_left (record_step r) dims (rec, 0) in
  oset string_dec rec "__missing" (FCount missing).

(** [prepared], for the props [maxDims], [minDims] and [maxLines]
    (6, 4 and 550 by default).  A [maxLines] that is not finite switches
    the cap off in the source, as 0 does here. *)
Definition prepared (maxDims minDims maxLines : nat) (rows : list row)
  : result :=
  match rows with
  | [] => no_data
  | row0 :: _ =>
      let titleKey := pickKey (Some row0) titleCandidates in
      let dims := select maxDims minDims (combined (stats rows row0)) in
      let dimSet := dedupe string_dec dims in
      let data :=
        filter (few_missing dims) (map (record_of titleKey dims) rows) in
      let data :=
        if (0 <? maxLines) && (maxLines <? List.length data)
        then firstn maxLines data
        else data in
      {| dims := dimSet; data := data; titleKey := titleKey |}
  end.

End Code.

End ParallelCoords.

(* ================================================================== *)
(** * Vocabulary of the properties                                     *)
(* ================================================================== *)

(** The contract of [Array.prototype.sort] for a comparator [cmp]: the
    result is a rearrangement of the array, in which no element is
    followed by one the comparator puts before it, and in which the
    elements that compare equal keep their relative order. *)
Definition sort_contract (A : Type) (cmp : A -> A -> Z) (l l' : list A)
  : Prop :=
  Permutation l l' /\
  StronglySorted (fun a b => (cmp a b <= 0)%Z) l' /\
  forall x,
    filter (fun y => (cmp x y =? 0)%Z) l'
    = filter (fun y => (cmp x y =? 0)%Z) l.

(** The order and the ties of a sort by decreasing rank. *)
Definition above (A : Type) (rank : A -> nat) (a b : A) : Prop :=
  rank b <= rank a.

Definition tied (A : Type) (rank : A -> nat) (c : nat) (y : A) : bool :=
  rank y =? c.

(** An engine with placeholder renderings, to run the code on rows that
    render no number and no date. *)
Definition sample_engine : Engine :=
  {| NumberToString := fun _ => "0"; DateToString := fun _ => "0" |}.

(** ** Column resolution *)

Definition matches (c k : string) : bool := String.eqb (toLowerCase k) c.

(** The resolver as the specification words it: candidates in list
    order, and for a candidate the first field of the row whose
    lower-cased name it is. *)
Fixpoint resolve_first_loop (ks candidates : list string) : option string :=
  match candidates with
  | [] => None
  | c :: rest =>
      match find (matches c) ks with
      | Some k => Some k
      | None => resolve_first_loop ks rest
      end
  end.

Definition resolve_first (r : option row) (candidates : list string)
  : option string :=
  match r with
  | None => None
  | Some r => resolve_first_loop (keys r) candidates
  end.

(** The same with the last field of the row that matches the candidate,
    a candidate being passed over when that field has the empty name. *)
Fixpoint resolve_last_loop (ks candidates : list string) : option string :=
  match candidates with
  | [] => None
  | c :: rest =>
      match find (matches c) (rev ks) with
      | Some k => if nonempty k then Some k else resolve_last_loop ks rest
      | None => resolve_last_loop ks rest
      end
  end.


(** ** Genre counts *)

Section GenreVocabulary.

Context {engine : Engine}.

(** The genre column of the data set. *)
Definition genreKey_of (rows : list row) : option string :=
  match rows with
  | [] => None
  | row0 :: _ =>
      match GenreBarChart.normalizeGenreKey (Some row0) with
      | Some k => if nonempty k then Some k else None
      | None => None
      end
  end.

(** Every genre mention of the data set, in the order the rows are read. *)
Definition tokens (rows : list row) : list string :=
  match genreKey_of rows with
  | None => []
  | Some genreKey =>
      flat_map
        (fun r =>
           let raw := prop r genreKey in
           if truthy raw then GenreBarChart.parts_of raw else [])
        rows
  end.

(** The records of [aggregateGenres] before they are sorted: the
    entries of the counting map in insertion order. *)
Definition counted (rows : list row) : list GenreBarChart.entry :=
  match genreKey_of rows with
  | None => []
  | Some genreKey =>
      map (fun gc => {| GenreBarChart.genre := fst gc;
                        GenreBarChart.count := snd gc |})
        (GenreBarChart.count_rows genreKey rows)
  end.

(** A run of [aggregateGenres] on an engine whose [sort] is only known
    to honour the contract. *)
Definition aggregates (rows : list row) (topN : nat)
  (out : list GenreBarChart.entry) : Prop :=
  exists sorted,
    sort_contract GenreBarChart.by_count_desc (counted rows) sorted /\
    out = firstn topN sorted.

End GenreVocabulary.

(** ** Heat map *)

(** How many items fall into the cell of [dec] and [bin]. *)
Definition observed (items : list RatingYearHeatmap.item)
  (dec bin : number) : nat :=
  List.length
    (filter
       (fun i =>
          if RatingYearHeatmap.key_dec
               (RatingYearHeatmap.key_of (RatingYearHeatmap.decade i)
                  (RatingYearHeatmap.ratingBin i))
               (RatingYearHeatmap.key_of dec bin)
          then true else false)
       items).

Definition cell_key (c : RatingYearHeatmap.cell) : number * number :=
  (RatingYearHeatmap.cell_decade c, RatingYearHeatmap.cell_ratingBin c).

(** The cell the grid loop makes for [dec] and [bin]. *)
Definition grid_cell (counts : omap (number * number) nat)
  (dec bin : number) : RatingYearHeatmap.cell :=
  {| RatingYearHeatmap.cell_decade := dec;
     RatingYearHeatmap.cell_ratingBin := bin;
     RatingYearHeatmap.count :=
       count_at RatingYearHeatmap.key_dec counts
         (RatingYearHeatmap.key_of dec bin) |}.

(** The exact integer [floor (2 * x)] for the finite number
    [x = (-1)^s * m * 2^e] with [e < -1]. *)
Definition floor_twice (s : bool) (m : positive) (e : Z) : Z :=
  (signed s m / 2 ^ (- (e + 1)))%Z.

(** ** Parallel coordinates *)

(** The numeric candidates that survive the filters on the valid count
    and on the missing ratio. *)
Definition survivors (rows : list row) : list ParallelCoords.stat :=
  match rows with
  | [] => []
  | row0 :: _ => ParallelCoords.stats rows row0
  end.

(** The number of selected dimensions a row has no finite number for. *)
Definition missing_count (dims : list string) (r : row) : nat :=
  List.length (filter (fun d => negb (isFiniteNumber (prop r d))) dims).

(** The cell of a projected record: the number, or null. *)
Definition coerced (v : value) : value :=
  if isFiniteNumber v then v else VNull.

(** The cap [maxLines] on the number of records. *)
Definition capped (A : Type) (maxLines : nat) (data : list A) : list A :=
  if (0 <? maxLines) && (maxLines <? List.length data)
  then firstn maxLines data
  else data.

(* ================================================================== *)
(** * The drawing code: the values it computes                         *)
(* ================================================================== *)

(** [l.filter((d, i) => f(d, i))], the index starting at [i]. *)
Fixpoint filter_index (A : Type) (f : A -> nat -> bool) (i : nat)
  (l : list A) : list A :=
  match l with
  | [] => []
  | d :: l' =>
      if f d i then d :: filter_index f (S i) l' else filter_index f (S i) l'
  end.

(** d3-array's [max] on counts; [None] is undefined, for no value. *)
Definition d3_max (values : list nat) : option nat :=
  fold_left
    (fun max value =>
       match max with
       | None => Some value
       | Some m => if m <? value then Some value else max
       end)
    values None.

(** d3-array's [extent] on numbers: the least and the greatest of the
    values that are not NaN; [None] stands for the pair of undefined. *)
Definition d3_extent (values : list number) : option (number * number) :=
  fold_left
    (fun ext value =>
       match ext with
       | None => if ge value value then Some (value, value) else None
       | Some (min, max) =>
           Some (if gt min value then value else min,
                 if lt max value then value else max)
       end)
    values None.

(** ** GenreBarChart *)

Module GenreBarChartDraw.

(** The domain of the band scale: [data.map((d) => d.genre)]. *)
Definition xDomain (data : list GenreBarChart.entry) : list string :=
  map GenreBarChart.genre data.

(** [d3.max(data, (d) => d.count) ?? 0] *)
Definition yMax (data : list GenreBarChart.entry) : nat :=
  match d3_max (map GenreBarChart.count data) with
  | Some m => m
  | None => 0
  end.

(** The upper end of the linear scale before [nice]:
    [Math.max(1, yMax)]. *)
Definition yDomainMax (data : list GenreBarChart.entry) : nat :=
  Nat.max 1 (yMax data).

End GenreBarChartDraw.

(** ** RatingYearHeatmap *)

Module HeatmapDraw.

(** The digits of [x.toFixed(1)] for the magnitude [m * 2^e]: the
    integer [n] nearest to ten times the magnitude, the greater one on
    a tie, written with its last digit behind the point. *)
Definition tenths (m : positive) (e : Z) : Z :=
  if (0 <=? e)%Z then (10 * Zpos m * 2 ^ e)%Z
  else ((20 * Zpos m + 2 ^ (- e)) / 2 ^ (- e + 1))%Z.

Definition fixed1_digits (n : Z) : string :=
  String.append (NilZero.string_of_uint (N.to_uint (Z.to_N (n / 10))))
    (String.append "."
       (NilZero.string_of_uint (N.to_uint (Z.to_N (n mod 10))))).

(** The separator of the two bounds in [ratingRangeLabel], as the
    source file has it. *)
Definition range_separator : string := "â€“".

(** [Math.max(1, prepared.maxCount)], the upper end of the colour
    scale. *)
Definition colorMax (p : RatingYearHeatmap.result) : nat :=
  Nat.max 1 (RatingYearHeatmap.maxCount p).

(** The decades that get a tick: every [step]-th one, for
    [step = Math.max(1, Math.floor(decades.length / 10))]. *)
Definition tickDecades (decades : list number) : list number :=
  let step := Nat.max 1 (List.length decades / 10) in
  filter_index (fun _ i => i mod step =? 0) 0 decades.

Section Code.

Context {engine : Engine}.

(** [x.toFixed(1)] *)
Definition toFixed1 (x : number) : string :=
  match x with
  | S754_finite s m e =>
      if le (of_Z (10 ^ 21)) (SFabs x) then NumberToString x
      else String.append (if s then "-" else "") (fixed1_digits (tenths m e))
  | S754_zero _ => "0.0"
  | S754_infinity s => if s then "-Infinity" else "Infinity"
  | S754_nan => "NaN"
  end.

(** [ratingRangeLabel(bin)] *)
Definition ratingRangeLabel (bin : number) : string :=
  let lo := toFixed1 bin in
  let hi := toFixed1 (add bin half) in
  String.append lo (String.append range_separator hi).

(** The domain of the vertical band scale:
    [prepared.ratingBins.map((d) => d.toFixed(1))]. *)
Definition yDomain (p : RatingYearHeatmap.result) : list string :=
  map toFixed1 (RatingYearHeatmap.ratingBins p).

(** [tickValues]: the ticks of the decade axis. *)
Definition tickValues (p : RatingYearHeatmap.result) : list string :=
  map (fun d => ToString (VNum d))
    (tickDecades (RatingYearHeatmap.decades p)).

End Code.

End HeatmapDraw.

(** ** ParallelCoords *)

Module ParallelCoordsDraw.

(** [d[p]] when [isFiniteNumber(d[p])] holds, for a record [d]: the
    number the property holds; a count is a number. *)
Definition cell_number (rec : ParallelCoords.record) (p : string)
  : option number :=
  match oget string_dec rec p with
  | Some (ParallelCoords.FVal (VNum n)) => if isFinite n then Some n else None
  | Some (ParallelCoords.FCount c) => Some (of_nat c)
  | _ => None
  end.

(** [prepared.data.map((d) => d[dim]).filter(isFiniteNumber)] *)
Definition axis_values (data : list ParallelCoords.record) (dim : string)
  : list number :=
  filter_Boolean (map (fun d => cell_number d dim) data).

(** The domain of the scale of an axis before [nice]: the extent of its
    values, or [[0, 1]] when there is none. *)
Definition axis_domain (data : list ParallelCoords.record) (dim : string)
  : number * number :=
  match d3_extent (axis_values data dim) with
  | Some ext => ext
  | None => (pzero, of_Z 1)
  end.

(** [c.toUpperCase()] for one ASCII character (the properties of the
    labels are stated for keys of ASCII characters), and the classes
    [[a-z]] and [[0-9]]. *)
Definition is_lower (c : ascii) : bool :=
  let n := nat_of_ascii c in (97 <=? n) && (n <=? 122).

Definition is_digit (c : ascii) : bool :=
  let n := nat_of_ascii c in (48 <=? n) && (n <=? 57).

Definition upper_char (c : ascii) : ascii :=
  if is_lower c then ascii_of_nat (nat_of_ascii c - 32) else c.

(** [s.replace(/_/g, ' ')] *)
Fixpoint replace_underscores (s : string) : string :=
  match s with
  | EmptyString => EmptyString
  | String c s' =>
      String (if Ascii.eqb c "_" then " "%char else c)
        (replace_underscores s')
  end.

(** [s.replace(/([a-z0-9])([A-Z])/g, '$1 $2')]: the search goes on
    behind a match. *)
Fixpoint space_camel (s : string) : string :=
  match s with
  | EmptyString => EmptyString
  | String c1 s1 =>
      match s1 with
      | EmptyString => String c1 EmptyString
      | String c2 s2 =>
          if (is_lower c1 || is_digit c1) && is_upper c2
          then String c1 (String " " (String c2 (space_camel s2)))
          else String c1 (space_camel s1)
      end
  end.

(** [s.split(/\s+/)], with [in_run] telling that the character before
    was white space: a run of white space separates two pieces, and
    the pieces before the first and behind the last run may be empty. *)
Fixpoint split_spaces (in_run : bool) (s : string) : list string :=
  match s with
  | EmptyString => [EmptyString]
  | String c s' =>
      if is_space c
      then if in_run then split_spaces true s'
           else EmptyString :: split_spaces true s'
      else match split_spaces false s' with
           | piece :: rest => String c piece :: rest
           | [] => [String c EmptyString]
           end
  end.

(** [w.length ? w[0].toUpperCase() + w.slice(1) : w] *)
Definition capitalize (w : string) : string :=
  match w with
  | EmptyString => EmptyString
  | String c w' => String (upper_char c) w'
  end.

(** [formatLabel(key)], the label of an axis. *)
Definition formatLabel (key : string) : string :=
  let spaced := trim (space_camel (replace_underscores key)) in
  String.concat " " (map capitalize (split_spaces false spaced)).

Section Path.

(** The point scale of the axes and the linear scales of the values,
    which d3 provides. *)
Variable x : string -> number.
Variable yScales : string -> number -> number.

(** The points [pathFor(d)] hands to the line generator. *)
Definition pathPoints (dims : list string) (d : ParallelCoords.record)
  : list (number * number) :=
  filter_Boolean
    (map (fun p =>
            match cell_number d p with
            | Some v => Some (x p, yScales p v)
            | None => None
            end)
       dims).

End Path.

End ParallelCoordsDraw.

(** ** The order of the numbers *)

(** A number that is not NaN, as a triple that orders like the number:
    its class, then its exponent, then its mantissa, the latter two
    negated for a negative number. *)
Definition order_key (x : number) : Z * Z * Z :=
  match x with
  | S754_infinity true => (-2, 0, 0)%Z
  | S754_finite true m e => (-1, - e, Zneg m)%Z
  | S754_finite false m e => (1, e, Zpos m)%Z
  | S754_infinity false => (2, 0, 0)%Z
  | _ => (0, 0, 0)%Z
  end.

Definition key_lt (a b : Z * Z * Z) : Prop :=
  let '(c1, e1, m1) := a in
  let '(c2, e2, m2) := b in
  (c1 < c2 \/ (c1 = c2 /\ (e1 < e2 \/ (e1 = e2 /\ m1 < m2))))%Z.


(** ** The text of a label *)

(** The characters of a string that are neither white space nor an
    underscore. *)
Fixpoint solid (s : string) : string :=
  match s with
  | EmptyString => EmptyString
  | String c s' =>
      if is_space c || Ascii.eqb c "_" then solid s' else String c (solid s')
  end.

(** A text of ASCII characters: on such a text the case conversions and
    the white space of this embedding are those of JavaScript. *)
Definition ascii_text (s : string) : bool :=
  forallb (fun c => nat_of_ascii c <? 128) (list_ascii_of_string s).

(** ** The cells of the heat map, counted from the items *)

(** Two numbers that neither a [Set] nor a key string tells apart: the
    same number, or two zeros. *)
Definition same_number (a b : number) : bool :=
  match a, b with
  | S754_zero _, S754_zero _ => true
  | _, _ => Num.eqb a b
  end.

(** The item [i] has the decade [dec] and the rating bucket [bin]. *)
Definition falls_into (dec bin : number) (i : RatingYearHeatmap.item)
  : bool :=
  same_number (RatingYearHeatmap.decade i) dec
  && same_number (RatingYearHeatmap.ratingBin i) bin.

(** ** The columns of the parallel coordinates *)

(** The finite numbers of the column [k], row by row. *)
Definition finite_values (rows : list row) (k : string) : list value :=
  filter isFiniteNumber (map (fun r => prop r k) rows).

(** The key [k] answers to [alias]: the same name, case apart. *)
Definition answers (alias k : string) : bool :=
  String.eqb (toLowerCase k) (toLowerCase alias).

(** The column a group of aliases stands for among [keySet]: the
    aliases in their order, for each the keys that answer to it in
    their order, and of all these the first. *)
Definition first_answer (keySet group : list string) : option string :=
  hd_error (flat_map (fun alias => filter (answers alias) keySet) group).

(* ================================================================== *)
(** * Properties                                                       *)
(* ================================================================== *)

(** ** First occurrences *)

Section DedupeFacts.

Variable A : Type.
Variable A_dec : forall x y : A, {x = y} + {x <> y}.

Lemma includes_true (l : list A) x : includes A_dec l x = true <-> In x l.
Proof.
  unfold includes. destruct (in_dec A_dec x l); split; try tauto; discriminate.
Qed.

Lemma includes_false (l : list A) x : includes A_dec l x = false <-> ~ In x l.
Proof.
  unfold includes. destruct (in_dec A_dec x l); split; try tauto; discriminate.
Qed.

Lemma push_all_new_In (l out : list A) x :
  In x (push_all_new A_dec out l) <-> In x out \/ In x l.
Proof.
  unfold push_all_new. revert out.
  induction l as [|y l IH]; intros out; simpl; [tauto|].
  rewrite IH. unfold push_new.
  destruct (includes A_dec out y) eqn:E.
  - apply includes_true in E. split; [tauto|].
    intros [H|[->|H]]; tauto.
  - rewrite in_app_iff. simpl. split.
    + intros [[H|[->|[]]]|H]; tauto.
    + intros [H|[->|H]]; tauto.
Qed.

Lemma push_all_new_NoDup (l out : list A) :
  NoDup out -> NoDup (push_all_new A_dec out l).
Proof.
  unfold push_all_new. revert out.
  induction l as [|y l IH]; intros out Hnd; simpl; [exact Hnd|].
  apply IH. unfold push_new.
  destruct (includes A_dec out y) eqn:E; [exact Hnd|].
  apply includes_false in E.
  apply NoDup_app; [exact Hnd|repeat constructor; simpl; tauto|].
  intros a Ha [<-|[]]. contradiction.
Qed.

Lemma push_all_new_fresh (l out : list A) :
  NoDup (out ++ l) -> push_all_new A_dec out l = out ++ l.
Proof.
  unfold push_all_new. revert out.
  induction l as [|y l IH]; intros out Hnd; simpl.
  - now rewrite app_nil_r.
  - unfold push_new.
    destruct (includes A_dec out y) eqn:E.
    + apply includes_true in E. exfalso.
      apply NoDup_remove_2 in Hnd. apply Hnd.
      apply in_or_app. now left.
    + change (out ++ y :: l) with (out ++ [y] ++ l) in *.
      rewrite app_assoc in *. now apply IH.
Qed.

Lemma dedupe_NoDup (l : list A) : NoDup (dedupe A_dec l).
Proof. apply push_all_new_NoDup. constructor. Qed.

Lemma dedupe_In (l : list A) x : In x (dedupe A_dec l) <-> In x l.
Proof. unfold dedupe. rewrite push_all_new_In. simpl. tauto. Qed.

Lemma dedupe_id (l : list A) : NoDup l -> dedupe A_dec l = l.
Proof. intros H. unfold dedupe. now rewrite push_all_new_fresh. Qed.

End DedupeFacts.

(** ** Insertion-ordered maps *)

Section OMapFacts.

Variables K V : Type.
Variable K_dec : forall x y : K, {x = y} + {x <> y}.

Implicit Types m : omap K V.

Lemma oget_oset_eq m k v : oget K_dec (oset K_dec m k v) k = Some v.
Proof.
  induction m as [|[k' v'] m IH]; simpl.
  - destruct (K_dec k k); congruence.
  - destruct (K_dec k k') as [->|Hne]; simpl.
    + destruct (K_dec k' k'); congruence.
    + destruct (K_dec k k'); [contradiction|exact IH].
Qed.

Lemma oget_oset_ne m k k' v :
  k <> k' -> oget K_dec (oset K_dec m k v) k' = oget K_dec m k'.
Proof.
  intros Hne. induction m as [|[k0 v0] m IH]; simpl.
  - destruct (K_dec k' k); congruence.
  - destruct (K_dec k k0) as [->|Hk]; simpl.
    + destruct (K_dec k' k0); congruence.
    + destruct (K_dec k' k0); [reflexivity|exact IH].
Qed.

Lemma oget_None m k : oget K_dec m k = None <-> ~ In k (okeys m).
Proof.
  induction m as [|[k' v'] m IH]; simpl.
  - tauto.
  - destruct (K_dec k k') as [->|Hne].
    + split; [discriminate|]. intros H. exfalso. apply H. now left.
    + rewrite IH. split.
      * intros H [E|HIn]; [congruence|contradiction].
      * intros H HIn. apply H. now right.
Qed.

Lemma oget_Some_In m k v : oget K_dec m k = Some v -> In (k, v) m.
Proof.
  induction m as [|[k' v'] m IH]; simpl; [discriminate|].
  destruct (K_dec k k') as [->|Hne].
  - intros [= ->]. now left.
  - intros H. right. now apply IH.
Qed.

Lemma In_oget m k v : NoDup (okeys m) -> In (k, v) m -> oget K_dec m k = Some v.
Proof.
  induction m as [|[k' v'] m IH]; simpl; [tauto|].
  intros Hnd [E|HIn].
  - injection E as -> ->. destruct (K_dec k k); congruence.
  - inversion Hnd as [|? ? Hk' Hnd']; subst.
    destruct (K_dec k k') as [->|Hne].
    + exfalso. apply Hk'. change (In (fst (k', v)) (map fst m)).
      now apply in_map.
    + now apply IH.
Qed.

Lemma okeys_oset m k v :
  okeys (oset K_dec m k v) = push_new K_dec (okeys m) k.
Proof.
  unfold push_new, okeys.
  induction m as [|[k' v'] m IH].
  - reflexivity.
  - cbn [oset map fst].
    destruct (K_dec k k') as [->|Hne]; cbn [map fst app].
    + destruct (includes K_dec (k' :: map fst m) k') eqn:E; [reflexivity|].
      apply includes_false in E. exfalso. apply E. now left.
    + rewrite IH.
      destruct (includes K_dec (map fst m) k) eqn:E1;
        destruct (includes K_dec (k' :: map fst m) k) eqn:E2;
        try reflexivity.
      * apply includes_true in E1. apply includes_false in E2.
        exfalso. apply E2. now right.
      * apply includes_false in E1. apply includes_true in E2.
        destruct E2 as [E2|E2]; [congruence|contradiction].
Qed.

Lemma find_app_first (A : Type) (f : A -> bool) (l1 l2 : list A) :
  find f (l1 ++ l2)
  = match find f l1 with Some x => Some x | None => find f l2 end.
Proof.
  induction l1 as [|x l1 IH]; simpl; [reflexivity|].
  destruct (f x); [reflexivity|exact IH].
Qed.

(** A map built from entries returns, for a key, the value of the last
    entry with that key. *)
Lemma oget_fold_oset (entries : list (K * V)) m k :
  oget K_dec (fold_left (fun m kv => oset K_dec m (fst kv) (snd kv)) entries m) k
  = match find (fun kv => if K_dec k (fst kv) then true else false)
            (rev entries) with
    | Some kv => Some (snd kv)
    | None => oget K_dec m k
    end.
Proof.
  revert m. induction entries as [|[k' v'] entries IH]; intros m; simpl.
  - reflexivity.
  - rewrite IH, find_app_first.
    destruct (find _ (rev entries)) as [kv|]; [reflexivity|]. simpl.
    destruct (K_dec k k') as [->|Hne].
    + apply oget_oset_eq.
    + apply oget_oset_ne. congruence.
Qed.

End OMapFacts.

(** ** Counting *)

Section TallyFacts.

Variable K : Type.
Variable K_dec : forall x y : K, {x = y} + {x <> y}.

Lemma count_at_bump (m : omap K nat) k k' :
  count_at K_dec (bump K_dec m k) k'
  = count_at K_dec m k' + (if K_dec k k' then 1 else 0).
Proof.
  unfold bump, count_at at 1.
  destruct (K_dec k k') as [->|Hne].
  - now rewrite oget_oset_eq.
  - rewrite oget_oset_ne by exact Hne. fold (count_at K_dec m k'). lia.
Qed.

Lemma count_at_tally (l : list K) (m : omap K nat) k :
  count_at K_dec (fold_left (bump K_dec) l m) k
  = count_at K_dec m k + count_occ K_dec l k.
Proof.
  revert m. induction l as [|x l IH]; intros m; simpl; [lia|].
  rewrite IH, count_at_bump. destruct (K_dec x k); lia.
Qed.

Lemma okeys_tally (l : list K) (m : omap K nat) :
  okeys (fold_left (bump K_dec) l m) = push_all_new K_dec (okeys m) l.
Proof.
  unfold push_all_new. revert m.
  induction l as [|x l IH]; intros m; simpl; [reflexivity|].
  rewrite IH. f_equal. apply okeys_oset.
Qed.

(** Every entry of a tally holds the number of occurrences of its key. *)
Lemma tally_entries (l : list K) k c :
  In (k, c) (fold_left (bump K_dec) l []) -> c = count_occ K_dec l k.
Proof.
  intros HIn.
  assert (Hnd : NoDup (okeys (fold_left (bump K_dec) l []))).
  { rewrite okeys_tally. apply push_all_new_NoDup. constructor. }
  pose proof (In_oget K_dec _ _ _ Hnd HIn) as Hget.
  pose proof (count_at_tally l [] k) as Hc.
  unfold count_at in Hc at 1. rewrite Hget in Hc. simpl in Hc. exact Hc.
Qed.

End TallyFacts.

(** ** Sorting *)

Section SortFacts.

Variable A : Type.
Variable cmp : A -> A -> Z.

Lemma sort_insert_perm x (l : list A) :
  Permutation (sort_insert cmp x l) (x :: l).
Proof.
  induction l as [|y l IH]; simpl; [reflexivity|].
  destruct (0 <? cmp x y)%Z; [|reflexivity].
  rewrite IH. apply perm_swap.
Qed.

Lemma js_sort_perm (l : list A) : Permutation (js_sort cmp l) l.
Proof.
  induction l as [|x l IH]; simpl; [reflexivity|].
  rewrite sort_insert_perm. now constructor.
Qed.

Lemma js_sort_length (l : list A) :
  List.length (js_sort cmp l) = List.length l.
Proof. apply Permutation_length, js_sort_perm. Qed.

Lemma js_sort_In (l : list A) x : In x (js_sort cmp l) <-> In x l.
Proof.
  split; apply Permutation_in; [|symmetry]; apply js_sort_perm.
Qed.

Lemma js_sort_NoDup (l : list A) : NoDup l -> NoDup (js_sort cmp l).
Proof.
  intros H. eapply Permutation_NoDup; [|exact H].
  symmetry. apply js_sort_perm.
Qed.

End SortFacts.

(** A comparator that orders by decreasing rank. *)
Section SortByRank.

Variable A : Type.
Variable rank : A -> nat.
Variable cmp : A -> A -> Z.

Hypothesis cmp_pos : forall x y, (0 < cmp x y)%Z <-> rank x < rank y.
Hypothesis cmp_zero : forall x y, cmp x y = 0%Z <-> rank x = rank y.


Lemma cmp_nonpos x y : (cmp x y <= 0)%Z <-> rank y <= rank x.
Proof. pose proof (cmp_pos x y). lia. Qed.

Lemma sort_insert_sorted x (l : list A) :
  StronglySorted (above rank) l -> StronglySorted (above rank) (sort_insert cmp x l).
Proof.
  induction 1 as [|y l Hs IH Hy]; simpl.
  - repeat constructor.
  - destruct (0 <? cmp x y)%Z eqn:E.
    + apply Z.ltb_lt, cmp_pos in E. constructor; [exact IH|].
      rewrite Forall_forall in *. intros z Hz.
      apply (Permutation_in _ (sort_insert_perm cmp x l)) in Hz.
      destruct Hz as [<-|Hz]; [unfold above; lia|now apply Hy].
    + apply Z.ltb_ge, cmp_nonpos in E.
      constructor; [now constructor|].
      constructor; [exact E|].
      rewrite Forall_forall in *. intros z Hz.
      specialize (Hy z Hz). unfold above in *. lia.
Qed.

Lemma js_sort_sorted (l : list A) : StronglySorted (above rank) (js_sort cmp l).
Proof.
  induction l as [|x l IH]; simpl; [constructor|].
  now apply sort_insert_sorted.
Qed.

Lemma sort_insert_tied c x (l : list A) :
  filter (tied rank c) (sort_insert cmp x l) = filter (tied rank c) (x :: l).
Proof.
  induction l as [|y l IH]; [reflexivity|].
  cbn [sort_insert].
  destruct (0 <? cmp x y)%Z eqn:E; [|reflexivity].
  apply Z.ltb_lt, cmp_pos in E.
  cbn [filter] in *. rewrite IH. unfold tied.
  destruct (rank y =? c) eqn:Ey; [|reflexivity].
  destruct (rank x =? c) eqn:Ex; [|reflexivity].
  apply Nat.eqb_eq in Ex, Ey. lia.
Qed.

Lemma js_sort_tied c (l : list A) :
  filter (tied rank c) (js_sort cmp l) = filter (tied rank c) l.
Proof.
  induction l as [|x l IH]; [reflexivity|].
  cbn [js_sort fold_right]. fold (js_sort cmp l).
  rewrite sort_insert_tied. cbn [filter]. now rewrite IH.
Qed.

Lemma tied_cmp x (l : list A) :
  filter (fun y => (cmp x y =? 0)%Z) l = filter (tied rank (rank x)) l.
Proof.
  apply filter_ext. intros y. unfold tied.
  destruct (Z.eqb_spec (cmp x y) 0) as [E|E];
    destruct (Nat.eqb_spec (rank y) (rank x)) as [E'|E'];
    try reflexivity; rewrite cmp_zero in E; congruence.
Qed.

Lemma sorted_cmp (l : list A) :
  StronglySorted (fun a b => (cmp a b <= 0)%Z) l <-> StronglySorted (above rank) l.
Proof.
  split; induction 1 as [|y l Hs IH Hy]; constructor; try exact IH;
    rewrite Forall_forall in *; intros z Hz; specialize (Hy z Hz);
    now apply cmp_nonpos.
Qed.

(** The insertion sort honours the contract. *)
Lemma js_sort_contract (l : list A) : sort_contract cmp l (js_sort cmp l).
Proof.
  split; [symmetry; apply js_sort_perm|]. split.
  - apply sorted_cmp, js_sort_sorted.
  - intros x. rewrite !tied_cmp. apply js_sort_tied.
Qed.

(** Two sorted lists with the same elements of each rank, in the same
    order, are equal. *)
Lemma sorted_tied_unique (l1 l2 : list A) :
  StronglySorted (above rank) l1 -> StronglySorted (above rank) l2 ->
  (forall c, filter (tied rank c) l1 = filter (tied rank c) l2) ->
  l1 = l2.
Proof.
  intros S1. revert l2.
  induction S1 as [|x l1 S1 IH Hx]; intros l2 S2 F.
  - destruct l2 as [|y l2]; [reflexivity|].
    specialize (F (rank y)). cbn [filter] in F. unfold tied in F.
    rewrite Nat.eqb_refl in F. discriminate.
  - destruct l2 as [|y l2].
    + specialize (F (rank x)). cbn [filter] in F. unfold tied in F.
      rewrite Nat.eqb_refl in F. discriminate.
    + inversion S2 as [|? ? S2' Hy]; subst.
      rewrite Forall_forall in Hx, Hy.
      assert (Hxy : rank x = rank y).
      { apply Nat.le_antisymm.
        - assert (Hin : In x (filter (tied rank (rank x)) (y :: l2))).
          { rewrite <- F. cbn [filter]. unfold tied.
            rewrite Nat.eqb_refl. now left. }
          apply filter_In in Hin. destruct Hin as [[<-|Hin] _]; [lia|].
          apply (Hy _ Hin).
        - assert (Hin : In y (filter (tied rank (rank y)) (x :: l1))).
          { rewrite F. cbn [filter]. unfold tied.
            rewrite Nat.eqb_refl. now left. }
          apply filter_In in Hin. destruct Hin as [[<-|Hin] _]; [lia|].
          apply (Hx _ Hin). }
      pose proof (F (rank x)) as Fx. cbn [filter] in Fx.
      unfold tied in Fx. rewrite <- Hxy, Nat.eqb_refl in Fx.
      injection Fx as <- Fx. f_equal.
      apply IH; [exact S2'|]. intros c.
      specialize (F c). cbn [filter] in F. unfold tied in F |- *.
      destruct (rank x =? c); [now injection F|exact F].
Qed.

(** The contract leaves no freedom: it determines the sorted array. *)
Lemma sort_contract_unique (l l1 l2 : list A) :
  sort_contract cmp l l1 -> sort_contract cmp l l2 -> l1 = l2.
Proof.
  intros (_ & S1 & F1) (_ & S2 & F2).
  apply sorted_tied_unique; [now apply sorted_cmp..|].
  intros c.
  destruct (filter (tied rank c) l1) as [|x t1] eqn:E1.
  - destruct (filter (tied rank c) l2) as [|y t2] eqn:E2; [reflexivity|].
    assert (Hy : In y (filter (tied rank c) l2)) by (rewrite E2; now left).
    apply filter_In in Hy. destruct Hy as [_ Hy].
    unfold tied in Hy. apply Nat.eqb_eq in Hy. subst c.
    rewrite <- E1, <- E2, <- !tied_cmp, F1, F2. reflexivity.
  - assert (Hx : In x (filter (tied rank c) l1)) by (rewrite E1; now left).
    apply filter_In in Hx. destruct Hx as [_ Hx].
    unfold tied in Hx. apply Nat.eqb_eq in Hx. subst c.
    rewrite <- E1, <- !tied_cmp, F1, F2. reflexivity.
Qed.

End SortByRank.

(** ** Column resolution *)

Lemma toLowerCase_no_upper (k : string) : has_upper (toLowerCase k) = false.
Proof.
  induction k as [|c k IH]; simpl; [reflexivity|].
  rewrite IH, orb_false_r. unfold lower_char.
  destruct (is_upper c) eqn:E; [|exact E].
  unfold is_upper in *.
  apply andb_true_iff in E. destruct E as [E1 E2].
  apply Nat.leb_le in E1, E2.
  rewrite nat_ascii_embedding by lia.
  apply andb_false_iff. right. apply Nat.leb_gt. lia.
Qed.

Lemma matches_upper (c k : string) : has_upper c && matches c k = false.
Proof.
  destruct (has_upper c) eqn:Hc; [|reflexivity]. simpl.
  unfold matches. apply String.eqb_neq. intros E.
  rewrite <- E, toLowerCase_no_upper in Hc. discriminate.
Qed.

Lemma find_lower_entries (P : string -> bool) (ks : list string) :
  find (fun kv : string * string => P (fst kv))
    (map (fun k => (toLowerCase k, k)) ks)
  = option_map (fun k => (toLowerCase k, k))
      (find (fun k => P (toLowerCase k)) ks).
Proof.
  induction ks as [|k ks IH]; simpl; [reflexivity|].
  destruct (P (toLowerCase k)); [reflexivity|exact IH].
Qed.

(** What the map [lowerToActual] of [pickKey] answers. *)
Lemma lowerToActual_get (ks : list string) (c : string) :
  oget string_dec
    (omap_of string_dec (map (fun k => (toLowerCase k, k)) ks)) c
  = find (matches c) (rev ks).
Proof.
  unfold omap_of. rewrite oget_fold_oset, <- map_rev.
  rewrite (find_lower_entries
             (fun l => if string_dec c l then true else false)).
  assert (E : forall l,
             find (fun k => if string_dec c (toLowerCase k) then true else false) l
             = find (matches c) l).
  { intros l. induction l as [|k l IH]; simpl; [reflexivity|].
    rewrite IH. unfold matches.
    destruct (string_dec c (toLowerCase k)) as [<-|Hne].
    - now rewrite String.eqb_refl.
    - destruct (String.eqb_spec (toLowerCase k) c); [congruence|reflexivity]. }
  rewrite E. now destruct (find (matches c) (rev ks)).
Qed.

Lemma pickKey_loop_resolve (ks candidates : list string) :
  pickKey_loop (omap_of string_dec (map (fun k => (toLowerCase k, k)) ks))
    candidates
  = resolve_last_loop ks candidates.
Proof.
  induction candidates as [|c rest IH]; simpl; [reflexivity|].
  now rewrite lowerToActual_get, IH.
Qed.

Lemma find_none_iff (A : Type) (f : A -> bool) (l : list A) :
  find f l = None <-> forall x, In x l -> f x = false.
Proof.
  split; [apply find_none|].
  induction l as [|x l IH]; simpl; [reflexivity|]. intros H.
  rewrite (H x) by now left. apply IH. intros y Hy. apply H. now right.
Qed.

(** With at most one field per lower-cased name, the last match of a
    candidate is the first one. *)
Lemma find_matches_rev (c : string) (ks : list string) :
  NoDup (map toLowerCase ks) ->
  find (matches c) (rev ks) = find (matches c) ks.
Proof.
  induction ks as [|k ks IH]; simpl; [reflexivity|].
  intros Hnd. inversion Hnd as [|? ? Hk Hnd']; subst.
  rewrite find_app_first, IH by exact Hnd'. simpl.
  destruct (matches c k) eqn:E.
  - assert (Hnone : find (matches c) ks = None).
    { apply find_none_iff. intros x Hx.
      destruct (matches c x) eqn:Ex; [|reflexivity].
      unfold matches in *. apply String.eqb_eq in E, Ex.
      exfalso. apply Hk. rewrite E, <- Ex. now apply in_map. }
    now rewrite Hnone.
  - now destruct (find (matches c) ks).
Qed.

Lemma find_matches_nonempty (c k : string) (ks : list string) :
  c <> "" -> find (matches c) ks = Some k -> nonempty k = true.
Proof.
  intros Hc Hf. apply find_some in Hf. destruct Hf as [_ Hm].
  unfold matches in Hm. apply String.eqb_eq in Hm.
  destruct k; [simpl in Hm; congruence|reflexivity].
Qed.

(** The resolver agrees with the specification's wording on rows whose
    field names stay distinct in lower case, for non-empty candidates. *)
Lemma pickKey_first_when_distinct (r : row) (candidates : list string) :
  NoDup (map toLowerCase (keys r)) ->
  ~ In "" candidates ->
  pickKey (Some r) candidates = resolve_first (Some r) candidates.
Proof.
  intros Hnd Hne. unfold pickKey, resolve_first.
  rewrite pickKey_loop_resolve.
  induction candidates as [|c rest IH]; simpl; [reflexivity|].
  rewrite find_matches_rev by exact Hnd.
  assert (Hc : c <> "") by (intros ->; apply Hne; now left).
  destruct (find (matches c) (keys r)) as [k|] eqn:E.
  - now rewrite (find_matches_nonempty _ Hc E).
  - apply IH. intros H. apply Hne. now right.
Qed.



Lemma pickKey_loop_skip (m : omap string string) (c : string)
  (pre post : list string) :
  oget string_dec m c = None ->
  pickKey_loop m (pre ++ c :: post) = pickKey_loop m (pre ++ post).
Proof.
  intros Hc. induction pre as [|p pre IH]; simpl.
  - now rewrite Hc.
  - rewrite IH. reflexivity.
Qed.

(** C10.  A candidate with an upper-case letter is the lower-cased name
    of no field, so that dropping such candidates from the list changes
    no answer of [pickKey]; the heat map's year resolution is the one of
    its five lower-case candidates. *)
Theorem pickKey_uppercase_unreachable (r : option row)
  (candidates : list string) (c k : string) :
  has_upper c && matches c k = false /\
  pickKey r candidates
  = pickKey r (filter (fun c => negb (has_upper c)) candidates) /\
  pickKey r RatingYearHeatmap.yearCandidates
  = pickKey r [ "publication_year"; "published_year";
                "original_publication_year"; "year"; "publicationyear" ].
Proof.
  assert (Hdrop : forall cs,
             pickKey r cs = pickKey r (filter (fun c => negb (has_upper c)) cs)).
  { intros cs. destruct r as [r|]; [|reflexivity]. unfold pickKey.
    induction cs as [|c' cs IH]; simpl; [reflexivity|].
    destruct (has_upper c') eqn:Hu; simpl.
    - rewrite lowerToActual_get.
      assert (Hn : find (matches c') (rev (keys r)) = None).
      { apply find_none_iff. intros x _.
        pose proof (matches_upper c' x) as H. now rewrite Hu in H. }
      now rewrite Hn.
    - now rewrite IH. }
  split; [apply matches_upper|]. split; [apply Hdrop|].
  now rewrite Hdrop.
Qed.

(** ** Value coercion *)

(** [toNumber] answers a finite number or null. *)
Lemma toNumber_finite (v : value) (n : number) :
  toNumber v = Some n -> isFinite n = true.
Proof.
  unfold toNumber.
  destruct (isFinite match v with VNum n0 => n0 | _ => Number v end) eqn:E;
    [|discriminate].
  now intros [= <-].
Qed.

(** It keeps a finite number and rejects the infinities and NaN, as
    numbers and as text. *)
Lemma toNumber_number (n : number) :
  toNumber (VNum n) = if isFinite n then Some n else None.
Proof. reflexivity. Qed.

Lemma toNumber_text_samples :
  toNumber (VStr "3.75") = Some (decimal 375 2) /\
  toNumber (VStr " 1e3 ") = Some (of_Z 1000) /\
  toNumber (VStr "Infinity") = None /\
  toNumber (VStr "-Infinity") = None /\
  toNumber (VStr "NaN") = None /\
  toNumber (VStr "n/a") = None /\
  toNumber VUndefined = None.
Proof. repeat split; vm_compute; reflexivity. Qed.

(** C4 (the code at the failing inputs).  A cell that holds no number
    at all, null (what the loader makes of an empty cell), the empty
    string or blank text, comes out as the number zero, and [false] as
    well; [isFiniteNumber] rejects all of them. *)
Theorem toNumber_null_is_zero :
  toNumber VNull = Some pzero /\
  toNumber (VStr "") = Some pzero /\
  toNumber (VStr "   ") = Some pzero /\
  toNumber (VBool false) = Some pzero /\
  isFiniteNumber VNull = false /\
  isFiniteNumber (VStr "") = false.
Proof. repeat split; vm_compute; reflexivity. Qed.

(** ** Genre ranking *)

Lemma fold_left_flat_map (A B C : Type) (f : A -> C -> A) (g : B -> list C)
  (l : list B) (a : A) :
  fold_left f (flat_map g l) a = fold_left (fun a x => fold_left f (g x) a) l a.
Proof.
  revert a. induction l as [|x l IH]; intros a; simpl; [reflexivity|].
  now rewrite fold_left_app, IH.
Qed.

Lemma by_count_desc_pos (x y : GenreBarChart.entry) :
  (0 < GenreBarChart.by_count_desc x y)%Z
  <-> GenreBarChart.count x < GenreBarChart.count y.
Proof.
  unfold GenreBarChart.by_count_desc, descending_count.
  destruct (Nat.ltb_spec (GenreBarChart.count y) (GenreBarChart.count x));
    destruct (Nat.ltb_spec (GenreBarChart.count x) (GenreBarChart.count y));
    lia.
Qed.

Lemma by_count_desc_zero (x y : GenreBarChart.entry) :
  GenreBarChart.by_count_desc x y = 0%Z
  <-> GenreBarChart.count x = GenreBarChart.count y.
Proof.
  unfold GenreBarChart.by_count_desc, descending_count.
  destruct (Nat.ltb_spec (GenreBarChart.count y) (GenreBarChart.count x));
    destruct (Nat.ltb_spec (GenreBarChart.count x) (GenreBarChart.count y));
    lia.
Qed.

Section GenreFacts.

Context {engine : Engine}.

Lemma aggregateGenres_counted (rows : list row) (topN : nat) :
  GenreBarChart.aggregateGenres rows topN
  = firstn topN (js_sort GenreBarChart.by_count_desc (counted rows)).
Proof.
  unfold GenreBarChart.aggregateGenres, counted, genreKey_of.
  destruct rows as [|row0 rows]; [now destruct topN|].
  destruct (GenreBarChart.normalizeGenreKey (Some row0)) as [k|];
    [|now destruct topN].
  destruct (nonempty k); [reflexivity|now destruct topN].
Qed.

(** The counting map is the tally of the genre mentions. *)
Lemma count_rows_tally (genreKey : string) (rows : list row) :
  GenreBarChart.count_rows genreKey rows
  = fold_left (bump string_dec)
      (flat_map
         (fun r =>
            let raw := prop r genreKey in
            if truthy raw then GenreBarChart.parts_of raw else [])
         rows)
      [].
Proof.
  unfold GenreBarChart.count_rows. rewrite fold_left_flat_map.
  generalize (@nil (string * nat)) as m.
  induction rows as [|r rows IH]; intros m; simpl; [reflexivity|].
  rewrite IH. now destruct (truthy (prop r genreKey)).
Qed.

Lemma counted_tally (rows : list row) :
  counted rows
  = map (fun gc => {| GenreBarChart.genre := fst gc;
                      GenreBarChart.count := snd gc |})
      (fold_left (bump string_dec) (tokens rows) []).
Proof.
  unfold counted, tokens. destruct (genreKey_of rows) as [k|]; [|reflexivity].
  now rewrite count_rows_tally.
Qed.

Lemma counted_genres (rows : list row) :
  map GenreBarChart.genre (counted rows) = dedupe string_dec (tokens rows).
Proof.
  rewrite counted_tally, map_map. simpl.
  change (map (fun x : string * nat => fst x)
            (fold_left (bump string_dec) (tokens rows) []))
    with (okeys (fold_left (bump string_dec) (tokens rows) [])).
  now rewrite okeys_tally.
Qed.

Lemma counted_counts (rows : list row) (e : GenreBarChart.entry) :
  In e (counted rows) ->
  GenreBarChart.count e
  = count_occ string_dec (tokens rows) (GenreBarChart.genre e).
Proof.
  rewrite counted_tally, in_map_iff. intros ([g c] & <- & HIn). simpl.
  now apply tally_entries in HIn.
Qed.

(** C3.  The records are made in the order in which the genres are
    first met, each with the number of its mentions; the result is the
    first [topN] of them (all of them when there are fewer) once they
    are put in decreasing order of count, the genres of equal count
    staying in the order in which they were first met.  On the rows
    "Fantasy, Drama", "Drama", "Fantasy" with [topN = 2] the result is
    Fantasy 2, Drama 2. *)
Theorem aggregateGenres_ranked (rows : list row) (topN : nat) :
  let out := GenreBarChart.aggregateGenres rows topN in
  let full := GenreBarChart.aggregateGenres rows (List.length (counted rows)) in
  map GenreBarChart.genre (counted rows) = dedupe string_dec (tokens rows) /\
  (forall e, In e (counted rows) ->
     GenreBarChart.count e
     = count_occ string_dec (tokens rows) (GenreBarChart.genre e)) /\
  Permutation (counted rows) full /\
  StronglySorted
    (fun a b => GenreBarChart.count b <= GenreBarChart.count a) full /\
  (forall c,
     filter (fun e => GenreBarChart.count e =? c) full
     = filter (fun e => GenreBarChart.count e =? c) (counted rows)) /\
  out = firstn topN full /\
  List.length out = Nat.min topN (List.length (counted rows)) /\
  GenreBarChart.aggregateGenres
    [ [("genre", VStr "Fantasy, Drama")];
      [("genre", VStr "Drama")];
      [("genre", VStr "Fantasy")] ] 2
  = [ {| GenreBarChart.genre := "Fantasy"; GenreBarChart.count := 2 |};
      {| GenreBarChart.genre := "Drama"; GenreBarChart.count := 2 |} ].
Proof.
  intros out full.
  assert (Hfull : full = js_sort GenreBarChart.by_count_desc (counted rows)).
  { unfold full. rewrite aggregateGenres_counted.
    rewrite <- (js_sort_length GenreBarChart.by_count_desc (counted rows)).
    apply firstn_all. }
  split; [apply counted_genres|].
  split; [apply counted_counts|].
  rewrite Hfull.
  split; [symmetry; apply js_sort_perm|].
  split; [apply (@js_sort_sorted _ GenreBarChart.count _ by_count_desc_pos)|].
  split; [intros c; apply (@js_sort_tied _ GenreBarChart.count _ by_count_desc_pos)|].
  split; [apply aggregateGenres_counted|].
  split; [|reflexivity].
  unfold out. rewrite aggregateGenres_counted, length_firstn, js_sort_length.
  reflexivity.
Qed.

(** Whatever conforming [sort] the engine has, a run ends with the
    result of the model. *)
Lemma aggregates_aggregateGenres (rows : list row) (topN : nat) :
  aggregates rows topN (GenreBarChart.aggregateGenres rows topN).
Proof.
  exists (js_sort GenreBarChart.by_count_desc (counted rows)).
  split; [|apply aggregateGenres_counted].
  apply (@js_sort_contract _ GenreBarChart.count _ by_count_desc_pos by_count_desc_zero).
Qed.

(** C8.  Two runs of the aggregator on the same rows and the same
    [topN] end with the same records in the same order, whichever way
    the engine sorts within its contract; that result is the one of
    [aggregateGenres]. *)
Theorem aggregateGenres_deterministic (rows : list row) (topN : nat)
  (out1 out2 : list GenreBarChart.entry) :
  aggregates rows topN out1 ->
  aggregates rows topN out2 ->
  out1 = out2 /\ out1 = GenreBarChart.aggregateGenres rows topN.
Proof.
  intros (s1 & C1 & ->) (s2 & C2 & ->).
  pose proof (@sort_contract_unique _ GenreBarChart.count _
                by_count_desc_pos by_count_desc_zero _ _ _ C1 C2) as E12.
  pose proof (@sort_contract_unique _ GenreBarChart.count _
                by_count_desc_pos by_count_desc_zero _ _ _ C1
                (@js_sort_contract _ GenreBarChart.count _
                   by_count_desc_pos by_count_desc_zero (counted rows)))
    as E1.
  split; [now rewrite E12|].
  now rewrite aggregateGenres_counted, E1.
Qed.

End GenreFacts.

Lemma aggregateGenres_deterministic_witness :
  let rows :=
    [ [("genre", VStr "Fantasy, Drama")];
      [("genre", VStr "Drama")];
      [("genre", VStr "Fantasy")] ] in
  let out :=
    [ {| GenreBarChart.genre := "Fantasy"; GenreBarChart.count := 2 |};
      {| GenreBarChart.genre := "Drama"; GenreBarChart.count := 2 |} ] in
  aggregates (engine := sample_engine) rows 2 out /\
  (out = out /\
   out = GenreBarChart.aggregateGenres (engine := sample_engine) rows 2).
Proof.
  intros rows out.
  assert (H : aggregates (engine := sample_engine) rows 2 out)
    by exact (aggregates_aggregateGenres (engine := sample_engine) rows 2).
  split; [exact H|].
  exact (aggregateGenres_deterministic (engine := sample_engine) H H).
Defined.

(** ** The heat-map grid *)

Lemma NoDup_list_prod (A B : Type) (l : list A) (l' : list B) :
  NoDup l -> NoDup l' -> NoDup (list_prod l l').
Proof.
  intros Hl Hl'. induction Hl as [|x l Hx Hl IH]; simpl; [constructor|].
  apply NoDup_app.
  - clear IH. induction Hl' as [|y l' Hy Hl' IH]; simpl; constructor.
    + intros Hin. apply in_map_iff in Hin. destruct Hin as (y' & E & Hin).
      injection E as <-. contradiction.
    + exact IH.
  - exact IH.
  - intros [a b] Ha Hb. apply in_map_iff in Ha. destruct Ha as (y & E & _).
    injection E as <- <-. apply in_prod_iff in Hb. now destruct Hb.
Qed.

Lemma count_occ_map_filter (A K : Type)
  (K_dec : forall x y : K, {x = y} + {x <> y}) (f : A -> K)
  (l : list A) (k : K) :
  count_occ K_dec (map f l) k
  = List.length (filter (fun a => if K_dec (f a) k then true else false) l).
Proof.
  induction l as [|a l IH]; simpl; [reflexivity|].
  destruct (K_dec (f a) k); simpl; now rewrite IH.
Qed.

Lemma fold_left_map (A B C : Type) (f : A -> C -> A) (g : B -> C)
  (l : list B) (a : A) :
  fold_left f (map g l) a = fold_left (fun a x => f a (g x)) l a.
Proof.
  revert a. induction l as [|x l IH]; intros a; simpl; [reflexivity|].
  apply IH.
Qed.

Lemma fill_row_data (counts : omap (number * number) nat) (dec : number)
  (bins : list number) (st : list RatingYearHeatmap.cell * nat) :
  fst (RatingYearHeatmap.fill_row counts dec bins st)
  = fst st ++ map (grid_cell counts dec) bins.
Proof.
  unfold RatingYearHeatmap.fill_row. revert st.
  induction bins as [|bin bins IH]; intros [data maxCount]; simpl.
  - now rewrite app_nil_r.
  - rewrite IH. simpl. rewrite <- app_assoc. reflexivity.
Qed.

(** The grid loop visits the decades in order and, for each, the rating
    bins in order. *)
Lemma fill_grid_data (decs bins : list number)
  (counts : omap (number * number) nat) :
  fst (RatingYearHeatmap.fill_grid decs bins counts)
  = flat_map (fun dec => map (grid_cell counts dec) bins) decs.
Proof.
  unfold RatingYearHeatmap.fill_grid.
  change (flat_map (fun dec => map (grid_cell counts dec) bins) decs)
    with (fst (@nil RatingYearHeatmap.cell, 0)
          ++ flat_map (fun dec => map (grid_cell counts dec) bins) decs).
  generalize (@nil RatingYearHeatmap.cell, 0) as st.
  induction decs as [|dec decs IH]; intros st; simpl.
  - now rewrite app_nil_r.
  - rewrite IH, fill_row_data, <- app_assoc. reflexivity.
Qed.

Lemma grid_keys (decs bins : list number)
  (counts : omap (number * number) nat) :
  map cell_key (flat_map (fun dec => map (grid_cell counts dec) bins) decs)
  = list_prod decs bins.
Proof.
  induction decs as [|dec decs IH]; simpl; [reflexivity|].
  rewrite map_app, IH, map_map. reflexivity.
Qed.

Lemma count_items_at (items : list RatingYearHeatmap.item) (dec bin : number) :
  count_at RatingYearHeatmap.key_dec (RatingYearHeatmap.count_items items)
    (RatingYearHeatmap.key_of dec bin)
  = observed items dec bin.
Proof.
  unfold RatingYearHeatmap.count_items, observed.
  rewrite <- (fold_left_map (bump RatingYearHeatmap.key_dec)
                (fun d => RatingYearHeatmap.key_of
                            (RatingYearHeatmap.decade d)
                            (RatingYearHeatmap.ratingBin d))).
  rewrite count_at_tally. unfold count_at. simpl.
  apply count_occ_map_filter.
Qed.

Lemma norm0_idem (x : number) : norm0 (norm0 x) = norm0 x.
Proof. now destruct x. Qed.

Lemma norm0_notNaN (x : number) : isNaN (norm0 x) = isNaN x.
Proof. now destruct x. Qed.

Lemma distinct_In (l : list number) (x : number) :
  In x (RatingYearHeatmap.distinct l) <-> exists y, In y l /\ x = norm0 y.
Proof.
  unfold RatingYearHeatmap.distinct. rewrite dedupe_In, in_map_iff.
  split; intros (y & H1 & H2); exists y; auto.
Qed.

Lemma same_number_norm0 (a b : number) :
  same_number a b = true <-> norm0 a = norm0 b.
Proof.
  destruct a as [sa|sa| |sa ma ea], b as [sb|sb| |sb mb eb];
    cbn [same_number norm0]; unfold Num.eqb;
    try (destruct (Num.eq_dec _ _) as [E|E]);
    split; intros H; try reflexivity; try discriminate; try congruence.
Qed.

Lemma same_number_refl (a : number) : same_number a a = true.
Proof. now apply same_number_norm0. Qed.

(** The reading of a cell in the counting map is the number of items
    that fall into the cell. *)
Lemma observed_falls_into (items : list RatingYearHeatmap.item)
  (dec bin : number) :
  observed items dec bin
  = List.length (filter (falls_into dec bin) items).
Proof.
  unfold observed. f_equal. apply filter_ext. intros i.
  unfold falls_into, RatingYearHeatmap.key_of.
  destruct (RatingYearHeatmap.key_dec _ _) as [E|E].
  - injection E as E1 E2. symmetry. apply andb_true_iff.
    split; now apply same_number_norm0.
  - symmetry. apply not_true_is_false. intros H.
    apply andb_true_iff in H. destruct H as [H1 H2].
    apply same_number_norm0 in H1, H2. apply E. congruence.
Qed.

Lemma distinct_NoDup (l : list number) : NoDup (RatingYearHeatmap.distinct l).
Proof. apply dedupe_NoDup. Qed.

Section HeatmapFacts.

Context {engine : Engine}.

(** [prepared] is the grid of the items, also when it returns early. *)
Lemma prepared_of_items (minYear maxYear : value) (rows : list row) :
  let items := RatingYearHeatmap.items_of minYear maxYear rows in
  let decs :=
    js_sort RatingYearHeatmap.ascending
      (RatingYearHeatmap.distinct (map RatingYearHeatmap.decade items)) in
  let bins :=
    js_sort RatingYearHeatmap.ascending
      (RatingYearHeatmap.distinct (map RatingYearHeatmap.ratingBin items)) in
  let p := RatingYearHeatmap.prepared minYear maxYear rows in
  RatingYearHeatmap.decades p = decs /\
  RatingYearHeatmap.ratingBins p = bins /\
  RatingYearHeatmap.data p
  = fst (RatingYearHeatmap.fill_grid decs bins
           (RatingYearHeatmap.count_items items)).
Proof.
  unfold RatingYearHeatmap.prepared, RatingYearHeatmap.items_of.
  destruct rows as [|row0 rows]; [now repeat split|].
  destruct (pickKey (Some row0) RatingYearHeatmap.yearCandidates)
    as [yearKey|]; [|now repeat split].
  destruct (pickKey (Some row0) RatingYearHeatmap.ratingCandidates)
    as [ratingKey|]; [|now repeat split].
  destruct (negb (nonempty yearKey) || negb (nonempty ratingKey));
    [now repeat split|].
  cbv zeta.
  destruct (RatingYearHeatmap.fill_grid _ _ _) as [data maxCount].
  now repeat split.
Qed.

(** C2.  The grid holds one cell for every pair of an observed decade
    and an observed rating bucket, decade by decade.  The decades of
    the grid are the decades of the filtered rows: each of these is
    listed, each listed one is the decade of a filtered row, and none
    is listed twice; likewise the rating buckets.  The keys of the grid
    are the product of the two lists, none twice, its size is the
    product of their sizes, and the count of a cell is the number of
    filtered rows that fall into it, zero when none does. *)
Theorem prepared_dense_grid (minYear maxYear : value) (rows : list row) :
  let p := RatingYearHeatmap.prepared minYear maxYear rows in
  let items := RatingYearHeatmap.items_of minYear maxYear rows in
  let decs := RatingYearHeatmap.distinct (map RatingYearHeatmap.decade items) in
  let bins :=
    RatingYearHeatmap.distinct (map RatingYearHeatmap.ratingBin items) in
  (Permutation (RatingYearHeatmap.decades p) decs /\
   Permutation (RatingYearHeatmap.ratingBins p) bins /\
   NoDup decs /\ NoDup bins /\
   map cell_key (RatingYearHeatmap.data p)
   = list_prod (RatingYearHeatmap.decades p) (RatingYearHeatmap.ratingBins p) /\
   NoDup (map cell_key (RatingYearHeatmap.data p)) /\
   List.length (RatingYearHeatmap.data p)
   = List.length decs * List.length bins /\
   (forall c, In c (RatingYearHeatmap.data p) ->
      RatingYearHeatmap.count c
      = observed items (RatingYearHeatmap.cell_decade c)
          (RatingYearHeatmap.cell_ratingBin c)) /\
   (forall dec bin, In dec decs -> In bin bins ->
      exists c, In c (RatingYearHeatmap.data p) /\ cell_key c = (dec, bin))) /\
  (forall i, In i items ->
     (exists dec, In dec (RatingYearHeatmap.decades p) /\
                  same_number (RatingYearHeatmap.decade i) dec = true) /\
     (exists bin, In bin (RatingYearHeatmap.ratingBins p) /\
                  same_number (RatingYearHeatmap.ratingBin i) bin = true)) /\
  (forall dec, In dec (RatingYearHeatmap.decades p) ->
     exists i, In i items /\
               same_number (RatingYearHeatmap.decade i) dec = true) /\
  (forall bin, In bin (RatingYearHeatmap.ratingBins p) ->
     exists i, In i items /\
               same_number (RatingYearHeatmap.ratingBin i) bin = true) /\
  NoDup (RatingYearHeatmap.decades p) /\
  NoDup (RatingYearHeatmap.ratingBins p) /\
  (forall a b, In a (RatingYearHeatmap.decades p) ->
     In b (RatingYearHeatmap.decades p) -> same_number a b = true -> a = b) /\
  (forall a b, In a (RatingYearHeatmap.ratingBins p) ->
     In b (RatingYearHeatmap.ratingBins p) ->
     same_number a b = true -> a = b) /\
  List.length (RatingYearHeatmap.data p)
  = List.length (RatingYearHeatmap.decades p)
    * List.length (RatingYearHeatmap.ratingBins p) /\
  (forall dec bin, In dec (RatingYearHeatmap.decades p) ->
     In bin (RatingYearHeatmap.ratingBins p) ->
     exists c, In c (RatingYearHeatmap.data p) /\ cell_key c = (dec, bin)) /\
  (forall c, In c (RatingYearHeatmap.data p) ->
     RatingYearHeatmap.count c
     = List.length
         (filter
            (falls_into (RatingYearHeatmap.cell_decade c)
               (RatingYearHeatmap.cell_ratingBin c))
            items)) /\
  (forall c, In c (RatingYearHeatmap.data p) ->
     (forall i, In i items ->
        falls_into (RatingYearHeatmap.cell_decade c)
          (RatingYearHeatmap.cell_ratingBin c) i = false) ->
     RatingYearHeatmap.count c = 0).
Proof.
  intros p items decs bins.
  assert (Hold :
    Permutation (RatingYearHeatmap.decades p) decs /\
    Permutation (RatingYearHeatmap.ratingBins p) bins /\
    NoDup decs /\ NoDup bins /\
    map cell_key (RatingYearHeatmap.data p)
    = list_prod (RatingYearHeatmap.decades p)
        (RatingYearHeatmap.ratingBins p) /\
    NoDup (map cell_key (RatingYearHeatmap.data p)) /\
    List.length (RatingYearHeatmap.data p)
    = List.length decs * List.length bins /\
    (forall c, In c (RatingYearHeatmap.data p) ->
       RatingYearHeatmap.count c
       = observed items (RatingYearHeatmap.cell_decade c)
           (RatingYearHeatmap.cell_ratingBin c)) /\
    (forall dec bin, In dec decs -> In bin bins ->
       exists c, In c (RatingYearHeatmap.data p) /\
                 cell_key c = (dec, bin))).
  {
    destruct (prepared_of_items minYear maxYear rows) as (Hd & Hb & Hdata).
    fold p items decs bins in Hd, Hb, Hdata.
    rewrite fill_grid_data in Hdata.
    assert (Hkeys : map cell_key (RatingYearHeatmap.data p)
                    = list_prod (RatingYearHeatmap.decades p)
                        (RatingYearHeatmap.ratingBins p)).
    { rewrite Hdata, grid_keys, Hd, Hb. reflexivity. }
    assert (Pd : Permutation (RatingYearHeatmap.decades p) decs)
      by (rewrite Hd; apply js_sort_perm).
    assert (Pb : Permutation (RatingYearHeatmap.ratingBins p) bins)
      by (rewrite Hb; apply js_sort_perm).
    split; [exact Pd|]. split; [exact Pb|].
    split; [apply distinct_NoDup|]. split; [apply distinct_NoDup|].
    split; [exact Hkeys|].
    split.
    { rewrite Hkeys. apply NoDup_list_prod.
      - rewrite Hd. apply js_sort_NoDup, distinct_NoDup.
      - rewrite Hb. apply js_sort_NoDup, distinct_NoDup. }
    split.
    { rewrite <- (length_map cell_key), Hkeys, length_prod.
      now rewrite (Permutation_length Pd), (Permutation_length Pb). }
    split.
    { intros c Hc. rewrite Hdata in Hc. apply in_flat_map in Hc.
      destruct Hc as (dec & _ & Hc). apply in_map_iff in Hc.
      destruct Hc as (bin & <- & _). simpl. apply count_items_at. }
    intros dec bin Hdec Hbin.
    assert (Hin : In (dec, bin) (map cell_key (RatingYearHeatmap.data p))).
    { rewrite Hkeys. apply in_prod.
      - now apply (Permutation_in _ (Permutation_sym Pd)).
      - now apply (Permutation_in _ (Permutation_sym Pb)). }
    apply in_map_iff in Hin. destruct Hin as (c & E & Hc). now exists c.
  }
  split; [exact Hold|].
  destruct Hold as (Pd & Pb & Nd & Nb & Hkeys & Nk & Hlen & Hcount & Hcell).
  assert (Hnorm : forall l x,
            In x (RatingYearHeatmap.distinct l) -> norm0 x = x).
  { intros l x Hx. apply distinct_In in Hx.
    destruct Hx as (y & _ & ->). apply norm0_idem. }
  assert (Hlisted : forall (f : RatingYearHeatmap.item -> number) axis,
            Permutation axis (RatingYearHeatmap.distinct (map f items)) ->
            (forall i, In i items ->
               exists x, In x axis /\ same_number (f i) x = true) /\
            (forall x, In x axis ->
               exists i, In i items /\ same_number (f i) x = true) /\
            NoDup axis /\
            (forall a b, In a axis -> In b axis ->
               same_number a b = true -> a = b)).
  { intros f axis Hp. repeat split.
    - intros i Hi. exists (norm0 (f i)). split.
      + apply (Permutation_in _ (Permutation_sym Hp)).
        apply distinct_In. exists (f i). split; [now apply in_map|reflexivity].
      + apply same_number_norm0. now rewrite norm0_idem.
    - intros x Hx. apply (Permutation_in _ Hp) in Hx.
      apply distinct_In in Hx. destruct Hx as (y & Hy & ->).
      apply in_map_iff in Hy. destruct Hy as (i & <- & Hi).
      exists i. split; [exact Hi|].
      apply same_number_norm0. now rewrite norm0_idem.
    - apply (Permutation_NoDup (Permutation_sym Hp)), distinct_NoDup.
    - intros a b Ha Hb Hab.
      apply (Permutation_in _ Hp) in Ha. apply (Permutation_in _ Hp) in Hb.
      apply same_number_norm0 in Hab.
      now rewrite (Hnorm _ _ Ha), (Hnorm _ _ Hb) in Hab. }
  destruct (Hlisted RatingYearHeatmap.decade _ Pd) as (D1 & D2 & D3 & D4).
  destruct (Hlisted RatingYearHeatmap.ratingBin _ Pb) as (B1 & B2 & B3 & B4).
  split; [intros i Hi; split; [now apply D1|now apply B1]|].
  split; [exact D2|]. split; [exact B2|].
  split; [exact D3|]. split; [exact B3|].
  split; [exact D4|]. split; [exact B4|].
  split; [now rewrite Hlen, (Permutation_length Pd), (Permutation_length Pb)|].
  split.
  { intros dec bin Hdec Hbin. apply Hcell.
    - now apply (Permutation_in _ Pd).
    - now apply (Permutation_in _ Pb). }
  assert (Hfall : forall c, In c (RatingYearHeatmap.data p) ->
            RatingYearHeatmap.count c
            = List.length
                (filter
                   (falls_into (RatingYearHeatmap.cell_decade c)
                      (RatingYearHeatmap.cell_ratingBin c))
                   items)).
  { intros c Hc. rewrite (Hcount c Hc). apply observed_falls_into. }
  split; [exact Hfall|].
  intros c Hc Hnone. rewrite (Hfall c Hc).
  assert (Hzero : forall (f : RatingYearHeatmap.item -> bool) l,
            (forall i, In i l -> f i = false) ->
            List.length (filter f l) = 0).
  { intros f l. induction l as [|i l IH]; intros Hf; [reflexivity|].
    simpl. rewrite (Hf i (or_introl eq_refl)).
    apply IH. intros j Hj. apply Hf. now right. }
  now apply Hzero.
Qed.

End HeatmapFacts.

(** ** Dimension selection *)

Lemma NoDup_firstn_prefix (A : Type) (n : nat) (l : list A) :
  NoDup l -> NoDup (firstn n l).
Proof.
  intros H. rewrite <- (firstn_skipn n l) in H.
  now apply NoDup_app_remove_r in H.
Qed.

Lemma In_firstn (A : Type) (n : nat) (l : list A) (x : A) :
  In x (firstn n l) -> In x l.
Proof.
  intros H. rewrite <- (firstn_skipn n l). apply in_or_app. now left.
Qed.

Lemma NoDup_map_filter (A B : Type) (f : A -> B) (P : A -> bool)
  (l : list A) :
  NoDup (map f l) -> NoDup (map f (filter P l)).
Proof.
  induction l as [|x l IH]; simpl; [trivial|].
  intros H. inversion H as [|? ? Hx Hl]; subst.
  destruct (P x); simpl; [|now apply IH].
  constructor; [|now apply IH].
  intros Hin. apply Hx. apply in_map_iff in Hin.
  destruct Hin as (y & E & Hy). apply filter_In in Hy.
  rewrite <- E. apply in_map. tauto.
Qed.

Lemma stats_keys (rows : list row) (row0 : row) :
  NoDup (map ParallelCoords.key (ParallelCoords.stats rows row0)).
Proof.
  unfold ParallelCoords.stats.
  do 2 apply NoDup_map_filter.
  rewrite map_map. simpl. rewrite map_id.
  unfold ParallelCoords.numericCandidates.
  do 2 apply NoDup_filter. apply dedupe_NoDup.
Qed.

Lemma pick_alias_In (keySet group : list string) (k : string) :
  ParallelCoords.pick_alias keySet group = Some k -> In k keySet.
Proof.
  induction group as [|alias rest IH]; simpl; [discriminate|].
  destruct (find _ keySet) as [actual|] eqn:E; [|exact IH].
  destruct (nonempty actual); [|exact IH].
  intros [= <-]. now apply find_some in E.
Qed.

Lemma preferred_In (keySet : list string) (k : string) :
  In k (ParallelCoords.preferred keySet) -> In k keySet.
Proof.
  unfold ParallelCoords.preferred.
  assert (H : forall groups acc,
             (forall x, In x acc -> In x keySet) ->
             In k (fold_left
                     (fun preferred group =>
                        match ParallelCoords.pick_alias keySet group with
                        | Some actual => preferred ++ [actual]
                        | None => preferred
                        end) groups acc) ->
             In k keySet).
  { induction groups as [|g groups IH]; intros acc Hacc; simpl.
    - apply Hacc.
    - apply IH. destruct (ParallelCoords.pick_alias keySet g) as [a|] eqn:E;
        [|exact Hacc].
      intros x Hx. apply in_app_or in Hx. destruct Hx as [Hx|[<-|[]]].
      + now apply Hacc.
      + now apply pick_alias_In in E. }
  apply H. intros x [].
Qed.

(** The combined ordering lists every surviving candidate once. *)
Lemma combined_In (st : list ParallelCoords.stat) (k : string) :
  In k (ParallelCoords.combined st) <-> In k (map ParallelCoords.key st).
Proof.
  unfold ParallelCoords.combined, ParallelCoords.byVar.
  rewrite !push_all_new_In. simpl. split.
  - intros [[[]|H]|H].
    + apply preferred_In in H. now apply dedupe_In in H.
    + apply in_map_iff in H. destruct H as (s & <- & H).
      apply in_map. now apply js_sort_In in H.
  - intros H. right. apply in_map_iff in H. destruct H as (s & <- & H).
    apply in_map. now apply js_sort_In.
Qed.

Lemma combined_NoDup (st : list ParallelCoords.stat) :
  NoDup (ParallelCoords.combined st).
Proof.
  unfold ParallelCoords.combined.
  apply push_all_new_NoDup, push_all_new_NoDup. constructor.
Qed.

Lemma combined_length (st : list ParallelCoords.stat) :
  NoDup (map ParallelCoords.key st) ->
  List.length (ParallelCoords.combined st) = List.length st.
Proof.
  intros H. rewrite <- (length_map ParallelCoords.key st).
  apply Permutation_length, NoDup_Permutation;
    [apply combined_NoDup|exact H|apply combined_In].
Qed.

Lemma combined_nonempty (st : list ParallelCoords.stat) :
  st <> [] -> 1 <= List.length (ParallelCoords.combined st).
Proof.
  destruct st as [|s st]; [congruence|]. intros _.
  assert (H : In (ParallelCoords.key s) (ParallelCoords.combined (s :: st))).
  { apply combined_In. now left. }
  destruct (ParallelCoords.combined (s :: st)); [destruct H|simpl; lia].
Qed.

(** The selection is a prefix of the combined ordering. *)
Lemma select_prefix (maxDims minDims : nat) (c : list string) :
  exists k, ParallelCoords.select maxDims minDims c = firstn k c.
Proof.
  unfold ParallelCoords.select.
  destruct (_ <? minDims); [eexists; reflexivity|].
  destruct (maxDims <? _); [|eexists; reflexivity].
  rewrite firstn_firstn. eexists; reflexivity.
Qed.

Lemma select_length (maxDims minDims : nat) (c : list string) :
  List.length (ParallelCoords.select maxDims minDims c)
  = let n := List.length c in
    let d := Nat.min (Nat.max 1 (Nat.min maxDims n)) n in
    let d := if maxDims <? d then Nat.min maxDims d else d in
    if d <? minDims then Nat.min minDims n else d.
Proof.
  unfold ParallelCoords.select. cbv zeta.
  rewrite !length_firstn.
  destruct (maxDims <? _) eqn:E1; rewrite ?length_firstn;
    destruct (_ <? minDims) eqn:E2; rewrite ?length_firstn; try reflexivity;
    lia.
Qed.

Lemma select_NoDup (maxDims minDims : nat) (st : list ParallelCoords.stat) :
  NoDup (ParallelCoords.select maxDims minDims (ParallelCoords.combined st)).
Proof.
  destruct (select_prefix maxDims minDims (ParallelCoords.combined st))
    as [k ->].
  apply NoDup_firstn_prefix, combined_NoDup.
Qed.

Section ParallelCoordsFacts.

Context {engine : Engine}.

(** The dimensions [prepared] returns are the selection it projects on. *)
Lemma prepared_dims (maxDims minDims maxLines : nat) (rows : list row) :
  ParallelCoords.dims (ParallelCoords.prepared maxDims minDims maxLines rows)
  = match rows with
    | [] => []
    | _ :: _ =>
        ParallelCoords.select maxDims minDims
          (ParallelCoords.combined (survivors rows))
    end.
Proof.
  destruct rows as [|row0 rows]; [reflexivity|]. simpl.
  apply dedupe_id, select_NoDup.
Qed.

(** C1.  For every data set and every configuration with
    [minDims <= maxDims], the number of selected dimensions is at least
    the smaller of [minDims] and the number of surviving candidates, at
    most [maxDims], and at most the number of surviving candidates. *)
Theorem selected_dims_bounds (maxDims minDims maxLines : nat)
  (rows : list row) :
  minDims <= maxDims ->
  let d :=
    List.length
      (ParallelCoords.dims
         (ParallelCoords.prepared maxDims minDims maxLines rows)) in
  let n := List.length (survivors rows) in
  Nat.min minDims n <= d /\ d <= maxDims /\ d <= n.
Proof.
  intros Hcfg d n. unfold d, n. clear d n. rewrite prepared_dims.
  destruct rows as [|row0 rows]; [simpl; lia|].
  rewrite select_length, combined_length.
  - cbv zeta. generalize (List.length (ParallelCoords.stats (row0 :: rows) row0)).
    intros n.
    repeat match goal with
           | |- context [?a <? ?b] => destruct (Nat.ltb_spec a b)
           end; lia.
  - apply stats_keys.
Qed.

(** C9 (as the code has it).  When a numeric candidate survives, a
    dimension is selected exactly when [maxDims] or [minDims] is at
    least one: the cut to [maxDims] comes after the clamp to one, and
    only the refill up to [minDims] can restore a dimension. *)
Theorem selects_one_unless_zero (maxDims minDims maxLines : nat)
  (rows : list row) :
  survivors rows <> [] ->
  1 <= List.length
         (ParallelCoords.dims
            (ParallelCoords.prepared maxDims minDims maxLines rows))
  <-> 1 <= maxDims \/ 1 <= minDims.
Proof.
  intros Hs. rewrite prepared_dims.
  destruct rows as [|row0 rows]; [now destruct Hs|].
  pose proof (combined_nonempty Hs) as Hn.
  rewrite select_length. cbv zeta. revert Hn.
  generalize (List.length (ParallelCoords.combined (survivors (row0 :: rows)))).
  intros n Hn.
  repeat match goal with
         | |- context [?a <? ?b] => destruct (Nat.ltb_spec a b)
         end; lia.
Qed.

End ParallelCoordsFacts.

Lemma selected_dims_bounds_witness :
  let rows :=
    [ [("title", VStr "a"); ("pages", VNum (of_Z 100)); ("year", VNum (of_Z 1999))];
      [("title", VStr "b"); ("pages", VNum (of_Z 250)); ("year", VNum (of_Z 2004))] ] in
  1 <= 2 /\
  let d :=
    List.length
      (ParallelCoords.dims
         (ParallelCoords.prepared (engine := sample_engine) 2 1 550 rows)) in
  let n := List.length (survivors rows) in
  Nat.min 1 n <= d /\ d <= 2 /\ d <= n.
Proof.
  intros rows.
  split; [lia|].
  exact (@selected_dims_bounds sample_engine 2 1 550 rows
           (le_S 1 1 (le_n 1))).
Defined.

(** C9 (as stated) fails for [maxDims = 0] and [minDims = 0]: two
    candidates survive and none is selected; and with [maxDims = 0] and
    the default [minDims = 4] both are selected, not one. *)
Lemma maxDims_zero_selects_none :
  let rows :=
    [ [("title", VStr "a"); ("pages", VNum (of_Z 100)); ("year", VNum (of_Z 1999))];
      [("title", VStr "b"); ("pages", VNum (of_Z 250)); ("year", VNum (of_Z 2004))] ] in
  List.length (survivors rows) = 2 /\
  ParallelCoords.dims
    (ParallelCoords.prepared (engine := sample_engine) 0 0 550 rows) = [] /\
  ParallelCoords.dims
    (ParallelCoords.prepared (engine := sample_engine) 0 4 550 rows)
  = ["year"; "pages"] /\
  ~ (1 <= List.length
            (ParallelCoords.dims
               (ParallelCoords.prepared (engine := sample_engine) 0 0 550
                  rows))).
Proof.
  intros rows.
  split; [vm_compute; reflexivity|].
  split; [vm_compute; reflexivity|].
  split; [vm_compute; reflexivity|].
  vm_compute. lia.
Qed.

Lemma selects_one_unless_zero_witness :
  let rows :=
    [ [("title", VStr "a"); ("pages", VNum (of_Z 100)); ("year", VNum (of_Z 1999))];
      [("title", VStr "b"); ("pages", VNum (of_Z 250)); ("year", VNum (of_Z 2004))] ] in
  survivors rows <> [] /\
  (1 <= List.length
          (ParallelCoords.dims
             (ParallelCoords.prepared (engine := sample_engine) 1 0 550 rows))
   <-> 1 <= 1 \/ 1 <= 0).
Proof.
  intros rows.
  assert (Hs : survivors rows <> []) by (vm_compute; discriminate).
  split; [exact Hs|].
  exact (@selects_one_unless_zero sample_engine 1 0 550 rows Hs).
Defined.

(** ** The projection *)

Section ProjectionFacts.

Context {engine : Engine}.

(** The loop of [record_of] over the dimensions: what it has counted
    and what the record holds afterwards. *)
Lemma record_loop (r : row) (dims : list string)
  (st : ParallelCoords.record * nat) :
  snd (fold_left (ParallelCoords.record_step r) dims st)
  = snd st + missing_count dims r /\
  forall d,
    oget string_dec (fst (fold_left (ParallelCoords.record_step r) dims st)) d
    = if in_dec string_dec d dims
      then Some (ParallelCoords.FVal (coerced (prop r d)))
      else oget string_dec (fst st) d.
Proof.
  revert st.
  induction dims as [|d0 dims IH]; intros [rec missing].
  - split; [unfold missing_count; simpl; lia|reflexivity].
  - cbn [fold_left].
    destruct (IH (ParallelCoords.record_step r (rec, missing) d0))
      as [Hm Hg].
    split.
    + rewrite Hm. unfold missing_count. cbn [filter]. simpl.
      destruct (isFiniteNumber (prop r d0)); simpl; lia.
    + intros d. rewrite Hg. cbn [ParallelCoords.record_step fst].
      destruct (in_dec string_dec d dims) as [Hi|Hn];
        destruct (in_dec string_dec d (d0 :: dims)) as [Hi'|Hn'];
        try reflexivity.
      * exfalso. apply Hn'. now right.
      * destruct Hi' as [<-|Hi']; [|contradiction].
        now rewrite oget_oset_eq.
      * apply oget_oset_ne. intros <-. apply Hn'. now left.
Qed.

Lemma record_of_missing (titleKey : option string) (dims : list string)
  (r : row) :
  oget string_dec (ParallelCoords.record_of titleKey dims r) "__missing"
  = Some (ParallelCoords.FCount (missing_count dims r)).
Proof.
  unfold ParallelCoords.record_of.
  match goal with
  | |- context [fold_left _ dims ?st] =>
      pose proof (record_loop r dims st) as [Hm _];
      destruct (fold_left (ParallelCoords.record_step r) dims st)
        as [rec missing]
  end.
  cbn [snd] in Hm. subst missing. apply oget_oset_eq.
Qed.

Lemma record_of_dim (titleKey : option string) (dims : list string)
  (r : row) (d : string) :
  In d dims -> d <> "__missing" ->
  oget string_dec (ParallelCoords.record_of titleKey dims r) d
  = Some (ParallelCoords.FVal (coerced (prop r d))).
Proof.
  intros Hd Hne. unfold ParallelCoords.record_of.
  match goal with
  | |- context [fold_left _ dims ?st] =>
      pose proof (record_loop r dims st) as [_ Hg];
      destruct (fold_left (ParallelCoords.record_step r) dims st)
        as [rec missing]
  end.
  cbn [fst] in Hg. rewrite oget_oset_ne by congruence. rewrite Hg.
  now destruct (in_dec string_dec d dims).
Qed.

Lemma record_of_present (titleKey : option string) (dims : list string)
  (r : row) (d : string) :
  In d dims ->
  exists f, oget string_dec (ParallelCoords.record_of titleKey dims r) d
            = Some f.
Proof.
  intros Hd. destruct (string_dec d "__missing") as [->|Hne].
  - rewrite record_of_missing. eauto.
  - rewrite record_of_dim by assumption. eauto.
Qed.

Lemma few_missing_record (titleKey : option string) (dims : list string)
  (r : row) :
  ParallelCoords.few_missing dims (ParallelCoords.record_of titleKey dims r)
  = (missing_count dims r <=? List.length dims / 2).
Proof.
  unfold ParallelCoords.few_missing. now rewrite record_of_missing.
Qed.

Lemma capped_In (A : Type) (maxLines : nat) (data : list A) (x : A) :
  In x (capped maxLines data) -> In x data.
Proof.
  unfold capped. destruct (_ && _); [apply In_firstn|trivial].
Qed.

(** The records [prepared] returns: those of the rows with few enough
    missing dimensions, in the order of the rows, up to the cap. *)
Lemma prepared_data (maxDims minDims maxLines : nat) (rows : list row) :
  let p := ParallelCoords.prepared maxDims minDims maxLines rows in
  let sel := ParallelCoords.dims p in
  ParallelCoords.data p
  = capped maxLines
      (map (ParallelCoords.record_of (ParallelCoords.titleKey p) sel)
         (filter
            (fun r => missing_count sel r <=? List.length sel / 2)
            rows)).
Proof.
  cbv zeta. rewrite prepared_dims.
  destruct rows as [|row0 rows]; [now destruct maxLines|].
  unfold ParallelCoords.prepared.
  cbn [ParallelCoords.data ParallelCoords.titleKey].
  change (ParallelCoords.stats (row0 :: rows) row0)
    with (survivors (row0 :: rows)).
  rewrite filter_map_swap.
  rewrite (filter_ext _ _ (few_missing_record _ _)).
  reflexivity.
Qed.

(** C7 (as the code has it).  The projection consists of the records of
    exactly the rows whose number of missing selected dimensions is at
    most half the number of dimensions (rounded down), in row order and
    up to the cap; the record of a row with more missing dimensions is
    not in it; and every record in it has a property for each selected
    dimension, holding the finite number of the row or null, but for a
    dimension named [__missing]: its property holds the number of
    missing dimensions of the row. *)
Theorem projection_majority_rule (maxDims minDims maxLines : nat)
  (rows : list row) :
  let p := ParallelCoords.prepared maxDims minDims maxLines rows in
  let sel := ParallelCoords.dims p in
  let record_of := ParallelCoords.record_of (ParallelCoords.titleKey p) sel in
  ParallelCoords.data p
  = capped maxLines
      (map record_of
         (filter (fun r => missing_count sel r <=? List.length sel / 2)
            rows)) /\
  (forall r, In r rows ->
     List.length sel / 2 < missing_count sel r ->
     ~ In (record_of r) (ParallelCoords.data p)) /\
  (forall rec, In rec (ParallelCoords.data p) ->
     exists r,
       In r rows /\
       missing_count sel r <= List.length sel / 2 /\
       rec = record_of r /\
       forall d, In d sel ->
         oget string_dec rec d
         = Some (if string_dec d "__missing"
                 then ParallelCoords.FCount (missing_count sel r)
                 else ParallelCoords.FVal (coerced (prop r d)))).
Proof.
  intros p sel record_of.
  pose proof (prepared_data maxDims minDims maxLines rows) as Hdata.
  cbv zeta in Hdata. fold p sel record_of in Hdata.
  assert (Hsrc : forall rec, In rec (ParallelCoords.data p) ->
            exists r, In r rows /\
                      missing_count sel r <= List.length sel / 2 /\
                      rec = record_of r).
  { intros rec Hrec. rewrite Hdata in Hrec. apply capped_In in Hrec.
    apply in_map_iff in Hrec. destruct Hrec as (r & <- & Hr).
    apply filter_In in Hr. destruct Hr as [Hr Hm].
    apply Nat.leb_le in Hm. now exists r. }
  split; [exact Hdata|]. split.
  - intros r _ Hmany Hin. destruct (Hsrc _ Hin) as (r' & _ & Hfew & E).
    assert (Em : missing_count sel r = missing_count sel r').
    { pose proof (record_of_missing (ParallelCoords.titleKey p) sel r) as H1.
      pose proof (record_of_missing (ParallelCoords.titleKey p) sel r') as H2.
      fold record_of in H1, H2. rewrite E, H2 in H1. now injection H1. }
    lia.
  - intros rec Hrec. destruct (Hsrc _ Hrec) as (r & Hr & Hfew & ->).
    exists r. repeat split; try assumption.
    intros d Hd. destruct (string_dec d "__missing") as [->|Hne].
    + apply record_of_missing.
    + now apply record_of_dim.
Qed.

End ProjectionFacts.

(** C7 (as stated) fails for a numeric column named [__missing]: the
    column is selected, and the records hold under that name the number
    of missing dimensions of their rows, 0, not the 7 and the 9 of the
    rows. *)
Lemma projection_missing_column_overwritten :
  let r1 : row := [("__missing", VNum (of_Z 7)); ("x", VNum (of_Z 1))] in
  let r2 : row := [("__missing", VNum (of_Z 9)); ("x", VNum (of_Z 2))] in
  let p :=
    ParallelCoords.prepared (engine := sample_engine) 6 4 550 [r1; r2] in
  ParallelCoords.dims p = ["__missing"; "x"] /\
  map (fun rec => oget string_dec rec "__missing") (ParallelCoords.data p)
  = [Some (ParallelCoords.FCount 0); Some (ParallelCoords.FCount 0)] /\
  map (fun r => ParallelCoords.FVal (coerced (prop r "__missing"))) [r1; r2]
  = [ParallelCoords.FVal (VNum (of_Z 7));
     ParallelCoords.FVal (VNum (of_Z 9))] /\
  map (fun rec => oget string_dec rec "x") (ParallelCoords.data p)
  = [Some (ParallelCoords.FVal (VNum (of_Z 1)));
     Some (ParallelCoords.FVal (VNum (of_Z 2)))].
Proof. repeat split; vm_compute; reflexivity. Qed.

(** ** Rating buckets *)

Section RatingBins.

Local Open Scope Z_scope.

Lemma half_value : half = S754_finite false 4503599627370496 (-53).
Proof. vm_compute. reflexivity. Qed.

Lemma digits2_pos_bound (m : positive) : Zpos m < 2 ^ Zpos (digits2_pos m).
Proof.
  induction m as [m IH|m IH|]; cbn [digits2_pos];
    rewrite ?Pos2Z.inj_succ, ?Z.pow_succ_r by lia; lia.
Qed.

(** A valid number is normal (53 digits) or has the least exponent. *)
Lemma bounded_cases (m : positive) (e : Z) :
  bounded prec emax m e = true ->
  (Zpos (digits2_pos m) = 53 /\ -1074 <= e) \/
  (Zpos (digits2_pos m) < 53 /\ e = -1074).
Proof.
  unfold bounded, canonical_mantissa, fexp, emin, prec, emax.
  intros H. apply andb_true_iff in H. destruct H as [H _].
  apply Z.eqb_eq in H. lia.
Qed.

Lemma div_core_half (m : positive) (e : Z) :
  bounded prec emax m e = true ->
  SFdiv_core_binary prec emax (Zpos m) e 4503599627370496 (-53)
  = (Zpos m~0, e, loc_Exact).
Proof.
  intros Hb. pose proof (@bounded_cases _ _ Hb) as Hc.
  unfold SFdiv_core_binary.
  change (Zdigits2 4503599627370496) with 53. cbn [Zdigits2].
  assert (He : IntDef.Z.min
                 (fexp prec emax (Z.pos (digits2_pos m) + e - (53 + -53)))
                 (e - -53) = e).
  { change IntDef.Z.min with Z.min.
    unfold fexp, emin, prec, emax. lia. }
  rewrite He. replace (e - -53 - e) with 53 by lia.
  change (IntDef.Z.shiftl (Z.pos m) 53) with (Z.shiftl (Z.pos m) 53).
  rewrite Z.shiftl_mul_pow2 by lia.
  change IntDef.Z.div_eucl with Z.div_eucl.
  pose proof (Z_div_mod (Z.pos m * 2 ^ 53) 4503599627370496 eq_refl) as Hdm.
  destruct (Z.div_eucl (Z.pos m * 2 ^ 53) 4503599627370496) as [q r].
  change (2 ^ 53) with 9007199254740992 in Hdm.
  assert (Hq : q = Z.pos m~0) by lia.
  assert (Hr : r = 0) by lia.
  subst q r. reflexivity.
Qed.

Lemma div_half (s : bool) (m : positive) (e : Z) :
  bounded prec emax m e = true -> e <= -46 ->
  div (S754_finite s m e) half
  = if Zpos (digits2_pos m) =? 53 then S754_finite s m (e + 1)
    else S754_finite s m~0 e.
Proof.
  intros Hb He. pose proof (@bounded_cases _ _ Hb) as Hc.
  rewrite half_value. unfold div, SFdiv.
  rewrite (@div_core_half _ _ Hb).
  unfold binary_round_aux, shr_fexp. cbn [Zdigits2 digits2_pos].
  change (PosDef.Pos.succ (digits2_pos m)) with (Pos.succ (digits2_pos m)).
  rewrite Pos2Z.inj_succ, xorb_false_r.
  destruct Hc as [[Hd Hlo]|[Hd Hlo]].
  - replace (fexp prec emax (Z.succ (Z.pos (digits2_pos m)) + e) - e) with 1
      by (unfold fexp, emin, prec, emax; lia).
    cbn [shr shr_record_of_loc iter_pos shr_1 shr_m loc_of_shr_record
         round_nearest_even Zdigits2 orb].
    replace (fexp prec emax (Z.pos (digits2_pos m) + (e + 1)) - (e + 1))
      with 0 by (unfold fexp, emin, prec, emax; lia).
    cbn [shr shr_m]. rewrite Hd. cbn [Z.eqb Pos.eqb].
    replace (e + 1 <=? emax - prec) with true
      by (symmetry; apply Z.leb_le; unfold emax, prec; lia).
    reflexivity.
  - replace (fexp prec emax (Z.succ (Z.pos (digits2_pos m)) + e) - e) with 0
      by (unfold fexp, emin, prec, emax; lia).
    cbn [shr shr_record_of_loc shr_m loc_of_shr_record
         round_nearest_even Zdigits2 digits2_pos].
    change (PosDef.Pos.succ (digits2_pos m)) with (Pos.succ (digits2_pos m)).
    rewrite Pos2Z.inj_succ.
    replace (fexp prec emax (Z.succ (Z.pos (digits2_pos m)) + e) - e) with 0
      by (unfold fexp, emin, prec, emax; lia).
    cbn [shr shr_m].
    replace (Z.pos (digits2_pos m) =? 53) with false
      by (symmetry; apply Z.eqb_neq; lia).
    replace (e <=? emax - prec) with true
      by (symmetry; apply Z.leb_le; unfold emax, prec; lia).
    reflexivity.
Qed.

Lemma floor_div_half (s : bool) (m : positive) (e : Z) :
  bounded prec emax m e = true -> e <= -46 ->
  Math_floor (div (S754_finite s m e) half) = of_Z (floor_twice s m e).
Proof.
  intros Hb He. rewrite (@div_half s _ _ Hb He). unfold floor_twice.
  destruct (Z.pos (digits2_pos m) =? 53); unfold Math_floor.
  - replace (0 <=? e + 1) with false by (symmetry; apply Z.leb_gt; lia).
    reflexivity.
  - replace (0 <=? e) with false by (symmetry; apply Z.leb_gt; lia).
    f_equal.
    replace (signed s m~0) with (2 * signed s m) by now destruct s.
    replace (- e) with (Z.succ (- (e + 1))) by lia.
    rewrite Z.pow_succ_r by lia.
    apply Z.div_mul_cancel_l; [|lia].
    apply Z.pow_nonzero; lia.
Qed.

Lemma floor_twice_range (s : bool) (m : positive) (e : Z) :
  bounded prec emax m e = true -> e <= -46 ->
  -256 <= floor_twice s m e < 256.
Proof.
  intros Hb He. unfold floor_twice.
  assert (Hm : Zpos m < 2 ^ 53).
  { eapply Z.lt_le_trans; [apply digits2_pos_bound|].
    apply Z.pow_le_mono_r; [lia|].
    destruct (@bounded_cases _ _ Hb) as [[]|[]]; lia. }
  assert (Hk : 2 ^ 45 <= 2 ^ (- (e + 1))) by (apply Z.pow_le_mono_r; lia).
  change (2 ^ 53) with 9007199254740992 in Hm.
  change (2 ^ 45) with 35184372088832 in Hk.
  assert (Hs : - 9007199254740992 < signed s m < 9007199254740992)
    by (destruct s; simpl; lia).
  split.
  - apply Z.div_le_lower_bound; nia.
  - apply Z.div_lt_upper_bound; nia.
Qed.

(** On the integers from -256 to 255 the rounding step changes nothing:
    half the integer, rounded to one decimal, is half the integer. *)
Lemma round_half_integers :
  forallb
    (fun n =>
       Num.eqb (div (Math_round (mul (mul (of_Z n) half) ten)) ten)
         (div (of_Z n) (of_Z 2)))
    (map (fun i => Z.of_nat i - 256) (seq 0 512))
  = true.
Proof. vm_compute. reflexivity. Qed.

End RatingBins.

(** C6 (as stated) fails at its own example: 0.49999999 and 0.5 have
    different buckets, 0 and 0.5. *)
Lemma ratingBinOf_below_boundary :
  RatingYearHeatmap.ratingBinOf (decimal 49999999 8) = pzero /\
  RatingYearHeatmap.ratingBinOf (decimal 5 1) = decimal 5 1 /\
  RatingYearHeatmap.ratingBinOf (decimal 49999999 8)
  <> RatingYearHeatmap.ratingBinOf (decimal 5 1).
Proof.
  split; [vm_compute; reflexivity|]. split; [vm_compute; reflexivity|].
  vm_compute. discriminate.
Qed.

(** ** Numbers that are not NaN, and their order *)

Section NotNaN.

Local Open Scope Z_scope.

Lemma shr_1_nonneg (mrs : shr_record) :
  0 <= shr_m mrs -> 0 <= shr_m (shr_1 mrs).
Proof.
  destruct mrs as [m r s]. simpl.
  destruct m as [|[p|p|]|[p|p|]]; simpl; lia.
Qed.

Lemma iter_pos_shr_1_nonneg (p : positive) (mrs : shr_record) :
  0 <= shr_m mrs -> 0 <= shr_m (iter_pos shr_1 p mrs).
Proof.
  revert mrs. induction p as [p IH|p IH|]; intros mrs H; simpl.
  - apply IH, IH, shr_1_nonneg, H.
  - apply IH, IH, H.
  - apply shr_1_nonneg, H.
Qed.

Lemma shr_fexp_nonneg (m e : Z) (l : location) :
  0 <= m -> 0 <= shr_m (fst (shr_fexp prec emax m e l)).
Proof.
  intros H. unfold shr_fexp, shr.
  assert (H0 : 0 <= shr_m (shr_record_of_loc m l))
    by (destruct l as [|[]]; exact H).
  destruct (fexp prec emax (Zdigits2 m + e) - e); simpl;
    [exact H0|now apply iter_pos_shr_1_nonneg|exact H0].
Qed.

Lemma round_nearest_even_nonneg (m : Z) (l : location) :
  0 <= m -> 0 <= round_nearest_even m l.
Proof.
  intros H. destruct l as [|[]]; simpl; try lia.
  destruct (Z.even m); lia.
Qed.

(** Rounding a non-negative mantissa never yields NaN. *)
Lemma binary_round_aux_notNaN (s : bool) (m e : Z) (l : location) :
  0 <= m -> isNaN (binary_round_aux prec emax s m e l) = false.
Proof.
  intros H. unfold binary_round_aux.
  pose proof (shr_fexp_nonneg e l H) as H1.
  destruct (shr_fexp prec emax m e l) as [mrs' e']. simpl in H1.
  pose proof (shr_fexp_nonneg e' loc_Exact
                (round_nearest_even_nonneg (loc_of_shr_record mrs') H1)) as H2.
  destruct (shr_fexp prec emax _ e' loc_Exact) as [mrs'' e'']. simpl in H2.
  destruct (shr_m mrs'') as [|p|p]; [reflexivity| |lia].
  now destruct (e'' <=? emax - prec).
Qed.

Lemma of_Z_notNaN (z : Z) : isNaN (of_Z z) = false.
Proof.
  unfold of_Z, binary_normalize. destruct z as [|p|p]; [reflexivity|..];
    unfold binary_round;
    destruct (shl_align _ _ _) as [mz ez];
    apply binary_round_aux_notNaN; lia.
Qed.

Lemma div_finite_notNaN (x : number) (s : bool) (m : positive) (e : Z) :
  isFinite x = true -> isNaN (div x (S754_finite s m e)) = false.
Proof.
  destruct x as [sx|sx| |sx mx ex]; try discriminate; intros _;
    [reflexivity|].
  unfold div, SFdiv.
  destruct (SFdiv_core_binary prec emax (Z.pos mx) ex (Z.pos m) e)
    as [[mz ez] lz] eqn:E.
  apply binary_round_aux_notNaN.
  unfold SFdiv_core_binary in E.
  destruct (IntDef.Z.div_eucl _ (Z.pos m)) as [q r] eqn:Ed in E.
  injection E as <- _ _.
  change IntDef.Z.div_eucl with Z.div_eucl in Ed.
  match type of Ed with
  | Z.div_eucl ?a ?b = _ =>
      assert (Ha : 0 <= a);
      [|pose proof (Z_div_mod a b eq_refl) as Hdm; rewrite Ed in Hdm; nia]
  end.
  destruct (ex - e - _) as [|p|p]; [lia| |lia].
  change (IntDef.Z.shiftl (Z.pos mx) (Z.pos p))
    with (Z.shiftl (Z.pos mx) (Z.pos p)).
  apply Z.shiftl_nonneg. lia.
Qed.

Lemma div_notNaN (x : number) (s : bool) (m : positive) (e : Z) :
  isNaN x = false -> isNaN (div x (S754_finite s m e)) = false.
Proof.
  destruct x as [sx|sx| |sx mx ex] eqn:Ex; try discriminate; intros _.
  - reflexivity.
  - reflexivity.
  - rewrite <- Ex. apply div_finite_notNaN. now rewrite Ex.
Qed.

Lemma mul_notNaN (x : number) (s : bool) (m : positive) (e : Z) :
  isNaN x = false -> isNaN (mul x (S754_finite s m e)) = false.
Proof.
  destruct x as [sx|sx| |sx mx ex]; try discriminate; intros _;
    try reflexivity.
  unfold mul, SFmul. apply binary_round_aux_notNaN. lia.
Qed.

Lemma Math_floor_notNaN (x : number) :
  isNaN x = false -> isNaN (Math_floor x) = false.
Proof.
  destruct x as [sx|sx| |sx mx ex]; try discriminate; intros _;
    try reflexivity.
  unfold Math_floor. destruct (0 <=? ex); [reflexivity|apply of_Z_notNaN].
Qed.

Lemma Math_round_notNaN (x : number) :
  isNaN x = false -> isNaN (Math_round x) = false.
Proof.
  destruct x as [sx|sx| |sx mx ex]; try discriminate; intros _;
    try reflexivity.
  unfold Math_round. destruct (0 <=? ex); [reflexivity|].
  unfold binary_normalize.
  destruct (_ / _) as [|p|p]; [reflexivity|..];
    unfold binary_round;
    destruct (shl_align _ _ _) as [mz ez];
    apply binary_round_aux_notNaN; lia.
Qed.

Lemma ten_value : ten = S754_finite false 5629499534213120 (-49).
Proof. vm_compute. reflexivity. Qed.

Lemma isFinite_notNaN (x : number) : isFinite x = true -> isNaN x = false.
Proof. now destruct x. Qed.

(** The decade and the rating bucket of a number that is not NaN are
    not NaN. *)
Lemma decadeOf_notNaN (year : number) :
  isNaN year = false -> isNaN (RatingYearHeatmap.decadeOf year) = false.
Proof.
  intros H. unfold RatingYearHeatmap.decadeOf. rewrite ten_value.
  now apply mul_notNaN, Math_floor_notNaN, div_notNaN.
Qed.

Lemma ratingBinOf_notNaN (rating : number) :
  isNaN rating = false -> isNaN (RatingYearHeatmap.ratingBinOf rating) = false.
Proof.
  intros H. unfold RatingYearHeatmap.ratingBinOf. cbv zeta.
  rewrite ten_value, half_value.
  now apply div_notNaN, Math_round_notNaN, mul_notNaN, mul_notNaN,
    Math_floor_notNaN, div_notNaN.
Qed.

End NotNaN.

Section NumberOrder.

Local Open Scope Z_scope.

(** [a < b] on numbers that are not NaN is the order of their keys. *)
Lemma lt_key (a b : number) :
  isNaN a = false -> isNaN b = false ->
  (lt a b = true <-> key_lt (order_key a) (order_key b)).
Proof.
  unfold lt, SFltb, SFcompare.
  destruct a as [sa|sa| |sa ma ea]; try discriminate;
    destruct b as [sb|sb| |sb mb eb]; try discriminate; intros _ _;
    try (destruct sa); try (destruct sb); simpl;
    try change (PosDef.Pos.compare_cont Eq ma mb) with (Pos.compare ma mb);
    try (destruct (Z.compare_spec ea eb); simpl);
    try (destruct (Pos.compare_spec ma mb); simpl);
    (split; intros Hkey;
     solve [reflexivity | discriminate | lia | exfalso; lia]).
Qed.

Lemma key_lt_trans_neg (a b c : Z * Z * Z) :
  ~ key_lt b a -> ~ key_lt c b -> ~ key_lt c a.
Proof.
  destruct a as [[c1 e1] m1], b as [[c2 e2] m2], c as [[c3 e3] m3].
  unfold key_lt. lia.
Qed.

Lemma key_lt_total (a b : Z * Z * Z) :
  a <> b -> key_lt a b \/ key_lt b a.
Proof.
  destruct a as [[c1 e1] m1], b as [[c2 e2] m2]. unfold key_lt.
  intros H.
  destruct (Z.eq_dec c1 c2) as [->|]; [|lia].
  destruct (Z.eq_dec e1 e2) as [->|]; [|lia].
  destruct (Z.eq_dec m1 m2) as [->|]; [congruence|lia].
Qed.

Lemma key_lt_asym (a b : Z * Z * Z) : key_lt a b -> ~ key_lt b a.
Proof.
  destruct a as [[c1 e1] m1], b as [[c2 e2] m2]. unfold key_lt. lia.
Qed.

(** Two numbers with one key are equal, once -0 is read as +0. *)
Lemma order_key_inj (a b : number) :
  isNaN a = false -> isNaN b = false ->
  norm0 a = a -> norm0 b = b ->
  order_key a = order_key b -> a = b.
Proof.
  destruct a as [sa|sa| |sa ma ea]; try discriminate;
    destruct b as [sb|sb| |sb mb eb]; try discriminate; intros _ _;
    try (destruct sa); try (destruct sb); simpl;
    intros Ha Hb E; try discriminate; try reflexivity;
    injection E; intros; f_equal; lia.
Qed.

Lemma not_lt_trans (a b c : number) :
  isNaN a = false -> isNaN b = false -> isNaN c = false ->
  lt b a = false -> lt c b = false -> lt c a = false.
Proof.
  intros Ha Hb Hc H1 H2.
  apply not_true_is_false. rewrite lt_key by assumption.
  apply key_lt_trans_neg with (b := order_key b);
    rewrite <- lt_key by assumption; congruence.
Qed.

Lemma lt_or_lt (a b : number) :
  isNaN a = false -> isNaN b = false ->
  norm0 a = a -> norm0 b = b ->
  a <> b -> lt a b = true \/ lt b a = true.
Proof.
  intros Ha Hb Na Nb Hne. rewrite !lt_key by assumption.
  apply key_lt_total. intros E. apply Hne. now apply order_key_inj.
Qed.

Lemma lt_asym (a b : number) :
  isNaN a = false -> isNaN b = false -> lt a b = true -> lt b a = false.
Proof.
  intros Ha Hb H. apply not_true_is_false.
  rewrite lt_key in * by assumption. now apply key_lt_asym.
Qed.

End NumberOrder.

(** A sort whose comparator follows an order [R] on the elements with
    the property [P]. *)
Section SortOrdered.

Variable A : Type.
Variable cmp : A -> A -> Z.
Variable P : A -> Prop.
Variable R : A -> A -> Prop.

Hypothesis cmp_behind :
  forall x y, P x -> P y -> (0 < cmp x y)%Z -> R y x.
Hypothesis cmp_before :
  forall x y, P x -> P y -> ~ (0 < cmp x y)%Z -> R x y.
Hypothesis R_trans :
  forall x y z, P x -> P y -> P z -> R x y -> R y z -> R x z.

Lemma sort_insert_ordered (x : A) (l : list A) :
  P x -> Forall P l -> StronglySorted R l ->
  StronglySorted R (sort_insert cmp x l).
Proof.
  intros Hx HP HS. induction HS as [|y l HS IH Hy]; simpl.
  - repeat constructor.
  - inversion HP as [|? ? Py Pl]; subst.
    rewrite Forall_forall in Hy, Pl.
    destruct (0 <? cmp x y)%Z eqn:E.
    + apply Z.ltb_lt in E. constructor.
      * apply IH. now apply Forall_forall.
      * apply Forall_forall. intros z Hz.
        apply (Permutation_in _ (sort_insert_perm cmp x l)) in Hz.
        destruct Hz as [<-|Hz]; [now apply cmp_behind|now apply Hy].
    + apply Z.ltb_ge in E.
      assert (Rxy : R x y) by (apply cmp_before; [assumption..|lia]).
      constructor; [constructor; [exact HS|now apply Forall_forall]|].
      constructor; [exact Rxy|]. apply Forall_forall. intros z Hz.
      apply (R_trans (y := y)); auto.
Qed.

Lemma js_sort_ordered (l : list A) :
  Forall P l -> StronglySorted R (js_sort cmp l).
Proof.
  induction 1 as [|x l Hx Hl IH]; simpl; [constructor|].
  apply sort_insert_ordered; [exact Hx| |exact IH].
  apply Forall_forall. intros z Hz. rewrite Forall_forall in Hl.
  apply Hl. now apply js_sort_In in Hz.
Qed.

End SortOrdered.

(** [l.sort(d3.ascending)] puts distinct numbers that are not NaN in
    strictly increasing order. *)
Lemma sort_ascending_strict (l : list number) :
  Forall (fun x => isNaN x = false /\ norm0 x = x) l ->
  NoDup l ->
  StronglySorted (fun a b => lt a b = true)
    (js_sort RatingYearHeatmap.ascending l).
Proof.
  intros HP Hnd.
  assert (HS : StronglySorted (fun a b => lt b a = false)
                 (js_sort RatingYearHeatmap.ascending l)).
  { apply js_sort_ordered
      with (P := fun x => isNaN x = false /\ norm0 x = x); [| | |exact HP].
    - intros x y [Hx _] [Hy _].
      unfold RatingYearHeatmap.ascending, d3_ascending.
      destruct (lt x y) eqn:E; [simpl; lia|reflexivity].
    - intros x y [Hx _] [Hy _].
      unfold RatingYearHeatmap.ascending, d3_ascending, gt.
      destruct (lt x y) eqn:E; [intros _; now apply lt_asym|].
      destruct (SFltb y x) eqn:E';
        [simpl; intros H; exfalso; apply H; lia|intros _; exact E'].
    - intros x y z [Hx _] [Hy _] [Hz _]. now apply not_lt_trans. }
  assert (HP' : Forall (fun x => isNaN x = false /\ norm0 x = x)
                  (js_sort RatingYearHeatmap.ascending l)).
  { apply Forall_forall. intros z Hz. rewrite Forall_forall in HP.
    apply HP. now apply js_sort_In in Hz. }
  pose proof (js_sort_NoDup RatingYearHeatmap.ascending Hnd) as Hnd'.
  induction HS as [|a s HS IH Ha]; constructor.
  - inversion HP'; inversion Hnd'; subst. now apply IH.
  - inversion HP' as [|? ? [Na Za] Ps]; inversion Hnd' as [|? ? Hna _]; subst.
    rewrite Forall_forall in *. intros b Hb.
    destruct (Ps b Hb) as [Nb Zb].
    destruct (@lt_or_lt a b Na Nb Za Zb) as [H|H]; [congruence|exact H|].
    rewrite (Ha b Hb) in H. discriminate.
Qed.

(** ** More on the heat map *)

Lemma In_filter_Boolean (A : Type) (l : list (option A)) (x : A) :
  In x (filter_Boolean l) <-> In (Some x) l.
Proof.
  induction l as [|[y|] l IH]; simpl.
  - tauto.
  - rewrite IH. split; intros [H|H]; auto; left; congruence.
  - rewrite IH. split; [auto|]. intros [H|H]; [discriminate|exact H].
Qed.

Lemma filter_Boolean_app (A : Type) (l1 l2 : list (option A)) :
  filter_Boolean (l1 ++ l2) = filter_Boolean l1 ++ filter_Boolean l2.
Proof.
  induction l1 as [|[y|] l1 IH]; simpl; [reflexivity| |exact IH].
  now rewrite IH.
Qed.

Lemma filter_Boolean_none (A B : Type) (f : A -> option B) (l : list A) :
  (forall x, In x l -> f x = None) -> filter_Boolean (map f l) = [].
Proof.
  induction l as [|x l IH]; intros H; simpl; [reflexivity|].
  rewrite (H x) by now left. apply IH. intros y Hy. apply H. now right.
Qed.

Lemma sum_count_occ_cons (K : Type)
  (K_dec : forall x y : K, {x = y} + {x <> y}) (x : K) (l keys : list K) :
  list_sum (map (count_occ K_dec (x :: l)) keys)
  = list_sum (map (count_occ K_dec l) keys) + count_occ K_dec keys x.
Proof.
  unfold list_sum. induction keys as [|k keys IH]; [reflexivity|].
  cbn [map fold_right]. rewrite IH.
  cbn [count_occ]. destruct (K_dec x k); destruct (K_dec k x);
    try congruence; lia.
Qed.

(** The sum of the occurrences of the keys of a list that holds each
    key once. *)
Lemma sum_count_occ (A K : Type)
  (K_dec : forall x y : K, {x = y} + {x <> y}) (f : A -> K)
  (l : list A) (keys : list K) :
  NoDup keys -> (forall a, In a l -> In (f a) keys) ->
  list_sum (map (count_occ K_dec (map f l)) keys) = List.length l.
Proof.
  intros Hnd. induction l as [|a l IH]; intros Hin.
  - clear Hnd Hin. induction keys as [|k keys IHk]; simpl; [reflexivity|].
    exact IHk.
  - cbn [map List.length]. rewrite sum_count_occ_cons.
    rewrite IH by (intros b Hb; apply Hin; now right).
    rewrite (proj1 (NoDup_count_occ' K_dec keys) Hnd (f a))
      by (apply Hin; now left).
    lia.
Qed.

Lemma fill_row_max (counts : omap (number * number) nat) (dec : number)
  (bins : list number) (st : list RatingYearHeatmap.cell * nat) :
  snd (RatingYearHeatmap.fill_row counts dec bins st)
  = Nat.max (snd st)
      (list_max
         (map RatingYearHeatmap.count (map (grid_cell counts dec) bins))).
Proof.
  unfold RatingYearHeatmap.fill_row. revert st.
  induction bins as [|bin bins IH]; intros [data maxCount]; simpl.
  - lia.
  - rewrite IH. simpl.
    destruct (Nat.ltb_spec maxCount
                (count_at RatingYearHeatmap.key_dec counts
                   (RatingYearHeatmap.key_of dec bin))); lia.
Qed.

Lemma fill_grid_max (decs bins : list number)
  (counts : omap (number * number) nat) :
  snd (RatingYearHeatmap.fill_grid decs bins counts)
  = list_max
      (map RatingYearHeatmap.count
         (flat_map (fun dec => map (grid_cell counts dec) bins) decs)).
Proof.
  unfold RatingYearHeatmap.fill_grid.
  change (list_max (map RatingYearHeatmap.count
                      (flat_map (fun dec => map (grid_cell counts dec) bins)
                         decs)))
    with (Nat.max (snd (@nil RatingYearHeatmap.cell, 0))
            (list_max (map RatingYearHeatmap.count
                         (flat_map
                            (fun dec => map (grid_cell counts dec) bins)
                            decs)))).
  generalize (@nil RatingYearHeatmap.cell, 0) as st.
  induction decs as [|dec decs IH]; intros st; simpl.
  - lia.
  - rewrite IH, fill_row_max, map_app, list_max_app. lia.
Qed.

Section HeatmapMore.

Context {engine : Engine}.

Lemma prepared_maxCount (minYear maxYear : value) (rows : list row) :
  let items := RatingYearHeatmap.items_of minYear maxYear rows in
  let p := RatingYearHeatmap.prepared minYear maxYear rows in
  RatingYearHeatmap.maxCount p
  = snd (RatingYearHeatmap.fill_grid (RatingYearHeatmap.decades p)
           (RatingYearHeatmap.ratingBins p)
           (RatingYearHeatmap.count_items items)).
Proof.
  unfold RatingYearHeatmap.prepared, RatingYearHeatmap.items_of.
  destruct rows as [|row0 rows]; [reflexivity|].
  destruct (pickKey (Some row0) RatingYearHeatmap.yearCandidates)
    as [yearKey|]; [|reflexivity].
  destruct (pickKey (Some row0) RatingYearHeatmap.ratingCandidates)
    as [ratingKey|]; [|reflexivity].
  destruct (negb (nonempty yearKey) || negb (nonempty ratingKey));
    [reflexivity|].
  cbv zeta.
  destruct (RatingYearHeatmap.fill_grid _ _ _) as [data maxCount] eqn:E.
  cbn [RatingYearHeatmap.maxCount RatingYearHeatmap.decades
       RatingYearHeatmap.ratingBins].
  now rewrite E.
Qed.

(** What a row must hold to yield an item. *)
Lemma item_of_Some (minYear maxYear : value) (titleKey : option string)
  (yearKey ratingKey : string) (r : row) (i : RatingYearHeatmap.item) :
  RatingYearHeatmap.item_of minYear maxYear titleKey yearKey ratingKey r
  = Some i ->
  exists year rating,
    toNumber (prop r yearKey) = Some year /\
    toNumber (prop r ratingKey) = Some rating /\
    RatingYearHeatmap.bound_excludes minYear (fun b => lt year b) = false /\
    RatingYearHeatmap.bound_excludes maxYear (fun b => gt year b) = false /\
    RatingYearHeatmap.decade i = RatingYearHeatmap.decadeOf year /\
    RatingYearHeatmap.ratingBin i = RatingYearHeatmap.ratingBinOf rating.
Proof.
  unfold RatingYearHeatmap.item_of.
  destruct (toNumber (prop r yearKey)) as [year|]; [|discriminate].
  destruct (toNumber (prop r ratingKey)) as [rating|]; [|discriminate].
  destruct (RatingYearHeatmap.bound_excludes minYear _) eqn:E1;
    [discriminate|].
  destruct (RatingYearHeatmap.bound_excludes maxYear _) eqn:E2;
    [discriminate|].
  intros [= <-]. exists year, rating. now repeat split.
Qed.

Lemma items_of_In (minYear maxYear : value) (rows : list row)
  (i : RatingYearHeatmap.item) :
  In i (RatingYearHeatmap.items_of minYear maxYear rows) ->
  exists r year rating,
    In r rows /\ isFinite year = true /\ isFinite rating = true /\
    RatingYearHeatmap.bound_excludes minYear (fun b => lt year b) = false /\
    RatingYearHeatmap.bound_excludes maxYear (fun b => gt year b) = false /\
    RatingYearHeatmap.decade i = RatingYearHeatmap.decadeOf year /\
    RatingYearHeatmap.ratingBin i = RatingYearHeatmap.ratingBinOf rating.
Proof.
  unfold RatingYearHeatmap.items_of.
  destruct rows as [|row0 rows]; [intros []|].
  destruct (pickKey (Some row0) RatingYearHeatmap.yearCandidates)
    as [yearKey|]; [|intros []].
  destruct (pickKey (Some row0) RatingYearHeatmap.ratingCandidates)
    as [ratingKey|]; [|intros []].
  destruct (negb (nonempty yearKey) || negb (nonempty ratingKey));
    [intros []|].
  rewrite In_filter_Boolean, in_map_iff. intros (r & Hi & Hr).
  apply item_of_Some in Hi.
  destruct Hi as (year & rating & Hy & Hg & H1 & H2 & H3 & H4).
  exists r, year, rating. repeat split; try assumption.
  - exact (toNumber_finite _ Hy).
  - exact (toNumber_finite _ Hg).
Qed.

(** X1.  The decades and the rating buckets of the heat map are in
    strictly increasing order, and none of them is NaN. *)
Theorem prepared_axes_ascending (minYear maxYear : value) (rows : list row) :
  let p := RatingYearHeatmap.prepared minYear maxYear rows in
  StronglySorted (fun a b => lt a b = true) (RatingYearHeatmap.decades p) /\
  StronglySorted (fun a b => lt a b = true) (RatingYearHeatmap.ratingBins p) /\
  Forall (fun d => isNaN d = false) (RatingYearHeatmap.decades p) /\
  Forall (fun b => isNaN b = false) (RatingYearHeatmap.ratingBins p).
Proof.
  intros p.
  destruct (prepared_of_items minYear maxYear rows) as (Hd & Hb & _).
  fold p in Hd, Hb. cbv zeta in Hd, Hb.
  assert (Pd : Forall (fun x => isNaN x = false /\ norm0 x = x)
                 (RatingYearHeatmap.distinct
                    (map RatingYearHeatmap.decade
                       (RatingYearHeatmap.items_of minYear maxYear rows)))).
  { apply Forall_forall. intros x Hx. apply distinct_In in Hx.
    destruct Hx as (y & Hy & ->). rewrite norm0_notNaN, norm0_idem.
    split; [|reflexivity]. apply in_map_iff in Hy.
    destruct Hy as (i & <- & Hi). apply items_of_In in Hi.
    destruct Hi as (r & year & rating & _ & Fy & _ & _ & _ & -> & _).
    now apply decadeOf_notNaN, isFinite_notNaN. }
  assert (Pb : Forall (fun x => isNaN x = false /\ norm0 x = x)
                 (RatingYearHeatmap.distinct
                    (map RatingYearHeatmap.ratingBin
                       (RatingYearHeatmap.items_of minYear maxYear rows)))).
  { apply Forall_forall. intros x Hx. apply distinct_In in Hx.
    destruct Hx as (y & Hy & ->). rewrite norm0_notNaN, norm0_idem.
    split; [|reflexivity]. apply in_map_iff in Hy.
    destruct Hy as (i & <- & Hi). apply items_of_In in Hi.
    destruct Hi as (r & year & rating & _ & _ & Fr & _ & _ & _ & ->).
    now apply ratingBinOf_notNaN, isFinite_notNaN. }
  rewrite Hd, Hb.
  split; [apply sort_ascending_strict; [exact Pd|apply distinct_NoDup]|].
  split; [apply sort_ascending_strict; [exact Pb|apply distinct_NoDup]|].
  split; apply Forall_forall; intros x Hx; apply js_sort_In in Hx;
    [rewrite Forall_forall in Pd; now apply Pd
    |rewrite Forall_forall in Pb; now apply Pb].
Qed.

Lemma prepared_counts_sum (minYear maxYear : value) (rows : list row) :
  let p := RatingYearHeatmap.prepared minYear maxYear rows in
  list_sum (map RatingYearHeatmap.count (RatingYearHeatmap.data p))
  = List.length (RatingYearHeatmap.items_of minYear maxYear rows).
Proof.
  intros p.
  destruct (prepared_of_items minYear maxYear rows) as (Hd & Hb & Hdata).
  fold p in Hd, Hb, Hdata. cbv zeta in Hd, Hb, Hdata.
  set (items := RatingYearHeatmap.items_of minYear maxYear rows) in *.
  set (keyf := fun i : RatingYearHeatmap.item =>
                 RatingYearHeatmap.key_of (RatingYearHeatmap.decade i)
                   (RatingYearHeatmap.ratingBin i)).
  rewrite fill_grid_data in Hdata.
  assert (Hnorm : forall l x,
             In x (js_sort RatingYearHeatmap.ascending
                     (RatingYearHeatmap.distinct l)) -> norm0 x = x).
  { intros l x Hx. apply js_sort_In, distinct_In in Hx.
    destruct Hx as (y & _ & ->). apply norm0_idem. }
  rewrite <- (sum_count_occ RatingYearHeatmap.key_dec keyf items
                (keys := list_prod
                           (js_sort RatingYearHeatmap.ascending
                              (RatingYearHeatmap.distinct
                                 (map RatingYearHeatmap.decade items)))
                           (js_sort RatingYearHeatmap.ascending
                              (RatingYearHeatmap.distinct
                                 (map RatingYearHeatmap.ratingBin items))))).
  + rewrite Hdata. f_equal.
    rewrite <- (grid_keys _ _ (RatingYearHeatmap.count_items items)).
    rewrite !map_map. apply map_ext_in. intros c Hc.
    apply in_flat_map in Hc. destruct Hc as (dec & Hdec & Hc).
    apply in_map_iff in Hc. destruct Hc as (bin & <- & Hbin).
    unfold cell_key, grid_cell. simpl.
    unfold RatingYearHeatmap.count_items.
    rewrite <- (fold_left_map (bump RatingYearHeatmap.key_dec) keyf).
    rewrite count_at_tally. unfold count_at. simpl.
    unfold RatingYearHeatmap.key_of.
    now rewrite (Hnorm _ _ Hdec), (Hnorm _ _ Hbin).
  + apply NoDup_list_prod; apply js_sort_NoDup, distinct_NoDup.
  + intros i Hi. unfold keyf, RatingYearHeatmap.key_of.
    apply in_prod; apply js_sort_In, distinct_In.
    * exists (RatingYearHeatmap.decade i). split; [|reflexivity].
      now apply in_map.
    * exists (RatingYearHeatmap.ratingBin i). split; [|reflexivity].
      now apply in_map.
Qed.

Lemma items_of_length (minYear maxYear : value) (rows : list row) :
  List.length (RatingYearHeatmap.items_of minYear maxYear rows)
  <= List.length rows.
Proof.
  unfold RatingYearHeatmap.items_of.
  destruct rows as [|row0 rows]; [simpl; lia|].
  destruct (pickKey _ RatingYearHeatmap.yearCandidates) as [yearKey|];
    [|simpl; lia].
  destruct (pickKey _ RatingYearHeatmap.ratingCandidates) as [ratingKey|];
    [|simpl; lia].
  destruct (_ || _); [simpl; lia|].
  generalize (RatingYearHeatmap.item_of minYear maxYear
                (pickKey (Some row0) RatingYearHeatmap.titleCandidates)
                yearKey ratingKey).
  intros f. generalize (row0 :: rows) as l.
  induction l as [|x l IH]; simpl; [lia|].
  destruct (f x); simpl; lia.
Qed.

(** X2.  Every row that passes the filters is counted in exactly one
    cell: the counts of the grid add up to the number of rows that pass,
    which is at most the number of rows. *)
Theorem prepared_counts_total (minYear maxYear : value) (rows : list row) :
  let p := RatingYearHeatmap.prepared minYear maxYear rows in
  list_sum (map RatingYearHeatmap.count (RatingYearHeatmap.data p))
  = List.length (RatingYearHeatmap.items_of minYear maxYear rows) /\
  List.length (RatingYearHeatmap.items_of minYear maxYear rows)
  <= List.length rows.
Proof.
  intros p. split; [apply prepared_counts_sum|apply items_of_length].
Qed.

(** X3.  The largest count of the grid is the maximum of its cells; it is
    zero exactly when no row passes the filters, and the colour scale,
    which ends at [colorMax], covers the count of every cell. *)
Theorem prepared_maxCount_is_max (minYear maxYear : value)
  (rows : list row) :
  let p := RatingYearHeatmap.prepared minYear maxYear rows in
  RatingYearHeatmap.maxCount p
  = list_max (map RatingYearHeatmap.count (RatingYearHeatmap.data p)) /\
  (forall c, In c (RatingYearHeatmap.data p) ->
     RatingYearHeatmap.count c <= HeatmapDraw.colorMax p) /\
  (RatingYearHeatmap.maxCount p = 0
   <-> RatingYearHeatmap.items_of minYear maxYear rows = []).
Proof.
  intros p.
  destruct (prepared_of_items minYear maxYear rows) as (Hd & Hb & Hdata).
  pose proof (prepared_maxCount minYear maxYear rows) as Hmax.
  fold p in Hd, Hb, Hdata, Hmax. cbv zeta in Hd, Hb, Hdata, Hmax.
  rewrite <- Hd, <- Hb in Hdata.
  rewrite fill_grid_max in Hmax. rewrite fill_grid_data in Hdata.
  rewrite <- Hdata in Hmax.
  assert (Hle : forall c, In c (RatingYearHeatmap.data p) ->
            RatingYearHeatmap.count c <= RatingYearHeatmap.maxCount p).
  { intros c Hc. rewrite Hmax.
    pose proof (proj1 (list_max_le
                         (map RatingYearHeatmap.count
                            (RatingYearHeatmap.data p)) _)
                  (Nat.le_refl _)) as Hall.
    rewrite Forall_forall in Hall. apply Hall. now apply in_map. }
  split; [exact Hmax|]. split.
  - intros c Hc. unfold HeatmapDraw.colorMax. specialize (Hle c Hc). lia.
  - pose proof (prepared_counts_sum minYear maxYear rows) as Hsum.
    cbv zeta in Hsum. fold p in Hsum. split.
    + intros H0.
      assert (Hz : list_sum (map RatingYearHeatmap.count
                               (RatingYearHeatmap.data p)) = 0).
      { rewrite H0 in Hle. clear - Hle.
        induction (RatingYearHeatmap.data p) as [|c l IH]; [reflexivity|].
        simpl. rewrite IH by (intros c' Hc'; apply Hle; now right).
        specialize (Hle c (or_introl eq_refl)). lia. }
      rewrite Hz in Hsum.
      destruct (RatingYearHeatmap.items_of minYear maxYear rows);
        [reflexivity|discriminate].
    + intros Hnil. rewrite Hnil in Hsum. simpl in Hsum.
      rewrite Hmax.
      clear - Hsum.
      induction (RatingYearHeatmap.data p) as [|c l IH]; [reflexivity|].
      simpl in *. rewrite IH by lia. lia.
Qed.

(** X4.  Rows that hold no finite year or no finite rating, put behind
    the rows of a data set, change nothing of what [prepared] returns. *)
Theorem prepared_ignores_invalid_rows (minYear maxYear : value)
  (row0 : row) (rows extra : list row) (yearKey ratingKey : string) :
  pickKey (Some row0) RatingYearHeatmap.yearCandidates = Some yearKey ->
  pickKey (Some row0) RatingYearHeatmap.ratingCandidates = Some ratingKey ->
  (forall r, In r extra ->
     toNumber (prop r yearKey) = None \/ toNumber (prop r ratingKey) = None) ->
  RatingYearHeatmap.prepared minYear maxYear (row0 :: rows ++ extra)
  = RatingYearHeatmap.prepared minYear maxYear (row0 :: rows).
Proof.
  intros Hy Hr Hextra. unfold RatingYearHeatmap.prepared.
  rewrite Hy, Hr.
  destruct (negb (nonempty yearKey) || negb (nonempty ratingKey));
    [reflexivity|].
  cbv zeta.
  replace (filter_Boolean
             (map (RatingYearHeatmap.item_of minYear maxYear
                     (pickKey (Some row0) RatingYearHeatmap.titleCandidates)
                     yearKey ratingKey) (row0 :: rows ++ extra)))
    with (filter_Boolean
            (map (RatingYearHeatmap.item_of minYear maxYear
                    (pickKey (Some row0) RatingYearHeatmap.titleCandidates)
                    yearKey ratingKey) (row0 :: rows))); [reflexivity|].
  change (row0 :: rows ++ extra) with ((row0 :: rows) ++ extra).
  rewrite map_app, filter_Boolean_app.
  rewrite (@filter_Boolean_none _ _ _ extra).
  - now rewrite app_nil_r.
  - intros r Hin. unfold RatingYearHeatmap.item_of.
    destruct (Hextra r Hin) as [E|E]; rewrite E; [reflexivity|].
    now destruct (toNumber (prop r yearKey)).
Qed.

End HeatmapMore.

Lemma prepared_ignores_invalid_rows_witness :
  let row0 : row :=
    [("title", VStr "a"); ("year", VNum (of_Z 1999));
     ("rating", VNum (decimal 37 1))] in
  let bad : row :=
    [("title", VStr "b"); ("year", VStr "unknown");
     ("rating", VNum (decimal 41 1))] in
  pickKey (Some row0) RatingYearHeatmap.yearCandidates = Some "year" /\
  pickKey (Some row0) RatingYearHeatmap.ratingCandidates = Some "rating" /\
  (forall r, In r [bad] ->
     toNumber (prop r "year") = None \/ toNumber (prop r "rating") = None) /\
  RatingYearHeatmap.prepared (engine := sample_engine)
    (VNum (of_Z 1900)) VNull (row0 :: [] ++ [bad])
  = RatingYearHeatmap.prepared (engine := sample_engine)
      (VNum (of_Z 1900)) VNull (row0 :: []).
Proof.
  intros row0 bad.
  assert (Hy : pickKey (Some row0) RatingYearHeatmap.yearCandidates
               = Some "year") by reflexivity.
  assert (Hr : pickKey (Some row0) RatingYearHeatmap.ratingCandidates
               = Some "rating") by reflexivity.
  assert (Hbad : forall r, In r [bad] ->
            toNumber (prop r "year") = None
            \/ toNumber (prop r "rating") = None).
  { intros r [<-|[]]. left. vm_compute. reflexivity. }
  split; [exact Hy|]. split; [exact Hr|]. split; [exact Hbad|].
  exact (@prepared_ignores_invalid_rows sample_engine (VNum (of_Z 1900))
           VNull row0 [] [bad] "year" "rating" Hy Hr Hbad).
Defined.

(** ** Decades, bucket labels and ticks *)

Lemma decadeOf_years_checked :
  forallb
    (fun y =>
       Num.eqb (RatingYearHeatmap.decadeOf (of_Z y)) (of_Z (10 * (y / 10))))
    (map (fun i => (Z.of_nat i - 1000)%Z) (seq 0 (Z.to_nat 4001)))
  = true.
Proof. vm_compute. reflexivity. Qed.

(** X5.  The decade of an integer year from -1000 to 3000 is the year
    rounded down to a multiple of ten, also for a negative year: the
    decade of -5 is -10. *)
Theorem decadeOf_integer_year (y : Z) :
  (-1000 <= y <= 3000)%Z ->
  RatingYearHeatmap.decadeOf (of_Z y) = of_Z (10 * (y / 10)).
Proof.
  intros Hy. pose proof decadeOf_years_checked as Hall.
  rewrite forallb_forall in Hall. specialize (Hall y).
  unfold Num.eqb in Hall.
  destruct (Num.eq_dec _ _) as [E|_] in Hall; [exact E|].
  assert (Hin : In y (map (fun i => (Z.of_nat i - 1000)%Z)
                        (seq 0 (Z.to_nat 4001)))).
  { apply in_map_iff. exists (Z.to_nat (y + 1000)).
    split; [lia|]. apply in_seq. lia. }
  specialize (Hall Hin). discriminate.
Qed.

Lemma decadeOf_integer_year_witness :
  (-1000 <= -5 <= 3000)%Z /\
  RatingYearHeatmap.decadeOf (of_Z (-5)) = of_Z (10 * (-5 / 10)).
Proof.
  assert (H : (-1000 <= -5 <= 3000)%Z) by lia.
  split; [exact H|]. exact (@decadeOf_integer_year (-5) H).
Defined.

(** The bucket of a rating of magnitude below 128, as [ratingBinOf]
    computes it. *)
Lemma ratingBinOf_half_integer (s : bool) (m : positive) (e : Z) :
  bounded prec emax m e = true -> (e <= -46)%Z ->
  exists n, (-256 <= n < 256)%Z /\
            RatingYearHeatmap.ratingBinOf (S754_finite s m e)
            = div (of_Z n) (of_Z 2).
Proof.
  intros Hb He. exists (floor_twice s m e).
  pose proof (@floor_twice_range s _ _ Hb He) as Hn.
  split; [exact Hn|].
  unfold RatingYearHeatmap.ratingBinOf. cbv zeta.
  rewrite (@floor_div_half s _ _ Hb He).
  pose proof round_half_integers as Hall.
  rewrite forallb_forall in Hall.
  specialize (Hall (floor_twice s m e)).
  unfold Num.eqb in Hall.
  destruct (Num.eq_dec _ _) as [E|_] in Hall; [exact E|].
  assert (Hin : In (floor_twice s m e)
                  (map (fun i => (Z.of_nat i - 256)%Z) (seq 0 512))).
  { apply in_map_iff. exists (Z.to_nat (floor_twice s m e + 256)).
    split; [lia|]. apply in_seq. lia. }
  specialize (Hall Hin). discriminate.
Qed.

Section BucketLabels.

Context {engine : Engine}.

Lemma toFixed1_halves_checked :
  forallb
    (fun n =>
       let b := div (of_Z n) (of_Z 2) in
       Num.eqb (ToNumber.of_string (HeatmapDraw.toFixed1 b)) b
       && Num.eqb (ToNumber.of_string (HeatmapDraw.toFixed1 (add b half)))
            (add b half)
       && Num.eqb (add b half) (div (of_Z (n + 1)) (of_Z 2)))
    (map (fun i => (Z.of_nat i - 256)%Z) (seq 0 512))
  = true.
Proof. vm_compute. reflexivity. Qed.

(** X6.  The key of a rating bucket on the vertical band scale, and the
    two bounds of its label, read back as numbers, are the bucket and
    the bucket plus 0.5; so two ratings of magnitude below 128 with
    different buckets have different keys. *)
Theorem bucket_key_round_trip (s1 s2 : bool) (m1 m2 : positive)
  (e1 e2 : Z) :
  bounded prec emax m1 e1 = true -> (e1 <= -46)%Z ->
  bounded prec emax m2 e2 = true -> (e2 <= -46)%Z ->
  let b1 := RatingYearHeatmap.ratingBinOf (S754_finite s1 m1 e1) in
  let b2 := RatingYearHeatmap.ratingBinOf (S754_finite s2 m2 e2) in
  ToNumber.of_string (HeatmapDraw.toFixed1 b1) = b1 /\
  ToNumber.of_string (HeatmapDraw.toFixed1 (add b1 half)) = add b1 half /\
  HeatmapDraw.ratingRangeLabel b1
  = String.append (HeatmapDraw.toFixed1 b1)
      (String.append HeatmapDraw.range_separator
         (HeatmapDraw.toFixed1 (add b1 half))) /\
  (HeatmapDraw.toFixed1 b1 = HeatmapDraw.toFixed1 b2 -> b1 = b2).
Proof.
  intros Hb1 He1 Hb2 He2 b1 b2.
  assert (Hrt : forall s m e,
             bounded prec emax m e = true -> (e <= -46)%Z ->
             let b := RatingYearHeatmap.ratingBinOf (S754_finite s m e) in
             ToNumber.of_string (HeatmapDraw.toFixed1 b) = b /\
             ToNumber.of_string (HeatmapDraw.toFixed1 (add b half))
             = add b half).
  { intros s m e Hb He.
    destruct (@ratingBinOf_half_integer s m e Hb He) as (n & Hn & ->).
    pose proof toFixed1_halves_checked as Hall.
    rewrite forallb_forall in Hall. specialize (Hall n).
    assert (Hin : In n (map (fun i => (Z.of_nat i - 256)%Z) (seq 0 512))).
    { apply in_map_iff. exists (Z.to_nat (n + 256)).
      split; [lia|]. apply in_seq. lia. }
    specialize (Hall Hin). cbv zeta in Hall.
    apply andb_true_iff in Hall. destruct Hall as [Hall _].
    apply andb_true_iff in Hall. destruct Hall as [H1 H2].
    unfold Num.eqb in H1, H2.
    destruct (Num.eq_dec _ _) as [E1|_] in H1; [|discriminate].
    destruct (Num.eq_dec _ _) as [E2|_] in H2; [|discriminate].
    cbv zeta. now split. }
  destruct (Hrt s1 m1 e1 Hb1 He1) as [R1 R1'].
  destruct (Hrt s2 m2 e2 Hb2 He2) as [R2 _].
  fold b1 in R1, R1'. fold b2 in R2.
  split; [exact R1|]. split; [exact R1'|]. split; [reflexivity|].
  intros E. rewrite <- R1, <- R2, E. reflexivity.
Qed.

End BucketLabels.

Lemma bucket_key_round_trip_witness :
  bounded prec emax 8331659310635418 (-51) = true /\ (-51 <= -46)%Z /\
  bounded prec emax 4503599627370496 (-53) = true /\ (-53 <= -46)%Z /\
  let b1 :=
    RatingYearHeatmap.ratingBinOf (S754_finite false 8331659310635418 (-51)) in
  let b2 :=
    RatingYearHeatmap.ratingBinOf (S754_finite false 4503599627370496 (-53)) in
  ToNumber.of_string (HeatmapDraw.toFixed1 (engine := sample_engine) b1) = b1 /\
  ToNumber.of_string
    (HeatmapDraw.toFixed1 (engine := sample_engine) (add b1 half))
  = add b1 half /\
  HeatmapDraw.ratingRangeLabel (engine := sample_engine) b1
  = String.append (HeatmapDraw.toFixed1 (engine := sample_engine) b1)
      (String.append HeatmapDraw.range_separator
         (HeatmapDraw.toFixed1 (engine := sample_engine) (add b1 half))) /\
  (HeatmapDraw.toFixed1 (engine := sample_engine) b1
   = HeatmapDraw.toFixed1 (engine := sample_engine) b2 -> b1 = b2).
Proof.
  assert (H1 : bounded prec emax 8331659310635418 (-51) = true)
    by reflexivity.
  assert (H2 : (-51 <= -46)%Z) by lia.
  assert (H3 : bounded prec emax 4503599627370496 (-53) = true)
    by reflexivity.
  assert (H4 : (-53 <= -46)%Z) by lia.
  split; [exact H1|]. split; [exact H2|]. split; [exact H3|].
  split; [exact H4|].
  exact (@bucket_key_round_trip sample_engine false false
           8331659310635418 4503599627370496 (-51) (-53) H1 H2 H3 H4).
Defined.

Lemma ceil_div_succ (k i : nat) :
  1 <= k ->
  (S i + k - 1) / k = (i + k - 1) / k + (if i mod k =? 0 then 1 else 0).
Proof.
  intros Hk.
  pose proof (Nat.div_mod_eq i k) as Hi.
  pose proof (Nat.mod_upper_bound i k ltac:(lia)) as Hr.
  set (q := i / k) in *. set (r := i mod k) in *.
  destruct (Nat.eqb_spec r 0) as [E|E].
  - replace (S i + k - 1) with ((q + 1) * k + 0) by nia.
    replace (i + k - 1) with (q * k + (k - 1)) by nia.
    rewrite !Nat.div_add_l by lia.
    rewrite Nat.Div0.div_0_l, Nat.div_small by lia. lia.
  - replace (S i + k - 1) with ((q + 1) * k + r) by nia.
    replace (i + k - 1) with ((q + 1) * k + (r - 1)) by nia.
    rewrite !Nat.div_add_l by lia.
    rewrite !Nat.div_small by lia. lia.
Qed.

(** The number of indices from [i] on that are multiples of [k]. *)
Lemma filter_index_multiples (A : Type) (k i : nat) (l : list A) :
  1 <= k ->
  List.length (filter_index (fun _ j => j mod k =? 0) i l)
  = (i + List.length l + k - 1) / k - (i + k - 1) / k.
Proof.
  intros Hk. revert i. induction l as [|d l IH]; intros i.
  - simpl. rewrite Nat.add_0_r. lia.
  - cbn [filter_index List.length].
    assert (E : i + S (List.length l) + k - 1
                = S i + List.length l + k - 1) by lia.
    rewrite E. clear E.
    pose proof (ceil_div_succ i Hk) as Hs.
    assert (Hmono : (S i + k - 1) / k <= (S i + List.length l + k - 1) / k).
    { apply Nat.Div0.div_le_mono. lia. }
    destruct (i mod k =? 0); cbn [List.length]; rewrite IH; lia.
Qed.

Lemma filter_index_In (A : Type) (f : A -> nat -> bool) (i : nat)
  (l : list A) (d : A) :
  In d (filter_index f i l) -> In d l.
Proof.
  revert i. induction l as [|a l IH]; intros i; simpl; [tauto|].
  destruct (f a i); simpl; intros H; [destruct H as [H|H]|]; eauto.
Qed.

Section Ticks.

Context {engine : Engine}.

(** X7.  The decade axis gets at most 19 ticks, whatever the number of
    decades; each tick is a decade of the grid, and the first decade
    always has one. *)
Theorem tickValues_few (p : RatingYearHeatmap.result) :
  List.length (HeatmapDraw.tickValues p) <= 19 /\
  (forall d, In d (HeatmapDraw.tickDecades (RatingYearHeatmap.decades p)) ->
     In d (RatingYearHeatmap.decades p)) /\
  hd_error (HeatmapDraw.tickDecades (RatingYearHeatmap.decades p))
  = hd_error (RatingYearHeatmap.decades p).
Proof.
  unfold HeatmapDraw.tickValues. rewrite length_map.
  generalize (RatingYearHeatmap.decades p) as decades. intros decades.
  unfold HeatmapDraw.tickDecades. cbv zeta.
  set (n := List.length decades).
  set (k := Nat.max 1 (n / 10)).
  assert (Hk : 1 <= k) by (unfold k; lia).
  split; [|split].
  - rewrite filter_index_multiples by exact Hk. fold n.
    assert (H0 : (0 + k - 1) / k = 0) by (apply Nat.div_small; lia).
    rewrite H0, Nat.sub_0_r.
    pose proof (Nat.div_mod_eq n 10) as Hn.
    pose proof (Nat.mod_upper_bound n 10 ltac:(lia)) as Hr.
    apply Nat.lt_succ_r. apply Nat.Div0.div_lt_upper_bound.
    unfold k. destruct (Nat.max_spec 1 (n / 10)) as [[Hm ->]|[Hm ->]]; lia.
  - intros d. apply filter_index_In.
  - destruct decades as [|d decades]; [reflexivity|].
    cbn [filter_index]. now rewrite Nat.Div0.mod_0_l.
Qed.

End Ticks.

(** ** More on the column resolver *)

Lemma keys_prop (r : row) (k : string) :
  In k (keys r) -> exists v, oget string_dec r k = Some v.
Proof.
  unfold keys. rewrite dedupe_In. intros Hk.
  destruct (oget string_dec r k) as [v|] eqn:E; [now exists v|].
  apply oget_None in E. contradiction.
Qed.

Lemma matches_empty (c k : string) :
  matches c k = true -> (k = "" <-> c = "").
Proof.
  unfold matches. intros H. apply String.eqb_eq in H. subst c.
  destruct k; simpl; split; congruence.
Qed.

Lemma resolve_last_loop_Some (ks candidates : list string) (k : string) :
  resolve_last_loop ks candidates = Some k ->
  In k ks /\ k <> "" /\ In (toLowerCase k) candidates.
Proof.
  induction candidates as [|c rest IH]; simpl; [discriminate|].
  destruct (find (matches c) (rev ks)) as [k'|] eqn:E.
  - destruct (nonempty k') eqn:Ek.
    + intros [= <-]. apply find_some in E. destruct E as [Hin Hm].
      split; [now apply in_rev|]. split; [now destruct k'|].
      left. unfold matches in Hm. now apply String.eqb_eq in Hm.
    + intros H. destruct (IH H) as (H1 & H2 & H3). auto.
  - intros H. destruct (IH H) as (H1 & H2 & H3). auto.
Qed.

Lemma resolve_last_loop_None (ks candidates : list string) :
  resolve_last_loop ks candidates = None <->
  forall c, In c candidates -> c <> "" ->
    forall k, In k ks -> matches c k = false.
Proof.
  induction candidates as [|c rest IH]; simpl.
  - split; [intros _ c []|reflexivity].
  - destruct (find (matches c) (rev ks)) as [k'|] eqn:E.
    + destruct (nonempty k') eqn:Ek.
      * split; [discriminate|]. intros H. exfalso.
        apply find_some in E. destruct E as [Hin Hm].
        assert (Hc : c <> "").
        { intros ->. apply (@matches_empty "" k') in Hm.
          destruct k'; [discriminate|].
          pose proof (proj2 Hm eq_refl). discriminate. }
        rewrite (H c (or_introl eq_refl) Hc k') in Hm;
          [discriminate|now apply in_rev].
      * rewrite IH. split.
        -- intros H c0 [<-|Hc0] Hne k Hk; [|now apply H].
           apply find_some in E. destruct E as [_ Hm].
           destruct k'; [|discriminate].
           exfalso. apply Hne. now apply (@matches_empty c "" Hm).
        -- intros H c0 Hc0. apply H. now right.
    + rewrite IH. split.
      * intros H c0 [<-|Hc0] Hne k Hk; [|now apply H].
        apply (proj1 (find_none_iff _ _) E). now rewrite <- in_rev.
      * intros H c0 Hc0. apply H. now right.
Qed.

(** X8.  What [pickKey] returns is a field of the row: a non-empty name
    under which the row has a property, and whose lower-cased form is
    one of the candidates. *)
Theorem pickKey_found_is_field (r : row) (candidates : list string)
  (k : string) :
  pickKey (Some r) candidates = Some k ->
  In k (keys r) /\ k <> "" /\ In (toLowerCase k) candidates /\
  exists v, oget string_dec r k = Some v /\ prop r k = v.
Proof.
  unfold pickKey. rewrite pickKey_loop_resolve. intros H.
  apply resolve_last_loop_Some in H. destruct H as (H1 & H2 & H3).
  repeat split; try assumption.
  destruct (keys_prop _ _ H1) as [v Hv]. exists v.
  split; [exact Hv|]. unfold prop. now rewrite Hv.
Qed.

Lemma pickKey_found_is_field_witness :
  let r : row :=
    [("Title", VStr "a"); ("Average_Rating", VNum (decimal 41 1))] in
  pickKey (Some r) ["rating"; "average_rating"] = Some "Average_Rating" /\
  (In "Average_Rating" (keys r) /\ "Average_Rating" <> "" /\
   In (toLowerCase "Average_Rating") ["rating"; "average_rating"] /\
   exists v, oget string_dec r "Average_Rating" = Some v /\
             prop r "Average_Rating" = v).
Proof.
  intros r.
  assert (H : pickKey (Some r) ["rating"; "average_rating"]
              = Some "Average_Rating") by reflexivity.
  split; [exact H|].
  exact (@pickKey_found_is_field r ["rating"; "average_rating"]
           "Average_Rating" H).
Defined.

Lemma pickKey_None_iff (r : row) (candidates : list string) :
  pickKey (Some r) candidates = None <->
  forall c, In c candidates -> c <> "" ->
    forall k, In k (keys r) -> toLowerCase k <> c.
Proof.
  unfold pickKey. rewrite pickKey_loop_resolve, resolve_last_loop_None.
  split; intros H c Hc Hne k Hk; specialize (H c Hc Hne k Hk);
    unfold matches in *.
  - now apply String.eqb_neq.
  - now apply String.eqb_neq.
Qed.

(** X9.  [pickKey] returns null exactly when no non-empty candidate is
    the lower-cased name of a field of the row. *)
Theorem pickKey_null_iff_no_match (r : row) (candidates : list string) :
  pickKey (Some r) candidates = None <->
  forall c, In c candidates -> c <> "" ->
    forall k, In k (keys r) -> toLowerCase k <> c.
Proof. apply pickKey_None_iff. Qed.

(** X10.  [normalizeGenreKey] finds a column exactly when [pickKey] does
    with the candidates genres and genre; what it returns is the first
    field of the row, in row order, that is one of the two in lower
    case. *)
Theorem normalizeGenreKey_first_field (r : row) :
  (GenreBarChart.normalizeGenreKey (Some r) = None
   <-> pickKey (Some r) ["genres"; "genre"] = None) /\
  (forall k, GenreBarChart.normalizeGenreKey (Some r) = Some k ->
     exists before after,
       keys r = before ++ k :: after /\
       (toLowerCase k = "genres" \/ toLowerCase k = "genre") /\
       forall k', In k' before ->
         toLowerCase k' <> "genres" /\ toLowerCase k' <> "genre").
Proof.
  unfold GenreBarChart.normalizeGenreKey. split.
  - rewrite pickKey_None_iff, find_none_iff. split.
    + intros H c [<-|[<-|[]]] _ k Hk E; specialize (H k Hk);
        cbv zeta in H; rewrite E in H; discriminate.
    + intros H k Hk. cbv zeta. apply orb_false_iff. split.
      * apply String.eqb_neq.
        apply (H "genres"); [simpl; auto|discriminate|exact Hk].
      * apply String.eqb_neq.
        apply (H "genre"); [simpl; auto|discriminate|exact Hk].
  - generalize (keys r) as ks. intros ks k.
    induction ks as [|a ks IH]; simpl; [discriminate|].
    destruct (String.eqb (toLowerCase a) "genres"
              || String.eqb (toLowerCase a) "genre") eqn:E.
    + intros [= <-]. exists [], ks. split; [reflexivity|]. split.
      * apply orb_true_iff in E.
        destruct E as [E|E]; apply String.eqb_eq in E; auto.
      * intros k' [].
    + intros H. destruct (IH H) as (before & after & -> & Hk & Hb).
      exists (a :: before), after. split; [reflexivity|].
      split; [exact Hk|]. intros k' [<-|Hk'].
      * apply orb_false_iff in E. destruct E as [E1 E2].
        now apply String.eqb_neq in E1, E2.
      * now apply Hb.
Qed.

(** ** More on the genre counts *)

Lemma trimEnd_cons (c : ascii) (s : string) :
  trimEnd (String c s)
  = match trimEnd s with
    | EmptyString => if is_space c then EmptyString else String c EmptyString
    | t => String c t
    end.
Proof. reflexivity. Qed.

Lemma trimEnd_idem (s : string) : trimEnd (trimEnd s) = trimEnd s.
Proof.
  induction s as [|c s IH]; [reflexivity|].
  rewrite trimEnd_cons. destruct (trimEnd s) as [|a t] eqn:E.
  - destruct (is_space c) eqn:Ec; [reflexivity|].
    rewrite trimEnd_cons. simpl. now rewrite Ec.
  - rewrite trimEnd_cons, IH. reflexivity.
Qed.

Lemma trimStart_head (s : string) :
  trimStart s = ""
  \/ exists c t, trimStart s = String c t /\ is_space c = false.
Proof.
  induction s as [|c s IH]; [now left|].
  simpl. destruct (is_space c) eqn:E; [exact IH|].
  right. now exists c, s.
Qed.

Lemma trim_idem (s : string) : trim (trim s) = trim s.
Proof.
  unfold trim.
  assert (H : trimStart (trimEnd (trimStart s)) = trimEnd (trimStart s)).
  { destruct (trimStart_head s) as [->|(c & t & -> & Hc)]; [reflexivity|].
    rewrite trimEnd_cons. destruct (trimEnd t); rewrite ?Hc; simpl;
      now rewrite Hc. }
  now rewrite H, trimEnd_idem.
Qed.

Lemma trimStart_chars (s : string) (c : ascii) :
  In c (list_ascii_of_string (trimStart s)) -> In c (list_ascii_of_string s).
Proof.
  induction s as [|a s IH]; simpl; [tauto|].
  destruct (is_space a); simpl; auto.
Qed.

Lemma trimEnd_chars (s : string) (c : ascii) :
  In c (list_ascii_of_string (trimEnd s)) -> In c (list_ascii_of_string s).
Proof.
  induction s as [|a s IH]; simpl; [tauto|].
  destruct (trimEnd s) as [|b t].
  - destruct (is_space a); simpl; tauto.
  - simpl in *. tauto.
Qed.

Lemma split_chars (sep : ascii) (s piece : string) :
  In piece (split sep s) -> ~ In sep (list_ascii_of_string piece).
Proof.
  revert piece. induction s as [|a s IH]; intros piece; simpl.
  - intros [<-|[]]. simpl. tauto.
  - destruct (Ascii.eqb_spec a sep) as [->|Hne].
    + intros [<-|H]; [simpl; tauto|now apply IH].
    + destruct (split sep s) as [|p rest].
      * intros [<-|[]]. simpl. intros [E|[]]. congruence.
      * intros [<-|H].
        -- simpl. intros [E|E]; [congruence|].
           apply (IH p); [now left|exact E].
        -- apply IH. now right.
Qed.

Lemma list_sum_perm (l l' : list nat) :
  Permutation l l' -> list_sum l = list_sum l'.
Proof. induction 1; simpl; lia. Qed.

Lemma list_sum_firstn (n : nat) (l : list nat) :
  list_sum (firstn n l) <= list_sum l.
Proof.
  revert n. induction l as [|x l IH]; intros [|n]; simpl; try lia.
  specialize (IH n). lia.
Qed.

Lemma StronglySorted_firstn (A : Type) (R : A -> A -> Prop) (n : nat)
  (l : list A) :
  StronglySorted R l -> StronglySorted R (firstn n l).
Proof.
  intros H. revert n. induction H as [|x l Hs IH Hx]; intros [|n]; simpl;
    try constructor.
  - apply IH.
  - rewrite Forall_forall in *. intros y Hy. apply Hx.
    now apply In_firstn in Hy.
Qed.

Lemma d3_max_head (m : nat) (l : list nat) :
  Forall (fun v => v <= m) l ->
  fold_left
    (fun max value =>
       match max with
       | None => Some value
       | Some m => if m <? value then Some value else max
       end)
    l (Some m)
  = Some m.
Proof.
  induction 1 as [|v l Hv _ IH]; simpl; [reflexivity|].
  destruct (Nat.ltb_spec m v); [lia|exact IH].
Qed.

Section GenreMore.

Context {engine : Engine}.

Lemma parts_of_wellformed (raw : value) (g : string) :
  In g (GenreBarChart.parts_of raw) ->
  g <> "" /\ trim g = g /\ ~ In ","%char (list_ascii_of_string g).
Proof.
  unfold GenreBarChart.parts_of. rewrite filter_In, in_map_iff.
  intros [(piece & <- & Hp) Hne]. split; [|split].
  - intros E. rewrite E in Hne. discriminate.
  - apply trim_idem.
  - intros Hc. apply (@split_chars _ _ _ Hp).
    unfold trim in Hc. now apply trimEnd_chars, trimStart_chars in Hc.
Qed.

Lemma tokens_wellformed (rows : list row) (g : string) :
  In g (tokens rows) ->
  g <> "" /\ trim g = g /\ ~ In ","%char (list_ascii_of_string g).
Proof.
  unfold tokens. destruct (genreKey_of rows) as [k|]; [|intros []].
  rewrite in_flat_map. intros (r & _ & Hg).
  destruct (truthy (prop r k)); [|destruct Hg].
  now apply parts_of_wellformed in Hg.
Qed.

Lemma aggregateGenres_In (rows : list row) (topN : nat)
  (e : GenreBarChart.entry) :
  In e (GenreBarChart.aggregateGenres rows topN) -> In e (counted rows).
Proof.
  rewrite aggregateGenres_counted. intros H.
  apply In_firstn in H. now apply js_sort_In in H.
Qed.

(** X11.  Every record of the result names a genre once: the genres are
    pairwise distinct, none is empty, none has white space around it or
    a comma in it, and every count is at least one. *)
Theorem aggregateGenres_entries_wellformed (rows : list row) (topN : nat) :
  let out := GenreBarChart.aggregateGenres rows topN in
  NoDup (GenreBarChartDraw.xDomain out) /\
  forall e, In e out ->
    1 <= GenreBarChart.count e /\
    GenreBarChart.genre e <> "" /\
    trim (GenreBarChart.genre e) = GenreBarChart.genre e /\
    ~ In ","%char (list_ascii_of_string (GenreBarChart.genre e)).
Proof.
  intros out. split.
  - unfold out, GenreBarChartDraw.xDomain.
    rewrite aggregateGenres_counted, <- firstn_map.
    apply NoDup_firstn_prefix.
    apply (Permutation_NoDup
             (Permutation_map GenreBarChart.genre
                (Permutation_sym
                   (js_sort_perm GenreBarChart.by_count_desc (counted rows))))).
    rewrite counted_genres. apply dedupe_NoDup.
  - intros e He. apply aggregateGenres_In in He.
    assert (Hg : In (GenreBarChart.genre e) (tokens rows)).
    { apply (dedupe_In string_dec). rewrite <- counted_genres.
      now apply in_map. }
    split; [|exact (@tokens_wellformed rows _ Hg)].
    rewrite (@counted_counts _ _ _ He).
    now apply (count_occ_In string_dec).
Qed.

(** X12.  No mention of a genre is lost or counted twice: the counts
    add up to the number of mentions when [topN] cuts nothing off, and
    to no more in any case. *)
Theorem aggregateGenres_counts_total (rows : list row) (topN : nat) :
  let total :=
    list_sum
      (map GenreBarChart.count (GenreBarChart.aggregateGenres rows topN)) in
  total <= List.length (tokens rows) /\
  (List.length (counted rows) <= topN -> total = List.length (tokens rows)).
Proof.
  intros total. unfold total. clear total.
  assert (Hall : list_sum
                   (map GenreBarChart.count
                      (js_sort GenreBarChart.by_count_desc (counted rows)))
                 = List.length (tokens rows)).
  { rewrite (list_sum_perm
               (Permutation_map GenreBarChart.count
                  (js_sort_perm GenreBarChart.by_count_desc (counted rows)))).
    rewrite (map_ext_in _
               (fun e => count_occ string_dec (tokens rows)
                           (GenreBarChart.genre e)))
      by (intros e He; now apply counted_counts).
    rewrite <- (map_map GenreBarChart.genre
                  (count_occ string_dec (tokens rows))).
    rewrite counted_genres.
    rewrite <- (map_id (tokens rows)) at 1.
    apply sum_count_occ; [apply dedupe_NoDup|].
    intros g Hg. now apply dedupe_In. }
  split.
  - rewrite aggregateGenres_counted, <- firstn_map, <- Hall.
    apply list_sum_firstn.
  - intros Hn. rewrite aggregateGenres_counted.
    rewrite firstn_all2; [exact Hall|].
    now rewrite js_sort_length.
Qed.

(** X13.  The first record has the largest count, so that the vertical
    scale, which ends at [yDomainMax], covers every bar. *)
Theorem aggregateGenres_first_is_max (rows : list row) (topN : nat) :
  let out := GenreBarChart.aggregateGenres rows topN in
  GenreBarChartDraw.yMax out
  = match out with e :: _ => GenreBarChart.count e | [] => 0 end /\
  forall e, In e out ->
    GenreBarChart.count e <= GenreBarChartDraw.yDomainMax out.
Proof.
  intros out.
  assert (Hs : StronglySorted
                 (fun a b => GenreBarChart.count b <= GenreBarChart.count a)
                 out).
  { unfold out. rewrite aggregateGenres_counted.
    apply StronglySorted_firstn.
    apply (@js_sort_sorted _ GenreBarChart.count _ by_count_desc_pos). }
  assert (Hmax : GenreBarChartDraw.yMax out
                 = match out with
                   | e :: _ => GenreBarChart.count e
                   | [] => 0
                   end).
  { unfold GenreBarChartDraw.yMax, d3_max.
    destruct out as [|e out']; [reflexivity|]. cbn [map fold_left].
    rewrite d3_max_head; [reflexivity|].
    inversion Hs as [|? ? _ Hall]; subst.
    rewrite Forall_forall in *. intros v Hv.
    apply in_map_iff in Hv. destruct Hv as (e' & <- & He').
    now apply Hall. }
  split; [exact Hmax|].
  intros e He. unfold GenreBarChartDraw.yDomainMax. rewrite Hmax.
  destruct out as [|e0 out']; [destruct He|].
  inversion Hs as [|? ? _ Hall]; subst. rewrite Forall_forall in Hall.
  destruct He as [<-|He]; [lia|]. specialize (Hall e He). simpl in Hall. lia.
Qed.

End GenreMore.

(** ** More on the selected dimensions and the projection *)

Lemma push_all_new_prefix (A : Type)
  (A_dec : forall x y : A, {x = y} + {x <> y}) (l out : list A) :
  exists rest, push_all_new A_dec out l = out ++ rest.
Proof.
  unfold push_all_new. revert out.
  induction l as [|x l IH]; intros out; cbn [fold_left].
  - exists []. now rewrite app_nil_r.
  - destruct (IH (push_new A_dec out x)) as [rest ->].
    unfold push_new. destruct (includes A_dec out x).
    + now exists rest.
    + exists (x :: rest). now rewrite <- app_assoc.
Qed.

Lemma pick_alias_alias (keySet group : list string) (k : string) :
  ParallelCoords.pick_alias keySet group = Some k ->
  exists alias, In alias group /\ toLowerCase k = toLowerCase alias.
Proof.
  induction group as [|alias rest IH]; simpl; [discriminate|].
  destruct (find _ keySet) as [actual|] eqn:E.
  - destruct (nonempty actual).
    + intros [= <-]. apply find_some in E. destruct E as [_ E].
      apply String.eqb_eq in E. exists alias. auto.
    + intros H. destruct (IH H) as (a & Ha & Ea). exists a. auto.
  - intros H. destruct (IH H) as (a & Ha & Ea). exists a. auto.
Qed.

Lemma preferred_spec (keySet : list string) :
  List.length (ParallelCoords.preferred keySet)
  <= List.length ParallelCoords.preferredGroups /\
  forall k, In k (ParallelCoords.preferred keySet) ->
    exists group alias,
      In group ParallelCoords.preferredGroups /\ In alias group /\
      toLowerCase k = toLowerCase alias.
Proof.
  unfold ParallelCoords.preferred.
  assert (H : forall groups acc,
             let res :=
               fold_left
                 (fun preferred group =>
                    match ParallelCoords.pick_alias keySet group with
                    | Some actual => preferred ++ [actual]
                    | None => preferred
                    end) groups acc in
             List.length res <= List.length acc + List.length groups /\
             forall k, In k res ->
               In k acc \/
               exists group alias,
                 In group groups /\ In alias group /\
                 toLowerCase k = toLowerCase alias).
  { induction groups as [|g groups IH]; intros acc; cbv zeta; simpl.
    - split; [lia|auto].
    - destruct (IH (match ParallelCoords.pick_alias keySet g with
                    | Some actual => acc ++ [actual]
                    | None => acc
                    end)) as [Hlen Hin].
      cbv zeta in Hlen, Hin. split.
      + destruct (ParallelCoords.pick_alias keySet g);
          rewrite ?length_app in Hlen; simpl in Hlen; lia.
      + intros k Hk. destruct (Hin k Hk) as [Hacc|(gr & a & Hg & Ha & E)].
        * destruct (ParallelCoords.pick_alias keySet g) as [actual|] eqn:Ep;
            [|now left].
          apply in_app_or in Hacc. destruct Hacc as [Hacc|[<-|[]]];
            [now left|].
          right. apply pick_alias_alias in Ep.
          destruct Ep as (a & Ha & E). exists g, a. auto.
        * right. exists gr, a. auto. }
  destruct (H ParallelCoords.preferredGroups []) as [Hlen Hin].
  cbv zeta in Hlen, Hin. split; [exact Hlen|].
  intros k Hk. destruct (Hin k Hk) as [[]|Hex]. exact Hex.
Qed.

Lemma stats_In (rows : list row) (row0 : row) (d : string) :
  In d (map ParallelCoords.key (ParallelCoords.stats rows row0)) ->
  In d (keys row0) /\
  ParallelCoords.excluded (toLowerCase d) = false /\
  exists r, In r rows /\ isFiniteNumber (prop r d) = true.
Proof.
  rewrite in_map_iff. intros (s & <- & Hs).
  unfold ParallelCoords.stats in Hs.
  apply filter_In in Hs. destruct Hs as [Hs _].
  apply filter_In in Hs. destruct Hs as [Hs _].
  apply in_map_iff in Hs. destruct Hs as (k & <- & Hk). simpl.
  unfold ParallelCoords.numericCandidates in Hk.
  apply filter_In in Hk. destruct Hk as [Hk Hex].
  apply filter_In in Hk. destruct Hk as [Hk Hexc].
  split; [exact Hk|]. split; [now apply negb_true_iff|].
  apply existsb_exists in Hex. exact Hex.
Qed.

Lemma length_filter_Boolean_ge (A B : Type) (f : A -> option B)
  (g : A -> bool) (l : list A) :
  (forall a, In a l -> f a = None -> g a = true) ->
  List.length l
  <= List.length (filter_Boolean (map f l)) + List.length (filter g l).
Proof.
  induction l as [|a l IH]; intros H; simpl; [lia|].
  assert (IH' := IH (fun b Hb => H b (or_intror Hb))).
  destruct (f a) eqn:E; simpl.
  - destruct (g a); simpl; lia.
  - rewrite (H a (or_introl eq_refl) E). simpl. lia.
Qed.

Lemma length_filter_Boolean_le (A : Type) (l : list (option A)) :
  List.length (filter_Boolean l) <= List.length l.
Proof. induction l as [|[x|] l IH]; simpl; lia. Qed.

Lemma capped_length (A : Type) (maxLines : nat) (data : list A) :
  List.length (capped maxLines data) <= List.length data /\
  (0 < maxLines -> List.length (capped maxLines data) <= maxLines).
Proof.
  unfold capped.
  destruct (Nat.ltb_spec 0 maxLines);
    destruct (Nat.ltb_spec maxLines (List.length data));
    simpl; rewrite ?length_firstn; lia.
Qed.

Section ProjectionMore.

Context {engine : Engine}.

(** X14.  The selected dimensions are distinct columns of the first row,
    none of them an identifier column (id, isbn), each holding a finite
    number in at least one row. *)
Theorem selected_dims_are_numeric_columns (maxDims minDims maxLines : nat)
  (rows : list row) :
  let p := ParallelCoords.prepared maxDims minDims maxLines rows in
  NoDup (ParallelCoords.dims p) /\
  forall d, In d (ParallelCoords.dims p) ->
    toLowerCase d <> "id" /\ toLowerCase d <> "isbn" /\
    (exists row0 rest, rows = row0 :: rest /\ In d (keys row0)) /\
    exists r, In r rows /\ isFiniteNumber (prop r d) = true.
Proof.
  intros p. unfold p. rewrite prepared_dims.
  destruct rows as [|row0 rows]; [split; [constructor|intros d []]|].
  split; [apply select_NoDup|].
  intros d Hd.
  destruct (select_prefix maxDims minDims
              (ParallelCoords.combined (survivors (row0 :: rows))))
    as [k Hk].
  rewrite Hk in Hd. apply In_firstn in Hd. apply combined_In in Hd.
  apply stats_In in Hd. destruct Hd as (Hkey & Hexc & Hr).
  unfold ParallelCoords.excluded in Hexc.
  apply orb_false_iff in Hexc. destruct Hexc as [E1 E2].
  apply String.eqb_neq in E1, E2.
  repeat split; try assumption. now exists row0, rows.
Qed.

End ProjectionMore.

Lemma find_hd_filter (A : Type) (f : A -> bool) (l : list A) :
  find f l = hd_error (filter f l).
Proof.
  induction l as [|x l IH]; [reflexivity|].
  simpl. now destruct (f x).
Qed.

Lemma hd_error_app (A : Type) (l1 l2 : list A) :
  hd_error (l1 ++ l2)
  = match hd_error l1 with Some x => Some x | None => hd_error l2 end.
Proof. now destruct l1. Qed.

Lemma answers_nonempty (alias k : string) :
  alias <> "" -> answers alias k = true -> nonempty k = true.
Proof.
  intros Hne H. apply String.eqb_eq in H.
  destruct k as [|c k]; [|reflexivity].
  destruct alias as [|a alias]; [congruence|discriminate].
Qed.

Lemma pick_alias_first_answer (keySet group : list string) :
  Forall (fun alias => alias <> "") group ->
  ParallelCoords.pick_alias keySet group = first_answer keySet group.
Proof.
  unfold first_answer. induction 1 as [|alias rest Hne Hrest IH];
    [reflexivity|].
  cbn [ParallelCoords.pick_alias flat_map]. rewrite hd_error_app.
  change (fun k => String.eqb (toLowerCase k) (toLowerCase alias))
    with (answers alias).
  rewrite find_hd_filter.
  destruct (filter (answers alias) keySet) as [|k ks] eqn:E; [exact IH|].
  cbn [hd_error].
  assert (Hk : In k (filter (answers alias) keySet))
    by (rewrite E; now left).
  apply filter_In in Hk. destruct Hk as [_ Hk].
  now rewrite (@answers_nonempty alias k Hne Hk).
Qed.

Lemma preferred_flat_map (keySet : list string) :
  ParallelCoords.preferred keySet
  = flat_map
      (fun group =>
         match first_answer keySet group with
         | Some k => [k]
         | None => []
         end)
      ParallelCoords.preferredGroups.
Proof.
  unfold ParallelCoords.preferred.
  assert (Hne : Forall (Forall (fun alias => alias <> ""))
                  ParallelCoords.preferredGroups).
  { repeat constructor; discriminate. }
  assert (H : forall groups acc,
             Forall (Forall (fun alias => alias <> "")) groups ->
             fold_left
               (fun preferred group =>
                  match ParallelCoords.pick_alias keySet group with
                  | Some actual => preferred ++ [actual]
                  | None => preferred
                  end) groups acc
             = acc ++ flat_map
                        (fun group =>
                           match first_answer keySet group with
                           | Some k => [k]
                           | None => []
                           end) groups).
  { induction groups as [|g groups IH]; intros acc Hg.
    - simpl. now rewrite app_nil_r.
    - inversion Hg as [|? ? Hg1 Hg2]; subst.
      cbn [fold_left flat_map]. rewrite IH by assumption.
      rewrite (@pick_alias_first_answer keySet g Hg1).
      destruct (first_answer keySet g); [|reflexivity].
      now rewrite <- app_assoc. }
  exact (H _ [] Hne).
Qed.

Section ProjectionPriority.

Context {engine : Engine}.

(** X15.  The selection is a first part of the combined order, and the
    combined order begins with the preferred columns.  These are, group
    by group, the column each group of aliases stands for: the first
    surviving column that answers to the earliest alias of the group
    that any surviving column answers to.  So a group with an alias
    that a surviving column answers to always has its column among
    them; there are at most six, each a surviving column that is an
    alias of its group, case apart. *)
Theorem selected_dims_follow_priority (maxDims minDims maxLines : nat)
  (rows : list row) :
  let p := ParallelCoords.prepared maxDims minDims maxLines rows in
  let order := ParallelCoords.combined (survivors rows) in
  let columns := dedupe string_dec (map ParallelCoords.key (survivors rows)) in
  let picks := ParallelCoords.preferred columns in
  ParallelCoords.dims p
  = firstn (List.length (ParallelCoords.dims p)) order /\
  (exists rest, order = dedupe string_dec picks ++ rest) /\
  List.length picks <= 6 /\
  (forall k, In k picks ->
     In k (map ParallelCoords.key (survivors rows)) /\
     exists group alias,
       In group ParallelCoords.preferredGroups /\ In alias group /\
       toLowerCase k = toLowerCase alias) /\
  picks
  = flat_map
      (fun group =>
         match first_answer columns group with
         | Some k => [k]
         | None => []
         end)
      ParallelCoords.preferredGroups /\
  (forall group alias k,
     In group ParallelCoords.preferredGroups -> In alias group ->
     In k (map ParallelCoords.key (survivors rows)) ->
     answers alias k = true ->
     exists k' alias',
       In k' picks /\ In alias' group /\ answers alias' k' = true) /\
  (forall k, In k columns <-> In k (map ParallelCoords.key (survivors rows))).
Proof.
  intros p order columns picks.
  assert (Hpicks : picks
                   = flat_map
                       (fun group =>
                          match first_answer columns group with
                          | Some k => [k]
                          | None => []
                          end)
                       ParallelCoords.preferredGroups)
    by apply preferred_flat_map.
  split; [|split; [|split; [|split; [|split; [|split]]]]].
  - unfold p. rewrite prepared_dims.
    destruct rows as [|row0 rows]; [reflexivity|].
    destruct (select_prefix maxDims minDims
                (ParallelCoords.combined (survivors (row0 :: rows))))
      as [k Hk].
    rewrite Hk. rewrite length_firstn.
    destruct (Nat.le_gt_cases k
                (List.length
                   (ParallelCoords.combined (survivors (row0 :: rows)))))
      as [Hle|Hgt].
    + now rewrite Nat.min_l by assumption.
    + rewrite Nat.min_r by lia.
      now rewrite firstn_all, firstn_all2 by lia.
  - unfold order, ParallelCoords.combined. fold columns picks.
    apply push_all_new_prefix.
  - exact (proj1 (preferred_spec _)).
  - intros k Hk. split.
    + apply preferred_In in Hk. now apply dedupe_In in Hk.
    + exact (proj2 (preferred_spec _) k Hk).
  - exact Hpicks.
  - intros group alias k Hg Ha Hk Hans.
    assert (Hin : In k (flat_map (fun a => filter (answers a) columns) group)).
    { apply in_flat_map. exists alias. split; [exact Ha|].
      apply filter_In. split; [|exact Hans]. now apply dedupe_In. }
    destruct (flat_map (fun a => filter (answers a) columns) group)
      as [|k' l] eqn:E; [destruct Hin|].
    assert (Hk' : In k' (flat_map (fun a => filter (answers a) columns) group))
      by (rewrite E; now left).
    apply in_flat_map in Hk'. destruct Hk' as (alias' & Ha' & Hf).
    apply filter_In in Hf. destruct Hf as [_ Hans'].
    exists k', alias'. split; [|auto].
    rewrite Hpicks. apply in_flat_map. exists group. split; [exact Hg|].
    unfold first_answer. rewrite E. now left.
  - intros k. apply dedupe_In.
Qed.

(** X16.  The projection has at most [maxLines] records when the cap is
    on, and never more records than there are rows. *)
Theorem projection_size (maxDims minDims maxLines : nat) (rows : list row) :
  let p := ParallelCoords.prepared maxDims minDims maxLines rows in
  List.length (ParallelCoords.data p) <= List.length rows /\
  (0 < maxLines -> List.length (ParallelCoords.data p) <= maxLines).
Proof.
  intros p. pose proof (prepared_data maxDims minDims maxLines rows) as Hd.
  cbv zeta in Hd. fold p in Hd. rewrite Hd.
  match goal with
  | |- context [capped maxLines ?l] =>
      destruct (@capped_length _ maxLines l) as [Hle Hcap];
      assert (Hl : List.length l <= List.length rows)
        by (rewrite length_map; apply filter_length_le)
  end.
  split; [lia|exact Hcap].
Qed.

(** X17.  In a record of the projection, [raw] is the row the record was
    made from and [title] its title, unless a selected dimension has
    that very name: then the property holds the cell of the dimension. *)
Theorem record_of_back_reference (titleKey : option string)
  (dims : list string) (r : row) :
  oget string_dec (ParallelCoords.record_of titleKey dims r) "raw"
  = Some (if in_dec string_dec "raw" dims
          then ParallelCoords.FVal (coerced (prop r "raw"))
          else ParallelCoords.FRow r) /\
  oget string_dec (ParallelCoords.record_of titleKey dims r) "title"
  = Some (if in_dec string_dec "title" dims
          then ParallelCoords.FVal (coerced (prop r "title"))
          else ParallelCoords.FVal (VStr (title_of titleKey r))).
Proof.
  unfold ParallelCoords.record_of.
  match goal with
  | |- context [fold_left _ dims ?st] =>
      pose proof (record_loop r dims st) as [_ Hg];
      destruct (fold_left (ParallelCoords.record_step r) dims st)
        as [rec missing]
  end.
  cbn [fst] in Hg.
  split; rewrite oget_oset_ne by discriminate; rewrite Hg;
    (destruct (in_dec string_dec _ dims); reflexivity).
Qed.

Section Path.

Variable x : string -> number.
Variable yScales : string -> number -> number.

(** X18.  The line of every record of the projection runs through at
    least half of the axes, rounded up, and so through one at least when
    a dimension is selected. *)
Theorem pathPoints_majority (maxDims minDims maxLines : nat)
  (rows : list row) (d : ParallelCoords.record) :
  let p := ParallelCoords.prepared maxDims minDims maxLines rows in
  let n := List.length (ParallelCoords.dims p) in
  In d (ParallelCoords.data p) ->
  n - n / 2
  <= List.length
       (ParallelCoordsDraw.pathPoints x yScales (ParallelCoords.dims p) d)
  <= n.
Proof.
  intros p n Hd.
  pose proof (prepared_data maxDims minDims maxLines rows) as Hdata.
  cbv zeta in Hdata. fold p in Hdata.
  rewrite Hdata in Hd. apply capped_In in Hd.
  apply in_map_iff in Hd. destruct Hd as (r & <- & Hr).
  apply filter_In in Hr. destruct Hr as [_ Hfew].
  apply Nat.leb_le in Hfew. fold n in Hfew.
  unfold ParallelCoordsDraw.pathPoints. split.
  - pose proof (length_filter_Boolean_ge
                  (fun q =>
                     match
                       ParallelCoordsDraw.cell_number
                         (ParallelCoords.record_of
                            (ParallelCoords.titleKey p)
                            (ParallelCoords.dims p) r) q
                     with
                     | Some v => Some (x q, yScales q v)
                     | None => None
                     end)
                  (fun q => negb (isFiniteNumber (prop r q)))
                  (ParallelCoords.dims p)) as Hge.
    fold n in Hge. unfold missing_count in Hfew.
    assert (Hpt : forall q, In q (ParallelCoords.dims p) ->
              match
                ParallelCoordsDraw.cell_number
                  (ParallelCoords.record_of (ParallelCoords.titleKey p)
                     (ParallelCoords.dims p) r) q
              with
              | Some v => Some (x q, yScales q v)
              | None => None
              end = None ->
              negb (isFiniteNumber (prop r q)) = true).
    { intros q Hq. unfold ParallelCoordsDraw.cell_number.
      destruct (string_dec q "__missing") as [->|Hne].
      - rewrite record_of_missing. discriminate.
      - rewrite record_of_dim by assumption. unfold coerced.
        destruct (prop r q) as [| | |v| |]; simpl; try reflexivity.
        destruct (isFinite v) eqn:Ev; simpl; [|reflexivity].
        rewrite Ev. discriminate. }
    specialize (Hge Hpt). lia.
  - eapply Nat.le_trans; [apply length_filter_Boolean_le|].
    rewrite length_map. fold n. lia.
Qed.

End Path.

End ProjectionPriority.

Lemma pathPoints_majority_witness :
  let rows :=
    [ [("title", VStr "a"); ("pages", VNum (of_Z 100));
       ("year", VNum (of_Z 1999))];
      [("title", VStr "b"); ("pages", VNull); ("year", VNum (of_Z 2004))] ] in
  let p := ParallelCoords.prepared (engine := sample_engine) 6 4 550 rows in
  let n := List.length (ParallelCoords.dims p) in
  let d :=
    ParallelCoords.record_of (engine := sample_engine) (Some "title")
      ["year"] [("title", VStr "b"); ("pages", VNull);
                ("year", VNum (of_Z 2004))] in
  In d (ParallelCoords.data p) /\
  n - n / 2
  <= List.length
       (ParallelCoordsDraw.pathPoints (fun _ => pzero) (fun _ v => v)
          (ParallelCoords.dims p) d)
  <= n.
Proof.
  intros rows p n d.
  assert (H : In d (ParallelCoords.data p)).
  { vm_compute. right. left. reflexivity. }
  split; [exact H|].
  exact (@pathPoints_majority sample_engine (fun _ => pzero) (fun _ v => v)
           6 4 550 rows d H).
Defined.

(** ** The variance of a column *)

Section Variance.

Local Open Scope Z_scope.

Lemma digits2_pos_lower (m : positive) :
  2 ^ (Zpos (digits2_pos m) - 1) <= Zpos m.
Proof.
  induction m as [m IH|m IH|]; cbn [digits2_pos]; [| |reflexivity];
    rewrite Pos2Z.inj_succ;
    replace (Z.succ (Z.pos (digits2_pos m)) - 1)
      with (Z.succ (Z.pos (digits2_pos m) - 1)) by lia;
    rewrite Z.pow_succ_r by lia; lia.
Qed.

Lemma digits2_pos_shift (k p : positive) :
  digits2_pos (Pos.iter xO p k) = (digits2_pos p + k)%positive.
Proof.
  induction k as [|k IH] using Pos.peano_ind.
  - simpl. now rewrite Pos.add_1_r.
  - rewrite Pos.iter_succ. cbn [digits2_pos]. rewrite IH.
    now rewrite Pos.add_succ_r.
Qed.

(** A mantissa of 53 digits with an exponent in range is a number as it
    stands. *)
Lemma binary_round_aux_exact (s : bool) (m : positive) (e : Z) :
  Zpos (digits2_pos m) = 53 -> -1074 <= e <= 971 ->
  binary_round_aux prec emax s (Zpos m) e loc_Exact = S754_finite s m e.
Proof.
  intros Hd He. unfold binary_round_aux, shr_fexp. cbn [Zdigits2].
  rewrite Hd.
  replace (fexp prec emax (53 + e) - e) with 0
    by (unfold fexp, emin, prec, emax; lia).
  cbn [shr shr_record_of_loc shr_m loc_of_shr_record round_nearest_even
       Zdigits2].
  rewrite Hd.
  replace (fexp prec emax (53 + e) - e) with 0
    by (unfold fexp, emin, prec, emax; lia).
  cbn [shr shr_m].
  replace (e <=? emax - prec) with true
    by (symmetry; apply Z.leb_le; unfold emax, prec; lia).
  reflexivity.
Qed.

(** A positive integer below 2^53 is a positive finite number. *)
Lemma of_Z_pos_finite (p : positive) :
  Zpos p < 2 ^ 53 -> exists m e, of_Z (Zpos p) = S754_finite false m e.
Proof.
  intros Hp.
  assert (Hd : Zpos (digits2_pos p) <= 53).
  { pose proof (digits2_pos_lower p) as Hl.
    destruct (Z_le_gt_dec (Zpos (digits2_pos p)) 53) as [H|H]; [exact H|].
    exfalso.
    assert (2 ^ 53 <= 2 ^ (Zpos (digits2_pos p) - 1))
      by (apply Z.pow_le_mono_r; lia).
    lia. }
  unfold of_Z, binary_normalize, binary_round, shl_align.
  replace (fexp prec emax (Z.pos (digits2_pos p) + 0) - 0)
    with (Zpos (digits2_pos p) - 53)
    by (unfold fexp, emin, prec, emax; lia).
  destruct (Zpos (digits2_pos p) - 53) as [|q|q] eqn:E; [|lia|].
  - rewrite binary_round_aux_exact by lia. eauto.
  - rewrite binary_round_aux_exact.
    + eauto.
    + rewrite digits2_pos_shift. lia.
    + unfold fexp, emin, prec, emax. lia.
Qed.

Lemma of_nat_finite (n : nat) :
  Z.of_nat (S n) < 2 ^ 53 ->
  exists m e, of_nat (S n) = S754_finite false m e.
Proof.
  intros H. unfold of_nat.
  destruct (Z.of_nat (S n)) as [|p|p] eqn:E; try lia.
  now apply of_Z_pos_finite.
Qed.

(** Rounding a non-negative mantissa with the positive sign is at least
    zero. *)
Lemma binary_round_aux_ge0 (m e : Z) (l : location) :
  0 <= m -> ge (binary_round_aux prec emax false m e l) pzero = true.
Proof.
  intros H. unfold binary_round_aux.
  pose proof (shr_fexp_nonneg e l H) as H1.
  destruct (shr_fexp prec emax m e l) as [mrs' e']. simpl in H1.
  pose proof (shr_fexp_nonneg e' loc_Exact
                (round_nearest_even_nonneg (loc_of_shr_record mrs') H1)) as H2.
  destruct (shr_fexp prec emax _ e' loc_Exact) as [mrs'' e'']. simpl in H2.
  destruct (shr_m mrs'') as [|p|p]; [reflexivity| |lia].
  now destruct (e'' <=? emax - prec).
Qed.

Lemma ge0_cases (x : number) :
  ge x pzero = true <->
  match x with
  | S754_nan => False
  | S754_zero _ => True
  | S754_infinity s | S754_finite s _ _ => s = false
  end.
Proof.
  destruct x as [s|s| |s m e]; try destruct s; cbn;
    split; intros H; try reflexivity; try discriminate; try exact I;
    try contradiction.
Qed.

Lemma mul_self_ge0 (x : number) :
  isNaN (mul x x) = false -> ge (mul x x) pzero = true.
Proof.
  destruct x as [s|s| |s m e]; try discriminate; intros _.
  - destruct s; reflexivity.
  - destruct s; reflexivity.
  - unfold mul, SFmul. replace (xorb s s) with false by now destruct s.
    apply binary_round_aux_ge0. lia.
Qed.

Lemma add_ge0 (a b : number) :
  ge a pzero = true -> ge b pzero = true -> ge (add a b) pzero = true.
Proof.
  intros Ha Hb. apply ge0_cases in Ha. apply ge0_cases in Hb.
  destruct a as [sa|sa| |sa ma ea]; destruct b as [sb|sb| |sb mb eb];
    try contradiction; subst; try reflexivity;
    try (now destruct sa); try (now destruct sb);
    try (now destruct sa, sb).
  unfold add, SFadd, binary_normalize. cbn [cond_Zopp].
  match goal with
  | |- context [(Z.pos ?p + Z.pos ?q)%Z] =>
      change (Z.pos p + Z.pos q)%Z with (Z.pos (p + q))
  end.
  unfold binary_round.
  destruct (shl_align _ _ _) as [mz ez].
  apply binary_round_aux_ge0. lia.
Qed.

Lemma div_core_nonneg (m1 : positive) (e1 : Z) (m2 : positive) (e2 : Z) :
  0 <= fst (fst (SFdiv_core_binary prec emax (Zpos m1) e1 (Zpos m2) e2)).
Proof.
  unfold SFdiv_core_binary.
  match goal with
  | |- context [Z.div_eucl ?a ?b] =>
      pose proof (Z_div_mod a b eq_refl) as Hdm;
      assert (Ha : 0 <= a);
      [|destruct (Z.div_eucl a b) as [q r]]
  | |- context [IntDef.Z.div_eucl ?a ?b] =>
      change (IntDef.Z.div_eucl a b) with (Z.div_eucl a b);
      pose proof (Z_div_mod a b eq_refl) as Hdm;
      assert (Ha : 0 <= a);
      [|destruct (Z.div_eucl a b) as [q r]]
  end.
  - match goal with
    | |- 0 <= match ?s with _ => _ end =>
        destruct s as [|k|k]; try lia
    end.
    change (IntDef.Z.shiftl (Z.pos m1) (Z.pos k))
      with (Z.shiftl (Z.pos m1) (Z.pos k)).
    apply Z.shiftl_nonneg. lia.
  - cbn [fst]. nia.
Qed.

Lemma div_ge0 (a : number) (m : positive) (e : Z) :
  ge a pzero = true -> ge (div a (S754_finite false m e)) pzero = true.
Proof.
  rewrite ge0_cases.
  destruct a as [sa|sa| |sa ma ea]; try contradiction; intros Ha; subst;
    try reflexivity.
  unfold div, SFdiv.
  pose proof (div_core_nonneg ma ea m e) as Hq.
  destruct (SFdiv_core_binary prec emax (Z.pos ma) ea (Z.pos m) e)
    as [[mz ez] lz].
  cbn [fst] in Hq. cbn [xorb]. now apply binary_round_aux_ge0.
Qed.

(** The mean of values that are at least zero when they are not NaN is
    at least zero. *)
Lemma d3_mean_ge0 (A : Type) (valueof : A -> value) (values : list A) :
  Z.of_nat (List.length values) < 2 ^ 53 ->
  (forall d, In d values ->
     ge (Number (valueof d)) (Number (valueof d)) = true ->
     ge (Number (valueof d)) pzero = true) ->
  match d3_mean valueof values with
  | Some v => ge v pzero = true
  | None => True
  end.
Proof.
  intros Hlen Hv. unfold d3_mean.
  match goal with
  | |- context [fold_left ?f values _] => set (step := f)
  end.
  assert (Hstep : forall count sum d,
             step (count, sum) d = (count, sum) \/
             (ge (Number (valueof d)) (Number (valueof d)) = true /\
              step (count, sum) d
              = (S count, add sum (Number (valueof d))))).
  { intros count sum d. unfold step.
    destruct (valueof d); cbv zeta; auto;
      destruct (ge _ _) eqn:G; auto. }
  assert (H : forall l count sum,
             (forall d, In d l ->
                ge (Number (valueof d)) (Number (valueof d)) = true ->
                ge (Number (valueof d)) pzero = true) ->
             ge sum pzero = true ->
             (fst (fold_left step l (count, sum))
              <= count + List.length l)%nat /\
             ge (snd (fold_left step l (count, sum))) pzero = true).
  { induction l as [|d l IH]; intros count sum Hl Hs.
    - simpl. split; [lia|exact Hs].
    - cbn [fold_left List.length].
      assert (Hl' : forall d0, In d0 l ->
                ge (Number (valueof d0)) (Number (valueof d0)) = true ->
                ge (Number (valueof d0)) pzero = true)
        by (intros d0 H0; apply Hl; now right).
      destruct (Hstep count sum d) as [->|[Hnn ->]].
      + destruct (IH count sum Hl' Hs) as [H1 H2]. split; [lia|exact H2].
      + destruct (IH (S count) (add sum (Number (valueof d))) Hl')
          as [H1 H2].
        * apply add_ge0; [exact Hs|].
          apply Hl; [now left|exact Hnn].
        * split; [lia|exact H2]. }
  destruct (H values 0%nat pzero Hv eq_refl) as [H1 H2].
  destruct (fold_left step values (0%nat, pzero)) as [count sum].
  cbn [fst snd] in H1, H2.
  destruct count as [|count]; [exact I|].
  destruct (@of_nat_finite count) as (m & e & ->); [lia|].
  now apply div_ge0.
Qed.

End Variance.

Lemma variance_ge0_aux (values : list value) :
  (Z.of_nat (List.length values) < 2 ^ 53)%Z ->
  ge (ParallelCoords.variance values) pzero = true.
Proof.
  intros Hlen. unfold ParallelCoords.variance.
  destruct (List.length values <? 2); [reflexivity|].
  match goal with
  | |- context [d3_mean ?f values] =>
      match f with
      | (fun d => VNum _) =>
          pose proof (@d3_mean_ge0 _ f values Hlen) as H
      end
  end.
  cbv beta in H.
  match type of H with
  | _ -> match ?m with _ => _ end =>
      destruct m as [v|]; [|reflexivity]
  end.
  apply H. intros d _ Hnn. cbn [Number] in *.
  apply mul_self_ge0.
  match goal with
  | |- isNaN ?x = false => destruct x; try reflexivity; discriminate
  end.
Qed.

(** X19.  What [variance] returns is a number and at least zero (never
    NaN, never negative), whatever the values are, for an array of fewer
    than 2^53 values; it is 0 for fewer than two values. *)
Theorem variance_not_negative (values : list value) :
  (Z.of_nat (List.length values) < 2 ^ 53)%Z ->
  ge (ParallelCoords.variance values) pzero = true /\
  (List.length values < 2 -> ParallelCoords.variance values = pzero).
Proof.
  intros Hlen. split; [now apply variance_ge0_aux|].
  intros H. unfold ParallelCoords.variance.
  now replace (List.length values <? 2) with true
    by (symmetry; apply Nat.ltb_lt; exact H).
Qed.

Lemma variance_not_negative_witness :
  let values := [VNum (of_Z 3); VNum (of_Z 5); VNum (of_Z 10)] in
  ge (ParallelCoords.variance values) pzero = true /\
  (List.length values < 2 -> ParallelCoords.variance values = pzero).
Proof.
  intros values. apply variance_not_negative. vm_compute. reflexivity.
Defined.

(** ** The order of the variances and of the axis values *)

Section MoreOrder.

Local Open Scope Z_scope.

(** [a <= b] on numbers that are not NaN is the order of their keys. *)
Lemma le_key (a b : number) :
  isNaN a = false -> isNaN b = false ->
  (le a b = true <-> ~ key_lt (order_key b) (order_key a)).
Proof.
  unfold le, SFleb, SFcompare.
  destruct a as [sa|sa| |sa ma ea]; try discriminate;
    destruct b as [sb|sb| |sb mb eb]; try discriminate; intros _ _;
    try (destruct sa); try (destruct sb); simpl;
    try change (PosDef.Pos.compare_cont Eq ma mb) with (Pos.compare ma mb);
    try (destruct (Z.compare_spec ea eb); simpl);
    try (destruct (Pos.compare_spec ma mb); simpl);
    (split; intros Hkey;
     solve [reflexivity | discriminate | lia | exfalso; lia]).
Qed.

Lemma le_negb_lt (a b : number) :
  isNaN a = false -> isNaN b = false -> le a b = negb (lt b a).
Proof.
  intros Ha Hb.
  pose proof (@le_key a b Ha Hb) as H1. pose proof (@lt_key b a Hb Ha) as H2.
  destruct (le a b), (lt b a); simpl; try reflexivity.
  - exfalso. apply (proj1 H1 eq_refl). now apply H2.
  - destruct (proj2 H1) as []; [|reflexivity].
    intros K. apply H2 in K. discriminate.
Qed.

Lemma le_refl (a : number) : isNaN a = false -> le a a = true.
Proof.
  intros Ha. apply le_key; [assumption..|].
  destruct (order_key a) as [[c e] m]. unfold key_lt. lia.
Qed.

Lemma le_trans (a b c : number) :
  isNaN a = false -> isNaN b = false -> isNaN c = false ->
  le a b = true -> le b c = true -> le a c = true.
Proof.
  intros Ha Hb Hc. rewrite !le_key by assumption.
  intros H1 H2. now apply key_lt_trans_neg with (b := order_key b).
Qed.

Lemma ge_negb_lt (a b : number) :
  isNaN a = false -> isNaN b = false -> ge a b = negb (lt a b).
Proof. intros Ha Hb. exact (@le_negb_lt b a Hb Ha). Qed.

Lemma ge_trans (a b c : number) :
  isNaN a = false -> isNaN b = false -> isNaN c = false ->
  ge a b = true -> ge b c = true -> ge a c = true.
Proof.
  intros Ha Hb Hc H1 H2. exact (@le_trans c b a Hc Hb Ha H2 H1).
Qed.

Lemma ge0_notNaN (x : number) : ge x pzero = true -> isNaN x = false.
Proof. now destruct x. Qed.

End MoreOrder.

Lemma survivors_stat (rows : list row) (s : ParallelCoords.stat) :
  In s (survivors rows) ->
  ParallelCoords.var s = ParallelCoords.variance (ParallelCoords.values s) /\
  ParallelCoords.validCount s = List.length (ParallelCoords.values s) /\
  ParallelCoords.values s
  = filter isFiniteNumber (map (fun r => prop r (ParallelCoords.key s)) rows)
  /\ 0 < ParallelCoords.validCount s.
Proof.
  destruct rows as [|row0 rows]; [intros []|].
  unfold survivors, ParallelCoords.stats. intros Hs.
  apply filter_In in Hs. destruct Hs as [Hs _].
  apply filter_In in Hs. destruct Hs as [Hs Hv].
  apply in_map_iff in Hs. destruct Hs as (k & <- & _).
  apply Nat.ltb_lt in Hv. repeat split. exact Hv.
Qed.

Lemma StronglySorted_map_In (A B : Type) (f : A -> B)
  (R : A -> A -> Prop) (R' : B -> B -> Prop) (l : list A) :
  (forall a b, In a l -> In b l -> R a b -> R' (f a) (f b)) ->
  StronglySorted R l -> StronglySorted R' (map f l).
Proof.
  intros Himp HS. induction HS as [|x l HS IH Hx]; simpl; constructor.
  - apply IH. intros a b Ha Hb. apply Himp; now right.
  - rewrite Forall_forall in *. intros y Hy.
    apply in_map_iff in Hy. destruct Hy as (z & <- & Hz).
    apply Himp; [now left|now right|now apply Hx].
Qed.

(** X20.  The columns that are ranked by variance are ranked in a true
    descending order.  The field [var] of every surviving column is the
    variance of the finite numbers of that column, a number that is at
    least zero, so the comparator never meets NaN; [byVar] lists every
    surviving column once, and a column that comes earlier in it has a
    variance at least as great. *)
Theorem byVar_descending_variance (rows : list row) :
  (Z.of_nat (List.length rows) < 2 ^ 53)%Z ->
  let ranked := js_sort ParallelCoords.by_var_desc (survivors rows) in
  let column_variance :=
    fun k => ParallelCoords.variance (finite_values rows k) in
  ParallelCoords.byVar (survivors rows) = map ParallelCoords.key ranked /\
  Permutation ranked (survivors rows) /\
  (forall s, In s ranked ->
     ParallelCoords.var s = column_variance (ParallelCoords.key s) /\
     ge (ParallelCoords.var s) pzero = true) /\
  StronglySorted
    (fun a b => ge (ParallelCoords.var a) (ParallelCoords.var b) = true)
    ranked /\
  Permutation (ParallelCoords.byVar (survivors rows))
    (map ParallelCoords.key (survivors rows)) /\
  StronglySorted
    (fun k1 k2 => ge (column_variance k1) (column_variance k2) = true)
    (ParallelCoords.byVar (survivors rows)).
Proof.
  intros Hlen ranked column_variance.
  assert (Hcol : forall s, In s (survivors rows) ->
            ParallelCoords.var s = column_variance (ParallelCoords.key s)).
  { intros s Hs. destruct (survivors_stat rows s Hs) as (-> & _ & Hv & _).
    unfold column_variance, finite_values. now rewrite Hv. }
  assert (Hvar : forall s, In s (survivors rows) ->
            ge (ParallelCoords.var s) pzero = true).
  { intros s Hs. destruct (survivors_stat rows s Hs) as (-> & _ & Hv & _).
    apply variance_ge0_aux. rewrite Hv.
    pose proof (filter_length_le isFiniteNumber
                  (map (fun r => prop r (ParallelCoords.key s)) rows)) as Hl.
    rewrite length_map in Hl. lia. }
  assert (Hsorted :
            StronglySorted
              (fun a b =>
                 ge (ParallelCoords.var a) (ParallelCoords.var b) = true)
              ranked).
  { apply js_sort_ordered
      with (P := fun s => isNaN (ParallelCoords.var s) = false).
    + intros x y Hx Hy. unfold ParallelCoords.by_var_desc, d3_descending, gt.
      rewrite (@ge_negb_lt _ _ Hy Hx).
      destruct (lt (ParallelCoords.var y) (ParallelCoords.var x)) eqn:E;
        [simpl; lia|reflexivity].
    + intros x y Hx Hy. unfold ParallelCoords.by_var_desc, d3_descending, gt.
      rewrite (@ge_negb_lt _ _ Hx Hy).
      destruct (lt (ParallelCoords.var y) (ParallelCoords.var x)) eqn:E.
      * intros _. now rewrite (@lt_asym _ _ Hy Hx E).
      * unfold lt in *.
        destruct (SFltb (ParallelCoords.var x) (ParallelCoords.var y))
          eqn:E'; [simpl; intros H; exfalso; apply H; lia|reflexivity].
    + intros x y z Hx Hy Hz H1 H2.
      now apply ge_trans with (b := ParallelCoords.var y).
    + apply Forall_forall. intros s Hs. now apply ge0_notNaN, Hvar. }
  split; [reflexivity|]. split; [apply js_sort_perm|]. split; [|split].
  - intros s Hs. apply js_sort_In in Hs. split; [now apply Hcol|now apply Hvar].
  - exact Hsorted.
  - split.
    + unfold ParallelCoords.byVar. apply Permutation_map, js_sort_perm.
    + unfold ParallelCoords.byVar.
      apply StronglySorted_map_In
        with (R := fun a b =>
                     ge (ParallelCoords.var a) (ParallelCoords.var b) = true);
        [|exact Hsorted].
      intros a b Ha Hb. apply js_sort_In in Ha, Hb.
      now rewrite (Hcol a Ha), (Hcol b Hb).
Qed.

Lemma byVar_descending_variance_witness :
  let rows :=
    [ [("pages", VNum (of_Z 100)); ("year", VNum (of_Z 1999))];
      [("pages", VNum (of_Z 300)); ("year", VNum (of_Z 2004))] ] in
  let ranked := js_sort ParallelCoords.by_var_desc (survivors rows) in
  let column_variance :=
    fun k => ParallelCoords.variance (finite_values rows k) in
  ParallelCoords.byVar (survivors rows) = map ParallelCoords.key ranked /\
  Permutation ranked (survivors rows) /\
  (forall s, In s ranked ->
     ParallelCoords.var s = column_variance (ParallelCoords.key s) /\
     ge (ParallelCoords.var s) pzero = true) /\
  StronglySorted
    (fun a b => ge (ParallelCoords.var a) (ParallelCoords.var b) = true)
    ranked /\
  Permutation (ParallelCoords.byVar (survivors rows))
    (map ParallelCoords.key (survivors rows)) /\
  StronglySorted
    (fun k1 k2 => ge (column_variance k1) (column_variance k2) = true)
    (ParallelCoords.byVar (survivors rows)).
Proof.
  intros rows. apply byVar_descending_variance. vm_compute. reflexivity.
Defined.

(** ** The domains of the axes *)

Lemma d3_extent_fold (l : list number) (lo hi : number) :
  (forall v, In v l -> isNaN v = false) ->
  isNaN lo = false -> isNaN hi = false -> le lo hi = true ->
  exists lo' hi',
    fold_left
      (fun ext value =>
         match ext with
         | None => if ge value value then Some (value, value) else None
         | Some (min, max) =>
             Some (if gt min value then value else min,
                   if lt max value then value else max)
         end) l (Some (lo, hi)) = Some (lo', hi') /\
    (lo' = lo \/ In lo' l) /\ (hi' = hi \/ In hi' l) /\
    le lo' lo = true /\ le hi hi' = true /\
    isNaN lo' = false /\ isNaN hi' = false /\
    forall v, In v l -> le lo' v = true /\ le v hi' = true.
Proof.
  revert lo hi. induction l as [|x l IH]; intros lo hi Hl Hlo Hhi Hle.
  - exists lo, hi. simpl. repeat split; auto using le_refl.
    all: intros [].
  - cbn [fold_left].
    assert (Hx : isNaN x = false) by (apply Hl; now left).
    assert (Hl' : forall v, In v l -> isNaN v = false)
      by (intros v Hv; apply Hl; now right).
    set (lo1 := if gt lo x then x else lo).
    set (hi1 := if lt hi x then x else hi).
    assert (Hlo1 : isNaN lo1 = false) by (unfold lo1; now destruct (gt lo x)).
    assert (Hhi1 : isNaN hi1 = false) by (unfold hi1; now destruct (lt hi x)).
    assert (Llo : le lo1 lo = true /\ le lo1 x = true /\
                  (lo1 = lo \/ lo1 = x)).
    { unfold lo1, gt. fold (lt x lo). destruct (lt x lo) eqn:E.
      - repeat split; auto using le_refl.
        rewrite le_negb_lt by assumption.
        now rewrite (@lt_asym _ _ Hx Hlo E).
      - repeat split; auto using le_refl.
        rewrite le_negb_lt by assumption. now rewrite E. }
    assert (Lhi : le hi hi1 = true /\ le x hi1 = true /\
                  (hi1 = hi \/ hi1 = x)).
    { unfold hi1. destruct (lt hi x) eqn:E.
      - repeat split; auto using le_refl.
        rewrite le_negb_lt by assumption.
        now rewrite (@lt_asym _ _ Hhi Hx E).
      - repeat split; auto using le_refl.
        rewrite le_negb_lt by assumption. now rewrite E. }
    destruct Llo as (L1 & L2 & L3). destruct Lhi as (U1 & U2 & U3).
    assert (Hle1 : le lo1 hi1 = true).
    { apply le_trans with (b := x); assumption. }
    destruct (IH lo1 hi1 Hl' Hlo1 Hhi1 Hle1)
      as (lo' & hi' & E & Ilo & Ihi & Mlo & Mhi & Nlo & Nhi & Hall).
    exists lo', hi'. split; [exact E|].
    split; [destruct Ilo as [->|]; [destruct L3 as [->| ->]|]; simpl; auto|].
    split; [destruct Ihi as [->|]; [destruct U3 as [->| ->]|]; simpl; auto|].
    split; [now apply le_trans with (b := lo1)|].
    split; [now apply le_trans with (b := hi1)|].
    split; [exact Nlo|]. split; [exact Nhi|].
    intros v [<-|Hv]; [|now apply Hall].
    split; [now apply le_trans with (b := lo1)
           |now apply le_trans with (b := hi1)].
Qed.

Lemma d3_extent_bounds (l : list number) :
  (forall v, In v l -> isNaN v = false) ->
  match d3_extent l with
  | None => l = []
  | Some (lo, hi) =>
      In lo l /\ In hi l /\
      forall v, In v l -> le lo v = true /\ le v hi = true
  end.
Proof.
  intros Hl. unfold d3_extent. destruct l as [|x l]; [reflexivity|].
  cbn [fold_left].
  assert (Hx : isNaN x = false) by (apply Hl; now left).
  change (ge x x) with (le x x). rewrite (@le_refl _ Hx).
  destruct (@d3_extent_fold l x x) as
    (lo' & hi' & E & Ilo & Ihi & Mlo & Mhi & _ & _ & Hall);
    [intros v Hv; apply Hl; now right|assumption..|now apply le_refl|].
  rewrite E. split; [|split].
  - destruct Ilo as [->|]; simpl; auto.
  - destruct Ihi as [->|]; simpl; auto.
  - intros v [<-|Hv]; [auto|now apply Hall].
Qed.

Lemma axis_values_notNaN (data : list ParallelCoords.record) (dim : string)
  (v : number) :
  In v (ParallelCoordsDraw.axis_values data dim) -> isNaN v = false.
Proof.
  unfold ParallelCoordsDraw.axis_values. intros Hv.
  apply In_filter_Boolean in Hv. apply in_map_iff in Hv.
  destruct Hv as (d & E & _). unfold ParallelCoordsDraw.cell_number in E.
  destruct (oget string_dec d dim) as [[r|[| |b|n|s|t]|c]|];
    try discriminate.
  - destruct (isFinite n) eqn:F; [|discriminate].
    injection E as <-. now apply isFinite_notNaN.
  - injection E as <-. apply of_Z_notNaN.
Qed.

(** X21.  The domain of the scale of an axis covers every value drawn on
    the axis and its two ends are values of the axis; an axis without a
    value gets the domain from 0 to 1. *)
Theorem axis_domain_covers (data : list ParallelCoords.record)
  (dim : string) :
  let vals := ParallelCoordsDraw.axis_values data dim in
  let '(lo, hi) := ParallelCoordsDraw.axis_domain data dim in
  (vals = [] -> lo = pzero /\ hi = of_Z 1) /\
  (vals <> [] -> In lo vals /\ In hi vals) /\
  forall v, In v vals -> le lo v = true /\ le v hi = true.
Proof.
  intros vals. unfold ParallelCoordsDraw.axis_domain. fold vals.
  pose proof (@d3_extent_bounds vals
                (fun v Hv => @axis_values_notNaN data dim v Hv)) as H.
  destruct (d3_extent vals) as [[lo hi]|].
  - destruct H as (Ilo & Ihi & Hall). split; [|split].
    + intros E. rewrite E in Ilo. destruct Ilo.
    + auto.
    + exact Hall.
  - rewrite H. split; [auto|]. split; [congruence|intros v []].
Qed.

(** ** The share of missing values *)

(** The test [1 - validCount / total <= 0.4], evaluated for every table
    of up to 120 rows: it holds exactly when three fifths of the rows
    are valid. *)
Lemma missingRatio_checked :
  forallb
    (fun n =>
       forallb
         (fun v =>
            Bool.eqb
              (le (sub (of_Z 1) (div (of_nat v) (of_nat n))) (decimal 4 1))
              (3 * n <=? 5 * v))
         (seq 0 (S n)))
    (seq 1 120) = true.
Proof. vm_compute. reflexivity. Qed.

Lemma missingRatio_threshold (n v : nat) :
  1 <= n <= 120 -> v <= n ->
  le (sub (of_Z 1) (div (of_nat v) (of_nat n))) (decimal 4 1)
  = (3 * n <=? 5 * v).
Proof.
  intros Hn Hv. pose proof missingRatio_checked as H.
  rewrite forallb_forall in H.
  assert (Hin : In n (seq 1 120)) by (apply in_seq; lia).
  specialize (H n Hin). rewrite forallb_forall in H.
  assert (Hiv : In v (seq 0 (S n))) by (apply in_seq; lia).
  specialize (H v Hiv). now apply eqb_prop in H.
Qed.

(** X22.  For a table of up to 120 rows: a column survives exactly when
    it is a column of the first row, is not an identifier column, and
    holds a finite number in at least three fifths of the rows. *)
Theorem survivors_three_fifths (rows : list row) (row0 : row)
  (rest : list row) (k : string) :
  rows = row0 :: rest -> List.length rows <= 120 ->
  (In k (map ParallelCoords.key (survivors rows)) <->
   In k (keys row0) /\
   ParallelCoords.excluded (toLowerCase k) = false /\
   3 * List.length rows
   <= 5 * List.length
            (filter isFiniteNumber (map (fun r => prop r k) rows))).
Proof.
  intros E Hlen. subst rows. unfold survivors.
  set (rows := row0 :: rest) in *.
  assert (Hn : 1 <= List.length rows <= 120) by (simpl in *; lia).
  assert (Hv : forall q,
            List.length (filter isFiniteNumber (map (fun r => prop r q) rows))
            <= List.length rows).
  { intros q. etransitivity; [apply filter_length_le|].
    now rewrite length_map. }
  split.
  - intros Hk. destruct (stats_In _ _ _ Hk) as (Hkey & Hexc & _).
    split; [exact Hkey|]. split; [exact Hexc|].
    apply in_map_iff in Hk. destruct Hk as (s & <- & Hs).
    unfold ParallelCoords.stats in Hs.
    apply filter_In in Hs. destruct Hs as [Hs Hratio].
    apply filter_In in Hs. destruct Hs as [Hs _].
    apply in_map_iff in Hs. destruct Hs as (q & <- & _).
    cbn [ParallelCoords.missingRatio ParallelCoords.stat_of
         ParallelCoords.key] in *.
    rewrite missingRatio_threshold in Hratio by auto.
    now apply Nat.leb_le in Hratio.
  - intros (Hkey & Hexc & Hratio).
    apply in_map_iff. exists (ParallelCoords.stat_of rows k).
    split; [reflexivity|].
    unfold ParallelCoords.stats.
    apply filter_In. split.
    + apply filter_In. split.
      * apply in_map. unfold ParallelCoords.numericCandidates.
        apply filter_In. split.
        -- apply filter_In. split; [exact Hkey|now rewrite Hexc].
        -- apply existsb_exists.
           destruct (filter isFiniteNumber (map (fun r => prop r k) rows))
             as [|v vs] eqn:Ef; [simpl in Hratio; lia|].
           assert (Hin : In v (filter isFiniteNumber
                                 (map (fun r => prop r k) rows)))
             by (rewrite Ef; now left).
           apply filter_In in Hin. destruct Hin as [Hin Hfin].
           apply in_map_iff in Hin. destruct Hin as (r & <- & Hr).
           now exists r.
      * cbn [ParallelCoords.validCount ParallelCoords.stat_of].
        apply Nat.ltb_lt. lia.
    + cbn [ParallelCoords.missingRatio ParallelCoords.stat_of].
      rewrite missingRatio_threshold by auto.
      now apply Nat.leb_le.
Qed.

Lemma survivors_three_fifths_witness :
  let row0 : row := [("pages", VNum (of_Z 100)); ("year", VNum (of_Z 1999))] in
  let rest : list row := [[("pages", VNull); ("year", VNum (of_Z 2004))]] in
  In "year" (map ParallelCoords.key (survivors (row0 :: rest))) <->
  In "year" (keys row0) /\
  ParallelCoords.excluded (toLowerCase "year") = false /\
  3 * List.length (row0 :: rest)
  <= 5 * List.length
           (filter isFiniteNumber
              (map (fun r => prop r "year") (row0 :: rest))).
Proof.
  intros row0 rest.
  apply (@survivors_three_fifths (row0 :: rest) row0 rest "year" eq_refl).
  simpl. lia.
Defined.

(** ** The labels of the axes *)

Import ParallelCoordsDraw.

Section Labels.

Lemma upper_char_facts (c : ascii) :
  is_lower (upper_char c) = false /\
  is_space (upper_char c) = is_space c /\
  Ascii.eqb (upper_char c) "_" = Ascii.eqb c "_" /\
  lower_char (upper_char c) = lower_char c.
Proof. destruct c as [[] [] [] [] [] [] [] []]; vm_compute; auto. Qed.

Lemma string_ind2 (P : string -> Prop) :
  P "" ->
  (forall c, P (String c "")) ->
  (forall c1 c2 s, P s -> P (String c2 s) -> P (String c1 (String c2 s))) ->
  forall s, P s.
Proof.
  intros H0 H1 H2 s.
  assert (H : P s /\ forall c, P (String c s)).
  { induction s as [|a s [IH1 IH2]]; [split; auto|].
    split; [apply IH2|]. intros c. apply H2; [exact IH1|apply IH2]. }
  apply H.
Qed.

Lemma space_camel_cons2 (c1 c2 : ascii) (s2 : string) :
  space_camel (String c1 (String c2 s2))
  = if (is_lower c1 || is_digit c1) && is_upper c2
    then String c1 (String " " (String c2 (space_camel s2)))
    else String c1 (space_camel (String c2 s2)).
Proof. reflexivity. Qed.

Lemma solid_cons (c : ascii) (s : string) :
  solid (String c s)
  = if is_space c || Ascii.eqb c "_" then solid s else String c (solid s).
Proof. reflexivity. Qed.

Lemma solid_app (a b : string) : solid (a ++ b) = (solid a ++ solid b)%string.
Proof.
  induction a as [|c a IH]; [reflexivity|].
  cbn [String.append]. rewrite !solid_cons, IH.
  now destruct (is_space c || Ascii.eqb c "_").
Qed.

Lemma solid_replace_underscores (s : string) :
  solid (replace_underscores s) = solid s.
Proof.
  induction s as [|c s IH]; [reflexivity|].
  cbn [replace_underscores]. rewrite !solid_cons, IH.
  destruct (Ascii.eqb c "_") eqn:E.
  - now rewrite orb_true_r.
  - now rewrite E.
Qed.

Lemma solid_space_camel (s : string) : solid (space_camel s) = solid s.
Proof.
  induction s as [|c|c1 c2 s IH1 IH2] using string_ind2; try reflexivity.
  rewrite space_camel_cons2.
  destruct ((is_lower c1 || is_digit c1) && is_upper c2).
  - rewrite !solid_cons, IH1. reflexivity.
  - rewrite solid_cons, IH2, <- solid_cons. reflexivity.
Qed.

Lemma solid_trimStart (s : string) : solid (trimStart s) = solid s.
Proof.
  induction s as [|c s IH]; [reflexivity|].
  cbn [trimStart].
  destruct (is_space c) eqn:E; [|reflexivity].
  now rewrite solid_cons, E.
Qed.

Lemma solid_trimEnd (s : string) : solid (trimEnd s) = solid s.
Proof.
  induction s as [|c s IH]; [reflexivity|].
  rewrite trimEnd_cons. rewrite solid_cons, <- IH.
  destruct (trimEnd s) as [|a t].
  - destruct (is_space c) eqn:E; [reflexivity|].
    rewrite solid_cons, E. reflexivity.
  - now rewrite solid_cons.
Qed.

Lemma concat_empty_cons (x : string) (l : list string) :
  String.concat "" (x :: l) = (x ++ String.concat "" l)%string.
Proof.
  destruct l as [|y l]; [|reflexivity].
  simpl. induction x as [|c x IH]; [reflexivity|].
  cbn [String.append]. now rewrite <- IH.
Qed.

Lemma solid_concat (ws : list string) :
  solid (String.concat " " ws) = String.concat "" (map solid ws).
Proof.
  induction ws as [|w ws IH]; [reflexivity|].
  cbn [map]. rewrite concat_empty_cons, <- IH.
  destruct ws as [|y ws].
  - simpl. induction (solid w) as [|c x IHx]; [reflexivity|].
    cbn [String.append]. now rewrite <- IHx.
  - cbn [String.concat]. rewrite !solid_app. reflexivity.
Qed.

Lemma split_spaces_cons (in_run : bool) (s : string) :
  exists p rest, split_spaces in_run s = p :: rest.
Proof.
  revert in_run. induction s as [|c s IH]; intros in_run; simpl; eauto.
  destruct (is_space c).
  - destruct in_run; eauto.
  - destruct (IH false) as (p & rest & ->). eauto.
Qed.

Lemma solid_split_spaces (in_run : bool) (s : string) :
  String.concat "" (map solid (split_spaces in_run s)) = solid s.
Proof.
  revert in_run. induction s as [|c s IH]; intros in_run; [reflexivity|].
  cbn [split_spaces]. rewrite solid_cons.
  destruct (is_space c) eqn:E; cbn [orb].
  - destruct in_run; [apply IH|].
    cbn [map]. rewrite concat_empty_cons. apply IH.
  - specialize (IH false).
    destruct (split_spaces_cons false s) as (p & rest & Es).
    rewrite Es in *.
    cbn [map] in *. rewrite concat_empty_cons in *.
    rewrite solid_cons, E. cbn [orb].
    destruct (Ascii.eqb c "_"); [exact IH|].
    cbn [String.append]. now rewrite IH.
Qed.

Lemma toLowerCase_app (a b : string) :
  toLowerCase (a ++ b) = (toLowerCase a ++ toLowerCase b)%string.
Proof.
  induction a as [|c a IH]; [reflexivity|].
  cbn [String.append toLowerCase]. now rewrite IH.
Qed.

Lemma solid_capitalize (w : string) :
  toLowerCase (solid (capitalize w)) = toLowerCase (solid w).
Proof.
  destruct w as [|c w]; [reflexivity|].
  cbn [capitalize]. rewrite !solid_cons.
  destruct (upper_char_facts c) as (_ & -> & -> & Hl).
  destruct (is_space c || Ascii.eqb c "_"); [reflexivity|].
  cbn [toLowerCase]. now rewrite Hl.
Qed.

Lemma solid_capitalized (ws : list string) :
  toLowerCase (String.concat "" (map solid (map capitalize ws)))
  = toLowerCase (String.concat "" (map solid ws)).
Proof.
  induction ws as [|w ws IH]; [reflexivity|].
  cbn [map]. rewrite !concat_empty_cons, !toLowerCase_app, IH.
  now rewrite solid_capitalize.
Qed.

(** The pieces of a split have no white space. *)
Lemma split_spaces_chars (in_run : bool) (s w : string) (c : ascii) :
  In w (split_spaces in_run s) -> In c (list_ascii_of_string w) ->
  is_space c = false /\ In c (list_ascii_of_string s).
Proof.
  revert in_run w. induction s as [|a s IH]; intros in_run w.
  - intros [<-|[]] [].
  - cbn [split_spaces]. destruct (is_space a) eqn:E.
    + intros Hw Hc.
      assert (Hw' : In w (split_spaces true s)).
      { destruct in_run; [exact Hw|].
        destruct Hw as [<-|Hw]; [destruct Hc|exact Hw]. }
      destruct (IH true w Hw' Hc) as [H1 H2]. split; [exact H1|now right].
    + destruct (split_spaces false s) as [|p rest] eqn:Es.
      * intros [<-|[]] [<-|[]]. split; [exact E|now left].
      * intros [<-|Hw] Hc.
        -- destruct Hc as [<-|Hc]; [split; [exact E|now left]|].
           destruct (IH false p) as [H1 H2];
             [rewrite Es; now left|exact Hc|].
           split; [exact H1|now right].
        -- destruct (IH false w) as [H1 H2];
             [rewrite Es; now right|exact Hc|].
           split; [exact H1|now right].
Qed.

(** The pieces of a split of a trimmed text are not empty. *)
Lemma split_spaces_nonempty (s : string) :
  trimEnd s = s -> s <> "" ->
  Forall (fun w => w <> "") (split_spaces true s) /\
  exists p rest,
    split_spaces false s = p :: rest /\
    Forall (fun w => w <> "") rest /\
    (forall c t, s = String c t -> is_space c = false -> p <> "").
Proof.
  induction s as [|c s IH]; [congruence|]. intros Ht _.
  destruct s as [|d s'].
  - assert (E : is_space c = false).
    { simpl in Ht. now destruct (is_space c). }
    cbn [split_spaces]. rewrite E. split.
    + repeat constructor. discriminate.
    + exists (String c ""), [].
      split; [reflexivity|]. split; [constructor|]. intros; discriminate.
  - assert (Ht' : trimEnd (String d s') = String d s').
    { rewrite trimEnd_cons in Ht.
      destruct (trimEnd (String d s')) as [|a t];
        try (destruct (is_space c); discriminate).
      congruence. }
    destruct (IH Ht') as [IA (p & rest & IB & IR & IP)]; [discriminate|].
    cbn [split_spaces] in *. destruct (is_space c) eqn:E.
    + split; [exact IA|].
      eexists _, _. split; [reflexivity|]. split; [exact IA|].
      intros c0 t [= <- <-]. congruence.
    + rewrite IB. split.
      * constructor; [discriminate|exact IR].
      * eexists _, _. split; [reflexivity|]. split; [exact IR|].
        intros; discriminate.
Qed.

Lemma replace_underscores_chars (s : string) :
  ~ In "_"%char (list_ascii_of_string (replace_underscores s)).
Proof.
  induction s as [|c s IH]; simpl; [tauto|].
  destruct (Ascii.eqb_spec c "_"); intros [E|H]; try discriminate; auto.
Qed.

Lemma space_camel_chars (s : string) (c : ascii) :
  In c (list_ascii_of_string (space_camel s)) ->
  c = " "%char \/ In c (list_ascii_of_string s).
Proof.
  induction s as [|a|c1 c2 s IH1 IH2] using string_ind2;
    [simpl; tauto|simpl; tauto|].
  rewrite space_camel_cons2.
  destruct ((is_lower c1 || is_digit c1) && is_upper c2).
  - cbn [list_ascii_of_string In]. intros [H|[H|[H|H]]]; auto.
    destruct (IH1 H); auto.
  - cbn [list_ascii_of_string In] in *. intros [H|H]; auto.
    destruct (IH2 H) as [?|[?|?]]; auto.
Qed.

Lemma trim_shape (s : string) :
  trim s = "" \/
  trimEnd (trim s) = trim s /\
  exists c t, trim s = String c t /\ is_space c = false.
Proof.
  unfold trim. destruct (trimStart_head s) as [->|(c & t & -> & Hc)];
    [now left|].
  right. split; [apply trimEnd_idem|].
  rewrite trimEnd_cons. destruct (trimEnd t) as [|a u].
  - rewrite Hc. eauto.
  - eauto.
Qed.

Lemma upper_char_ascii (c : ascii) :
  (nat_of_ascii c <? 128) = true ->
  (nat_of_ascii (upper_char c) <? 128) = true.
Proof. destruct c as [[] [] [] [] [] [] [] []]; vm_compute; auto. Qed.

Lemma append_chars (a b : string) (c : ascii) :
  In c (list_ascii_of_string (a ++ b)) ->
  In c (list_ascii_of_string a) \/ In c (list_ascii_of_string b).
Proof.
  induction a as [|x a IH]; simpl; [auto|].
  intros [H|H]; [auto|]. destruct (IH H); auto.
Qed.

Lemma concat_chars (ws : list string) (c : ascii) :
  In c (list_ascii_of_string (String.concat " " ws)) ->
  c = " "%char \/ exists w, In w ws /\ In c (list_ascii_of_string w).
Proof.
  induction ws as [|w ws IH]; [intros []|].
  destruct ws as [|y ws].
  - simpl. intros H. right. exists w. auto.
  - cbn [String.concat]. intros H.
    apply append_chars in H. destruct H as [H|H].
    + right. exists w. split; [now left|exact H].
    + apply append_chars in H. destruct H as [[H|[]]|H]; [now left|].
      destruct (IH H) as [?|(w' & Hw' & Hc)]; [now left|].
      right. exists w'. split; [now right|exact Hc].
Qed.

Lemma replace_underscores_source (s : string) (c : ascii) :
  In c (list_ascii_of_string (replace_underscores s)) ->
  c = " "%char \/ In c (list_ascii_of_string s).
Proof.
  induction s as [|x s IH]; simpl; [tauto|].
  intros [H|H].
  - destruct (Ascii.eqb x "_"); auto.
  - destruct (IH H); auto.
Qed.

Lemma formatLabel_chars (key : string) (c : ascii) :
  In c (list_ascii_of_string (formatLabel key)) ->
  c = " "%char \/
  exists c0, In c0 (list_ascii_of_string key) /\ (c = c0 \/ c = upper_char c0).
Proof.
  unfold formatLabel. cbv zeta. intros H.
  apply concat_chars in H. destruct H as [H|(w & Hw & Hc)]; [now left|].
  apply in_map_iff in Hw. destruct Hw as (p & <- & Hp).
  assert (Hsrc : forall x, In x (list_ascii_of_string p) ->
            x = " "%char \/ In x (list_ascii_of_string key)).
  { intros x Hx.
    destruct (@split_spaces_chars false _ p x Hp Hx) as [_ H2].
    unfold trim in H2.
    apply trimEnd_chars, trimStart_chars, space_camel_chars in H2.
    destruct H2 as [H2|H2]; [now left|].
    now apply replace_underscores_source in H2. }
  destruct p as [|a p]; [destruct Hc|].
  cbn [capitalize list_ascii_of_string In] in Hc.
  destruct Hc as [<-|Hc].
  - destruct (Hsrc a) as [E|Ha]; [now left| |].
    + left. rewrite E. reflexivity.
    + right. exists a. auto.
  - destruct (Hsrc c) as [E|Ha]; [now right|now left|].
    right. exists c. auto.
Qed.

(** X23.  For a key of ASCII characters: the label consists of words
    separated by one space; a word is not empty, has no white space and
    no underscore, and does not begin with a small letter; the label
    spells the key: both have the same characters, case apart, once
    white space and underscores are left out; and the label is a text
    of ASCII characters as well. *)
Theorem formatLabel_words (key : string) :
  ascii_text key = true ->
  (exists words,
     formatLabel key = String.concat " " words /\
     forall w, In w words ->
       (exists c t, w = String c t /\ is_lower c = false) /\
       forall c, In c (list_ascii_of_string w) ->
         is_space c = false /\ c <> "_"%char) /\
  toLowerCase (solid (formatLabel key)) = toLowerCase (solid key) /\
  ascii_text (formatLabel key) = true.
Proof.
  intros Hascii. split; [|split].
  - unfold formatLabel. cbv zeta.
    set (spaced := trim (space_camel (replace_underscores key))).
    assert (Hu : ~ In "_"%char (list_ascii_of_string spaced)).
    { intros H. unfold spaced, trim in H.
      apply trimEnd_chars, trimStart_chars, space_camel_chars in H.
      destruct H as [H|H]; [discriminate|].
      now apply replace_underscores_chars in H. }
    destruct (trim_shape (space_camel (replace_underscores key)))
      as [E|(Ht & c0 & t0 & E & Hc0)]; fold spaced in E.
    + exists []. rewrite E. split; [reflexivity|intros w []].
    + fold spaced in Ht.
      exists (map capitalize (split_spaces false spaced)).
      split; [reflexivity|].
      intros w Hw. apply in_map_iff in Hw. destruct Hw as (p & <- & Hp).
      assert (Hne : p <> "").
      { destruct (@split_spaces_nonempty spaced Ht)
          as [_ (p0 & rest & Es & Hr & Hp0)];
          [rewrite E; discriminate|].
        rewrite Es in Hp. destruct Hp as [<-|Hp].
        - now apply (Hp0 c0 t0).
        - rewrite Forall_forall in Hr. now apply Hr. }
      destruct p as [|a p]; [congruence|]. cbn [capitalize].
      destruct (upper_char_facts a) as (Hl & Hs & Hun & _).
      split; [eauto|].
      intros c [<-|Hc].
      * destruct (@split_spaces_chars false spaced (String a p) a Hp)
          as [H1 H2]; [now left|].
        split; [now rewrite Hs|].
        intros Eu. apply Hu.
        assert (a = "_"%char)
          by (apply Ascii.eqb_eq; rewrite <- Hun, Eu; reflexivity).
        now subst a.
      * destruct (@split_spaces_chars false spaced (String a p) c Hp)
          as [H1 H2]; [now right|].
        split; [exact H1|]. intros ->. now apply Hu.
  - unfold formatLabel. cbv zeta.
    rewrite solid_concat, solid_capitalized, solid_split_spaces.
    unfold trim.
    now rewrite solid_trimEnd, solid_trimStart, solid_space_camel,
      solid_replace_underscores.
  - unfold ascii_text in *. rewrite forallb_forall in *.
    intros c Hc. apply formatLabel_chars in Hc.
    destruct Hc as [->|(c0 & Hc0 & [->| ->])]; [reflexivity| |].
    + now apply Hascii.
    + now apply upper_char_ascii, Hascii.
Qed.

Lemma formatLabel_words_witness :
  ascii_text "publication_year" = true /\
  ((exists words,
      formatLabel "publication_year" = String.concat " " words /\
      forall w, In w words ->
        (exists c t, w = String c t /\ is_lower c = false) /\
        forall c, In c (list_ascii_of_string w) ->
          is_space c = false /\ c <> "_"%char) /\
   toLowerCase (solid (formatLabel "publication_year"))
   = toLowerCase (solid "publication_year") /\
   ascii_text (formatLabel "publication_year") = true).
Proof.
  assert (H : ascii_text "publication_year" = true) by reflexivity.
  split; [exact H|]. exact (@formatLabel_words "publication_year" H).
Defined.

End Labels.

(** ** Exact arithmetic on the numbers *)

Section ExactArithmetic.

Local Open Scope Z_scope.

Lemma digits2_unique (p : positive) (k : Z) :
  2 ^ (k - 1) <= Zpos p < 2 ^ k -> Zpos (digits2_pos p) = k.
Proof.
  intros [Hlo Hhi].
  pose proof (digits2_pos_bound p) as Hb.
  pose proof (digits2_pos_lower p) as Hl.
  set (d := Zpos (digits2_pos p)) in *.
  assert (Hd : 0 < d) by (unfold d; lia).
  assert (Hk : 0 < k).
  { destruct (Z_lt_le_dec 0 k) as [H|H]; [exact H|].
    exfalso. destruct (Z.eq_dec k 0) as [->|Hne]; [simpl in Hhi; lia|].
    rewrite (Z.pow_neg_r 2 k) in Hhi by lia. lia. }
  destruct (Z.lt_trichotomy d k) as [H|[H|H]]; [|exact H|]; exfalso.
  - assert (2 ^ d <= 2 ^ (k - 1)) by (apply Z.pow_le_mono_r; lia). lia.
  - assert (2 ^ k <= 2 ^ (d - 1)) by (apply Z.pow_le_mono_r; lia). lia.
Qed.

Lemma digits2_scaled (X : positive) (k : Z) (M : positive) :
  Zpos (digits2_pos X) = 53 -> 0 <= k -> Zpos M = Zpos X * 2 ^ k ->
  Zpos (digits2_pos M) = 53 + k.
Proof.
  intros Hd Hk HM. apply digits2_unique.
  pose proof (digits2_pos_bound X) as Hb.
  pose proof (digits2_pos_lower X) as Hl.
  rewrite Hd in Hb, Hl. rewrite HM.
  replace (53 + k - 1) with (52 + k) by lia.
  rewrite !Z.pow_add_r by lia.
  assert (0 < 2 ^ k) by (apply Z.pow_pos_nonneg; lia).
  change (53 - 1) with 52 in Hl. nia.
Qed.

Lemma pos_scaled (X : positive) (k : Z) :
  0 <= k -> exists M : positive, Zpos M = Zpos X * 2 ^ k.
Proof.
  intros Hk. assert (0 < 2 ^ k) by (apply Z.pow_pos_nonneg; lia).
  exists (Z.to_pos (Zpos X * 2 ^ k)). rewrite Z2Pos.id; [reflexivity|nia].
Qed.

Lemma pow2_xO (p : positive) : 2 ^ Zpos p~0 = 2 ^ Zpos p * 2 ^ Zpos p.
Proof. rewrite <- Z.pow_add_r by lia. f_equal. lia. Qed.

Lemma pow2_xI (p : positive) :
  2 ^ Zpos p~1 = 2 * (2 ^ Zpos p * 2 ^ Zpos p).
Proof.
  replace (Zpos p~1) with (Z.succ (Zpos p + Zpos p)) by lia.
  rewrite Z.pow_succ_r, Z.pow_add_r by lia. reflexivity.
Qed.

(** Shifting out zeros loses nothing. *)
Lemma iter_shr_exact (p : positive) :
  forall X : positive,
    iter_pos shr_1 p
      {| shr_m := Zpos X * 2 ^ Zpos p; shr_r := false; shr_s := false |}
    = {| shr_m := Zpos X; shr_r := false; shr_s := false |}.
Proof.
  induction p as [p IH|p IH|]; intros X; cbn [iter_pos].
  - destruct (@pos_scaled X (Zpos p)) as [Y HY]; [lia|].
    destruct (@pos_scaled Y (Zpos p)) as [W HW]; [lia|].
    replace (Zpos X * 2 ^ Zpos p~1) with (Zpos W~0)
      by (rewrite pow2_xI, Pos2Z.inj_xO, HW, HY; ring).
    cbn [shr_1 orb]. rewrite HW, IH, HY, IH. reflexivity.
  - destruct (@pos_scaled X (Zpos p)) as [Y HY]; [lia|].
    replace (Zpos X * 2 ^ Zpos p~0) with (Zpos Y * 2 ^ Zpos p)
      by (rewrite pow2_xO, HY; ring).
    rewrite IH, HY, IH. reflexivity.
  - replace (Zpos X * 2 ^ 1) with (Zpos X~0)
      by (rewrite Pos2Z.inj_xO; change (2 ^ 1) with 2; ring).
    reflexivity.
Qed.

(** Rounding a mantissa of 53 digits followed by [k] zeros returns the
    53 digits, with the exponent raised by [k]. *)
Lemma round_exact (s : bool) (X : positive) (k e M : Z) :
  Zpos (digits2_pos X) = 53 -> 0 <= k -> -1074 <= e + k <= 971 ->
  M = Zpos X * 2 ^ k ->
  binary_round_aux prec emax s M e loc_Exact = S754_finite s X (e + k).
Proof.
  intros Hd Hk He ->.
  destruct (@pos_scaled X k Hk) as [Mp HM]. rewrite <- HM.
  pose proof (@digits2_scaled X k Mp Hd Hk HM) as HD.
  rewrite <- (@binary_round_aux_exact s X (e + k) Hd He).
  unfold binary_round_aux, shr_fexp. cbn [Zdigits2]. rewrite HD, Hd.
  replace (fexp prec emax (53 + k + e) - e) with k
    by (unfold fexp, emin, prec, emax; lia).
  replace (fexp prec emax (53 + (e + k)) - (e + k)) with 0
    by (unfold fexp, emin, prec, emax; lia).
  cbn [shr_record_of_loc]. unfold shr at 1 3.
  destruct k as [|kp|kp]; [|..].
  - rewrite Z.mul_1_r in HM. rewrite HM, Z.add_0_r. reflexivity.
  - rewrite HM, iter_shr_exact. reflexivity.
  - lia.
Qed.

End ExactArithmetic.

Section ExactOperations.

Local Open Scope Z_scope.

(** A product that fits 53 digits is computed exactly. *)
Lemma mul_exact (s : bool) (X1 : positive) (e1 : Z) (m2 : positive)
  (e2 : Z) (X : positive) (k : Z) :
  Zpos (digits2_pos X) = 53 -> 0 <= k ->
  -1074 <= e1 + e2 + k <= 971 ->
  Zpos X1 * Zpos m2 = Zpos X * 2 ^ k ->
  mul (S754_finite s X1 e1) (S754_finite false m2 e2)
  = S754_finite s X (e1 + e2 + k).
Proof.
  intros Hd Hk He HM. unfold mul, SFmul. rewrite xorb_false_r.
  apply round_exact; assumption.
Qed.

(** A quotient that fits 53 digits is computed exactly. *)
Lemma div_exact (s : bool) (X1 : positive) (e1 : Z) (m2 : positive)
  (e2 : Z) (X : positive) (k : Z) :
  Zpos (digits2_pos X1) = 53 -> Zpos (digits2_pos m2) = 53 ->
  Zpos (digits2_pos X) = 53 -> 0 <= k ->
  -1074 <= e1 - e2 - 53 -> e1 - e2 - 53 + k <= 971 ->
  Zpos X1 * 2 ^ 53 = Zpos m2 * (Zpos X * 2 ^ k) ->
  div (S754_finite s X1 e1) (S754_finite false m2 e2)
  = S754_finite s X (e1 - e2 - 53 + k).
Proof.
  intros H1 H2 Hd Hk Hlo Hhi HM. unfold div, SFdiv, SFdiv_core_binary.
  cbn [Zdigits2]. rewrite H1, H2.
  assert (He : IntDef.Z.min (fexp prec emax (53 + e1 - (53 + e2))) (e1 - e2)
               = e1 - e2 - 53).
  { change IntDef.Z.min with Z.min. unfold fexp, emin, prec, emax. lia. }
  rewrite He. replace (e1 - e2 - (e1 - e2 - 53)) with 53 by lia.
  change (IntDef.Z.shiftl (Z.pos X1) 53) with (Z.shiftl (Z.pos X1) 53).
  rewrite Z.shiftl_mul_pow2 by lia.
  change IntDef.Z.div_eucl with Z.div_eucl.
  assert (Hq : Z.div_eucl (Z.pos X1 * 2 ^ 53) (Z.pos m2)
               = (Zpos X * 2 ^ k, 0)).
  { pose proof (Z_div_mod (Z.pos X1 * 2 ^ 53) (Z.pos m2) eq_refl) as Hdm.
    destruct (Z.div_eucl (Z.pos X1 * 2 ^ 53) (Z.pos m2)) as [q r].
    rewrite HM in Hdm. destruct Hdm as [Hdm Hr].
    assert (q = Zpos X * 2 ^ k) by nia.
    f_equal; [assumption|nia]. }
  rewrite Hq.
  assert (Hl : new_location (Z.pos m2) 0 = loc_Exact).
  { unfold new_location, new_location_even, new_location_odd.
    now destruct (Z.even (Z.pos m2)). }
  rewrite Hl, xorb_false_r.
  apply round_exact; first [assumption | lia | reflexivity].
Qed.

(** An integer below 2^53 as a number: its digits, shifted to 53. *)
Lemma of_Z_canonical (s : bool) (a X : positive) :
  Zpos a < 2 ^ 53 ->
  Zpos X = Zpos a * 2 ^ (53 - Zpos (digits2_pos a)) ->
  of_Z (signed s a) = S754_finite s X (Zpos (digits2_pos a) - 53).
Proof.
  intros Ha HX.
  assert (Hd : Zpos (digits2_pos a) <= 53).
  { pose proof (digits2_pos_lower a) as Hl.
    destruct (Z_le_gt_dec (Zpos (digits2_pos a)) 53) as [H|H]; [exact H|].
    exfalso.
    assert (2 ^ 53 <= 2 ^ (Zpos (digits2_pos a) - 1))
      by (apply Z.pow_le_mono_r; lia).
    lia. }
  assert (HdX : Zpos (digits2_pos X) = 53).
  { apply digits2_unique. rewrite HX.
    pose proof (digits2_pos_bound a) as Hb.
    pose proof (digits2_pos_lower a) as Hl.
    set (d := Zpos (digits2_pos a)) in *.
    assert (Hd0 : 0 < d) by (unfold d; lia).
    replace (2 ^ (53 - 1)) with (2 ^ (d - 1) * 2 ^ (53 - d))
      by (rewrite <- Z.pow_add_r by lia; f_equal; lia).
    replace (2 ^ 53) with (2 ^ d * 2 ^ (53 - d))
      by (rewrite <- Z.pow_add_r by lia; f_equal; lia).
    assert (0 < 2 ^ (53 - d)) by (apply Z.pow_pos_nonneg; lia).
    nia. }
  assert (E : binary_round prec emax s a 0
              = S754_finite s X (Zpos (digits2_pos a) - 53)).
  { unfold binary_round, shl_align.
    replace (fexp prec emax (Z.pos (digits2_pos a) + 0) - 0)
      with (Zpos (digits2_pos a) - 53)
      by (unfold fexp, emin, prec, emax; lia).
    replace (fexp prec emax (Z.pos (digits2_pos a) + 0))
      with (Zpos (digits2_pos a) - 53)
      by (unfold fexp, emin, prec, emax; lia).
    destruct (Zpos (digits2_pos a) - 53) as [|q|q] eqn:Eq; [|lia|].
    - replace (53 - Zpos (digits2_pos a)) with 0 in HX by lia.
      rewrite Z.mul_1_r in HX. injection HX as ->.
      apply binary_round_aux_exact; [lia|lia].
    - assert (EX : Pos.iter xO a q = X).
      { apply Pos2Z.inj. rewrite HX.
        replace (53 - Zpos (digits2_pos a)) with (Zpos q) by lia.
        clear. induction q as [|q IH] using Pos.peano_ind.
        - change (Pos.iter xO a 1) with (a~0)%positive.
          change (2 ^ 1) with 2. lia.
        - rewrite Pos.iter_succ, Pos2Z.inj_xO, IH, Pos2Z.inj_succ.
          rewrite Z.pow_succ_r by lia. ring. }
      rewrite EX. apply binary_round_aux_exact; [exact HdX|lia]. }
  unfold of_Z, binary_normalize. destruct s; exact E.
Qed.

(** [Math.round] leaves an integer below 2^53 as it is. *)
Lemma Math_round_integer (s : bool) (N X : positive) :
  Zpos N < 2 ^ 53 ->
  Zpos X = Zpos N * 2 ^ (53 - Zpos (digits2_pos N)) ->
  Math_round (S754_finite s X (Zpos (digits2_pos N) - 53))
  = S754_finite s X (Zpos (digits2_pos N) - 53).
Proof.
  intros HN HX. unfold Math_round.
  destruct (0 <=? Zpos (digits2_pos N) - 53) eqn:E; [reflexivity|].
  apply Z.leb_gt in E.
  set (P := 2 ^ (53 - Zpos (digits2_pos N))) in *.
  assert (HP : 0 < P) by (apply Z.pow_pos_nonneg; lia).
  replace (- (Zpos (digits2_pos N) - 53)) with (53 - Zpos (digits2_pos N))
    by lia.
  replace (53 - Zpos (digits2_pos N) + 1)
    with (Z.succ (53 - Zpos (digits2_pos N))) by lia.
  rewrite Z.pow_succ_r by lia. fold P.
  assert (Hq : (2 * signed s X + P) / (2 * P) = signed s N).
  { replace (2 * signed s X + P) with (signed s N * (2 * P) + P).
    - rewrite Z.div_add_l by lia. rewrite Z.div_small by lia. lia.
    - destruct s; unfold signed;
        [change (Zneg X) with (- Zpos X); change (Zneg N) with (- Zpos N)|];
        rewrite HX; ring. }
  rewrite Hq.
  rewrite <- (@of_Z_canonical s N X HN HX).
  unfold of_Z, binary_normalize. now destruct s.
Qed.

Lemma two_value : of_Z 2 = S754_finite false 4503599627370496 (-51).
Proof. vm_compute. reflexivity. Qed.

(** Half an integer, rounded to one decimal, is half the integer as
    long as five times the integer is below 2^53. *)
Lemma round_half_exact (n : Z) :
  5 * Z.abs n < 2 ^ 53 ->
  div (Math_round (mul (mul (of_Z n) half) ten)) ten
  = div (of_Z n) (of_Z 2).
Proof.
  intros Hn.
  destruct (Z.eq_dec n 0) as [->|Hne]; [vm_compute; reflexivity|].
  assert (Hs : exists s a, n = signed s a /\ 5 * Zpos a < 2 ^ 53).
  { destruct n as [|a|a]; [congruence|exists false, a|exists true, a];
      split; try reflexivity; simpl in Hn; lia. }
  destruct Hs as (s & a & -> & Ha). clear Hn Hne.
  set (N := (5 * a)%positive).
  assert (HN : Zpos N = 5 * Zpos a) by (unfold N; lia).
  set (d := Zpos (digits2_pos a)).
  set (d5 := Zpos (digits2_pos N)).
  pose proof (digits2_pos_bound a) as Ba.
  pose proof (digits2_pos_lower a) as La.
  pose proof (digits2_pos_bound N) as BN.
  pose proof (digits2_pos_lower N) as LN.
  fold d in Ba, La. fold d5 in BN, LN.
  assert (Hd0 : 0 < d) by (unfold d; lia).
  assert (Hd5 : d5 <= 53).
  { destruct (Z_le_gt_dec d5 53) as [H|H]; [exact H|]. exfalso.
    assert (2 ^ 53 <= 2 ^ (d5 - 1)) by (apply Z.pow_le_mono_r; lia). lia. }
  assert (Hj0 : d + 2 <= d5).
  { destruct (Z_le_gt_dec (d + 2) d5) as [H|H]; [exact H|]. exfalso.
    assert (2 ^ d5 <= 2 ^ (d + 1)) by (apply Z.pow_le_mono_r; lia).
    replace (d + 1) with (Z.succ (Z.succ (d - 1))) in H0 by lia.
    rewrite !Z.pow_succ_r in H0 by lia. lia. }
  assert (Hj3 : d5 <= d + 3).
  { destruct (Z_le_gt_dec d5 (d + 3)) as [H|H]; [exact H|]. exfalso.
    assert (2 ^ (d + 3) <= 2 ^ (d5 - 1)) by (apply Z.pow_le_mono_r; lia).
    rewrite Z.pow_add_r in H0 by lia. change (2 ^ 3) with 8 in H0. lia. }
  destruct (@pos_scaled a (53 - d)) as [X HX]; [lia|].
  destruct (@pos_scaled N (53 - d5)) as [X5 HX5]; [lia|].
  set (j := d5 - d) in *.
  assert (HP : 2 ^ (53 - d) = 2 ^ (53 - d5) * 2 ^ j).
  { rewrite <- Z.pow_add_r by (unfold j; lia). f_equal. unfold j. lia. }
  assert (H5 : 5 * Zpos X = Zpos X5 * 2 ^ j).
  { rewrite HX, HX5, HN, HP. ring. }
  assert (HdX : Zpos (digits2_pos X) = 53).
  { apply digits2_unique. rewrite HX.
    replace (2 ^ (53 - 1)) with (2 ^ (d - 1) * 2 ^ (53 - d))
      by (rewrite <- Z.pow_add_r by lia; f_equal; lia).
    replace (2 ^ 53) with (2 ^ d * 2 ^ (53 - d))
      by (rewrite <- Z.pow_add_r by lia; f_equal; lia).
    assert (0 < 2 ^ (53 - d)) by (apply Z.pow_pos_nonneg; lia).
    nia. }
  assert (HdX5 : Zpos (digits2_pos X5) = 53).
  { apply digits2_unique. rewrite HX5.
    replace (2 ^ (53 - 1)) with (2 ^ (d5 - 1) * 2 ^ (53 - d5))
      by (rewrite <- Z.pow_add_r by lia; f_equal; lia).
    replace (2 ^ 53) with (2 ^ d5 * 2 ^ (53 - d5))
      by (rewrite <- Z.pow_add_r by lia; f_equal; lia).
    assert (0 < 2 ^ (53 - d5)) by (apply Z.pow_pos_nonneg; lia).
    nia. }
  assert (Ha53 : Zpos a < 2 ^ 53) by lia.
  assert (HN53 : Zpos N < 2 ^ 53) by lia.
  rewrite (@of_Z_canonical s a X Ha53 HX). fold d.
  rewrite half_value, ten_value, two_value.
  (* half the integer *)
  rewrite (@mul_exact s X (d - 53) 4503599627370496 (-53) X 52 HdX)
    by (try lia; change (2 ^ 52) with 4503599627370496; lia).
  replace (d - 53 + -53 + 52) with (d - 54) by lia.
  (* ten times that *)
  rewrite (@mul_exact s X (d - 54) 5629499534213120 (-49) X5 (j + 50) HdX5).
  2: unfold j; lia.
  2: unfold j; lia.
  2: { rewrite Z.pow_add_r by (unfold j; lia).
       change (2 ^ 50) with 1125899906842624.
       replace (Z.pos X * 5629499534213120)
         with (5 * Zpos X * 1125899906842624) by ring.
       rewrite H5. ring. }
  replace (d - 54 + -49 + (j + 50)) with (d5 - 53) by (unfold j; lia).
  (* rounded *)
  unfold d5 at 1. rewrite (@Math_round_integer s N X5 HN53 HX5). fold d5.
  (* a tenth of it *)
  rewrite (@div_exact s X5 (d5 - 53) 5629499534213120 (-49) X (3 - j)
             HdX5 eq_refl HdX).
  2: unfold j; lia.
  2: lia.
  2: unfold j; lia.
  2: { assert (H8 : 2 ^ j * 2 ^ (3 - j) = 8).
       { rewrite <- Z.pow_add_r by (unfold j; lia).
         replace (j + (3 - j)) with 3 by lia. reflexivity. }
       change (2 ^ 53) with (8 * 1125899906842624).
       replace (Z.pos X5 * (8 * 1125899906842624))
         with (Zpos X5 * (2 ^ j * 2 ^ (3 - j)) * 1125899906842624)
         by (rewrite H8; ring).
       replace (Zpos X5 * (2 ^ j * 2 ^ (3 - j)) * 1125899906842624)
         with (Zpos X5 * 2 ^ j * 2 ^ (3 - j) * 1125899906842624) by ring.
       rewrite <- H5. ring. }
  (* half the integer, by division *)
  rewrite (@div_exact s X (d - 53) 4503599627370496 (-51) X 1
             HdX eq_refl HdX).
  2: lia.
  2: lia.
  2: lia.
  2: { change (2 ^ 53) with 9007199254740992. change (2 ^ 1) with 2. lia. }
  f_equal. unfold j. lia.
Qed.

End ExactOperations.

(** ** Rating buckets, over the whole range *)

Section RatingBinsWide.

Local Open Scope Z_scope.

(** Twice a number below 2^52, rounded down. *)
Lemma floor_div_half_wide (s : bool) (m : positive) (e : Z) :
  bounded prec emax m e = true -> e <= -2 ->
  Math_floor (div (S754_finite s m e) half) = of_Z (floor_twice s m e).
Proof.
  intros Hb He. destruct (@bounded_cases _ _ Hb) as [[Hd Hlo]|[Hd Hlo]].
  - rewrite half_value.
    rewrite (@div_exact s m e 4503599627370496 (-53) m 1 Hd eq_refl Hd)
      by (try lia; change (2 ^ 53) with 9007199254740992;
          change (2 ^ 1) with 2; lia).
    replace (e - -53 - 53 + 1) with (e + 1) by lia.
    unfold Math_floor, floor_twice.
    now replace (0 <=? e + 1) with false by (symmetry; apply Z.leb_gt; lia).
  - apply floor_div_half; [exact Hb|lia].
Qed.

End RatingBinsWide.

(** C6 (as the code has it).  For every finite rating whose doubled
    value, rounded down, is an integer [n] with [5 * |n| < 2^53], that
    is for every rating from -900719925474099 up to, but not including,
    900719925474099.5, the bucket is exactly half the integer
    [floor (2 * rating)]: the largest multiple of 0.5 not above the
    rating, with one decimal; a zero is its own bucket.  A rating just
    below a multiple of 0.5 stays in the bucket below: 0.49999999 has
    the bucket 0 and 0.5 has the bucket 0.5.  The range is as wide as
    the code allows: 900719925474099.5 is a multiple of 0.5, and its
    bucket is 900719925474099.625. *)
Theorem ratingBinOf_floor_half (s : bool) (m : positive) (e : Z) :
  bounded prec emax m e = true ->
  (e <= -1)%Z ->
  (5 * Z.abs (floor_twice s m e) < 2 ^ 53)%Z ->
  RatingYearHeatmap.ratingBinOf (S754_finite s m e)
  = div (of_Z (floor_twice s m e)) (of_Z 2) /\
  (floor_twice s m e * 2 ^ (- (e + 1)) <= signed s m
   < (floor_twice s m e + 1) * 2 ^ (- (e + 1)))%Z /\
  RatingYearHeatmap.ratingBinOf (S754_zero s) = S754_zero s /\
  RatingYearHeatmap.ratingBinOf (decimal 49999999 8) = pzero /\
  RatingYearHeatmap.ratingBinOf (decimal 5 1) = decimal 5 1 /\
  RatingYearHeatmap.ratingBinOf (div (of_Z 1801439850948199) (of_Z 2))
  = div (of_Z 7205759403792797) (of_Z 8).
Proof.
  intros Hb He Hn.
  assert (He2 : (e <= -2)%Z).
  { destruct (Z.eq_dec e (-1)) as [->|]; [exfalso|lia].
    destruct (@bounded_cases _ _ Hb) as [[Hd _]|[_ Hlo]]; [|lia].
    pose proof (digits2_pos_lower m) as Hl. rewrite Hd in Hl.
    change (2 ^ (53 - 1))%Z with 4503599627370496%Z in Hl.
    unfold floor_twice in Hn. change (2 ^ (- (-1 + 1)))%Z with 1%Z in Hn.
    rewrite Z.div_1_r in Hn.
    change (2 ^ 53)%Z with 9007199254740992%Z in Hn.
    destruct s; simpl in Hn; lia. }
  split; [|split;
    [unfold floor_twice;
     assert (0 < 2 ^ (- (e + 1)))%Z by (apply Z.pow_pos_nonneg; lia);
     split;
     [rewrite Z.mul_comm; now apply Z.mul_div_le
     |rewrite Z.mul_comm; now apply Z.mul_succ_div_gt]
    |split; [now destruct s|repeat split; vm_compute; reflexivity]]].
  unfold RatingYearHeatmap.ratingBinOf. cbv zeta.
  rewrite (@floor_div_half_wide s _ _ Hb He2).
  now apply round_half_exact.
Qed.

Lemma ratingBinOf_floor_half_witness :
  bounded prec emax 5302428325694669 (-32) = true /\
  (-32 <= -1)%Z /\
  (5 * Z.abs (floor_twice false 5302428325694669 (-32)) < 2 ^ 53)%Z /\
  RatingYearHeatmap.ratingBinOf (S754_finite false 5302428325694669 (-32))
  = div (of_Z (floor_twice false 5302428325694669 (-32))) (of_Z 2) /\
  (floor_twice false 5302428325694669 (-32) * 2 ^ (- (-32 + 1))
   <= signed false 5302428325694669
   < (floor_twice false 5302428325694669 (-32) + 1) * 2 ^ (- (-32 + 1)))%Z /\
  RatingYearHeatmap.ratingBinOf (S754_zero false) = S754_zero false /\
  RatingYearHeatmap.ratingBinOf (decimal 49999999 8) = pzero /\
  RatingYearHeatmap.ratingBinOf (decimal 5 1) = decimal 5 1 /\
  RatingYearHeatmap.ratingBinOf (div (of_Z 1801439850948199) (of_Z 2))
  = div (of_Z 7205759403792797) (of_Z 8).
Proof.
  assert (Hb : bounded prec emax 5302428325694669 (-32) = true)
    by reflexivity.
  assert (He : (-32 <= -1)%Z) by lia.
  assert (Hn : (5 * Z.abs (floor_twice false 5302428325694669 (-32))
                < 2 ^ 53)%Z) by (vm_compute; reflexivity).
  split; [exact Hb|]. split; [exact He|]. split; [exact Hn|].
  exact (@ratingBinOf_floor_half false 5302428325694669 (-32) Hb He Hn).
Defined.
